(** * luno-csrf: the token lifecycle of [lib/CSRF.js]

    A shallow embedding of [lib/CSRF.js]: the configuration built by the
    constructor, credential generation, expiry pruning, the bounded
    per-form lists kept by [generate], persistence through [save], and
    [validate] with single-use removal.

    JavaScript effects are explicit.  A computation runs in a [World]
    holding what the module reaches outside itself: the wall clock read
    by [Date.now()], the bytes drawn from [crypto.randomBytes], and the
    Luno session store behind [self.luno].  A computation either returns
    a value or throws a JavaScript exception.

    The source changes the arrays of the session object in place, and
    [details] refers to these very arrays.  Every such change is followed
    by an assignment of the array to [details], so the embedding passes
    the session object along and returns it as the call leaves it; an
    array that [details] holds is always the array of the session as it
    currently is.  A callback is the value a computation returns.

    The module uses plain objects as maps from form names, which its
    callers choose.  An object is given by its own properties; a read
    [o[k]] also sees what the object inherits from [Object.prototype],
    and an assignment [o[k] = v] under the name [__proto__] replaces the
    prototype instead of adding a property. *)

From Stdlib Require Import ZArith String List Bool Lia.
From stdpp Require Import base option list strings pretty.

Local Open Scope string_scope.
Local Open Scope list_scope.

(** ** Objects used as maps

    A plain JavaScript object whose keys are form or field names, given
    by its own properties in [for..in] enumeration order.  [obj_get]
    looks up an own property ([None] when there is none); [obj_set]
    overwrites an own property in place or adds it last.  The objects
    described are those the module builds by assignment and those the
    store returns for them: none has an own property named [__proto__],
    which no assignment creates. *)

Definition Obj (A : Type) : Type := list (string * A).

Fixpoint obj_get {A : Type} (k : string) (o : Obj A) : option A :=
  match o with
  | [] => None
  | (k', v) :: o' => if String.eqb k' k then Some v else obj_get k o'
  end.

Fixpoint obj_set {A : Type} (k : string) (v : A) (o : Obj A) : Obj A :=
  match o with
  | [] => [(k, v)]
  | (k', v') :: o' =>
      if String.eqb k' k then (k, v) :: o' else (k', v') :: obj_set k v o'
  end.

Definition obj_keys {A : Type} (o : Obj A) : list string := map fst o.

(** What every plain object inherits from [Object.prototype]: its
    methods, each a function with its [length], and the accessor
    [__proto__], which reads as [Object.prototype] itself, an object
    without a [length]. *)
Inductive Inherited : Type :=
  | InheritedFunction (arity : nat)
  | InheritedPrototype.

Definition Object_prototype : Obj Inherited :=
  [("constructor", InheritedFunction 1);
   ("__defineGetter__", InheritedFunction 2);
   ("__defineSetter__", InheritedFunction 2);
   ("hasOwnProperty", InheritedFunction 1);
   ("__lookupGetter__", InheritedFunction 1);
   ("__lookupSetter__", InheritedFunction 1);
   ("isPrototypeOf", InheritedFunction 1);
   ("propertyIsEnumerable", InheritedFunction 1);
   ("toString", InheritedFunction 0);
   ("valueOf", InheritedFunction 0);
   ("__proto__", InheritedPrototype);
   ("toLocaleString", InheritedFunction 0)].

Definition inherited (k : string) : option Inherited :=
  obj_get k Object_prototype.

(** The expression [o[k]]: an own property, else what [Object.prototype]
    has under that name, else [undefined] ([None]).  Whatever is found
    is truthy. *)
Inductive Found (A : Type) : Type :=
  | FoundOwn (v : A)
  | FoundInherited (p : Inherited).

Arguments FoundOwn {A} v.
Arguments FoundInherited {A} p.

Definition obj_read {A : Type} (k : string) (o : Obj A) : option (Found A) :=
  match obj_get k o with
  | Some v => Some (FoundOwn v)
  | None =>
      match inherited k with
      | Some p => Some (FoundInherited p)
      | None => None
      end
  end.

(** The assignment [o[k] = v].  Under the name [__proto__], unless [o]
    has it as an own property, the assignment reaches the accessor of
    [Object.prototype]: it replaces the prototype of [o] and gives [o] no
    property.  Every other name inherited from [Object.prototype] is a
    writable data property there, so the assignment adds an own property
    as for any name. *)
Definition obj_assign {A : Type} (k : string) (v : A) (o : Obj A) : Obj A :=
  match obj_get k o with
  | Some _ => obj_set k v o
  | None => if String.eqb k "__proto__" then o else obj_set k v o
  end.

(** ** Data model *)

(** A credential [{ name, token, created }]; [name] is only present when
    it was generated with [useName]. *)
Record Credential : Type := mkCred {
  name : option string;
  token : string;
  created : Z
}.

(** [session.details.csrf]: form name to the array of its credentials,
    oldest first. *)
Definition CsrfDetails : Type := Obj (list Credential).

(** [session.details]; only the [csrf] property is read or written. *)
Record Details : Type := mkDetails {
  csrf : option CsrfDetails
}.

Module Session.

Record t : Type := mk {
  id : option string;
  key : string;
  details : option Details
}.

End Session.

Module Config.

Record cookie : Type := mkCookie {
  maxAge : Z;
  httpOnly : bool
}.

Record t : Type := mk {
  tokenLength : Z;
  useName : bool;
  name : string;
  nameLength : Z;
  maxTokens : Z;
  expiry : Z;
  expireAfterUse : bool;
  sessionCookieName : string;
  sessionCookieConfig : cookie
}.

(** The [config] argument of the constructor: any subset of the keys. *)
Record overrides : Type := mkOverrides {
  o_tokenLength : option Z;
  o_useName : option bool;
  o_name : option string;
  o_nameLength : option Z;
  o_maxTokens : option Z;
  o_expiry : option Z;
  o_expireAfterUse : option bool;
  o_sessionCookieName : option string;
  o_sessionCookieConfig : option cookie
}.

(** The literal assigned to [self.config] before the merge. *)
Definition defaults : t :=
  {| tokenLength := 30;
     useName := true;
     name := "csrf-";
     nameLength := 12;
     maxTokens := 20;
     expiry := 1000 * 60 * 60 * 24;
     expireAfterUse := true;
     sessionCookieName := "session";
     sessionCookieConfig := {| maxAge := 1209600000; httpOnly := true |} |}.

End Config.

(** A value found under a field of the submitted body; a field name
    that the body does not have but [Object.prototype] defines reads as
    the inherited function or object. *)
Inductive Value : Type :=
  | VUndefined
  | VNull
  | VBool (b : bool)
  | VNumber (n : Z)
  | VString (s : string)
  | VInherited (p : Inherited).

(** The request body; [None] is an absent ([undefined]) body. *)
Definition Body : Type := Obj Value.

(** Exceptions a call can throw. *)
Inductive Exn : Type :=
  | TypeError (msg : string)
  | RangeError (msg : string)
  | OtherError (msg : string).

(** The [err] a store callback can receive. *)
Definition Err : Type := string.

(** ** The world outside the module *)

(** The body the module sends to the store: [{ details: { csrf } }]. *)
Record SessionBody : Type := mkBody {
  body_details : Details
}.

Inductive Request : Type :=
  | POST (path : string) (body : SessionBody)
  | PATCH (path : string) (body : SessionBody).

(** Modelled from the spec: the Luno client behind [self.luno] is a
    dependency that is not part of this repository.  Following the spec's
    session-store collaborator, [createSession(details) -> session] makes
    a new record carrying the given details and
    [updateSession(id, details) -> ok] updates the record with that
    identity; both may fail.  [requests] logs every request received,
    [outage n] says whether the n-th request fails, and [deep_patch] says
    whether an update merges the submitted forms into the stored CSRF
    details or replaces the stored CSRF details by the submitted ones.
    Nothing proved below depends on the choice. *)
Record Luno : Type := mkLuno {
  sessions : list Session.t;
  requests : list Request;
  outage : nat -> bool;
  deep_patch : bool
}.

(** The random source of the platform: the base64 text of the n-th
    draw of a given size, and the sizes the platform cannot serve for
    want of memory or because their text would be longer than a string
    can be, with the exception it then throws. *)
Record Entropy : Type := mkEntropy {
  text : nat -> Z -> string;
  refused : Z -> option Exn
}.

Record World : Type := mkWorld {
  clock : nat -> Z;
  reads : nat;
  entropy : Entropy;
  draws : nat;
  luno : Luno
}.

Definition with_luno (w : World) (st : Luno) : World :=
  mkWorld (clock w) (reads w) (entropy w) (draws w) st.

(** ** Computations *)

Inductive Res (A : Type) : Type :=
  | Ok (a : A)
  | Throw (e : Exn).

Arguments Ok {A} a.
Arguments Throw {A} e.

Definition M (A : Type) : Type := World -> Res A * World.

Definition ret {A : Type} (a : A) : M A := fun w => (Ok a, w).

Definition throw {A : Type} (e : Exn) : M A := fun w => (Throw e, w).

Definition bind {A B : Type} (m : M A) (k : A -> M B) : M B :=
  fun w =>
    match m w with
    | (Ok a, w') => k a w'
    | (Throw e, w') => (Throw e, w')
    end.

Notation "'let*' x ':=' m 'in' k" := (bind m (fun x => k))
  (at level 10, x pattern, m at level 100, k at level 200).

(** [Date.now()]: every call is a fresh reading of the clock. *)
Definition Date_now : M Z :=
  fun w =>
    (Ok (clock w (reads w)),
     mkWorld (clock w) (S (reads w)) (entropy w) (draws w) (luno w)).

(** The largest size [crypto.randomBytes] accepts: [2^31 - 1]. *)
Definition max_size : Z := 2147483647.

(** [crypto.randomBytes(size).toString('base64')]: the text of the next
    draw.  Node refuses a size below [0] or above [2^31 - 1] with a
    RangeError; a size in that range may still be more than the platform
    can serve; no bytes have the empty text. *)
Definition randomBytes (size : Z) : M string :=
  fun w =>
    if ((size <? 0) || (max_size <? size))%Z
    then (Throw (RangeError "size"), w)
    else
      match refused (entropy w) size with
      | Some e => (Throw e, w)
      | None =>
          (Ok (if (size =? 0)%Z then EmptyString
               else text (entropy w) (draws w) size),
           mkWorld (clock w) (reads w) (entropy w) (S (draws w)) (luno w))
      end.

(** ** The session store *)

Definition mint (n : nat) : string := "sess_" +:+ pretty n.

Definition session_path (s : Session.t) : option string :=
  match Session.id s with
  | Some i => Some ("/sessions/" +:+ i)
  | None => None
  end.

Definition at_path (path : string) (s : Session.t) : bool :=
  match session_path s with
  | Some p => String.eqb p path
  | None => false
  end.

(** The record a fetch of [path] returns. *)
Definition luno_get (path : string) (st : Luno) : option Session.t :=
  find (at_path path) (sessions st).

Definition patch_csrf (deep : bool) (old : option CsrfDetails)
    (sent : CsrfDetails) : CsrfDetails :=
  if deep
  then foldr (fun kv acc => obj_set (fst kv) (snd kv) acc) (default [] old) sent
  else sent.

Definition patch_details (deep : bool) (old : option Details)
    (sent : Details) : Details :=
  match csrf sent with
  | Some d =>
      {| csrf := Some (patch_csrf deep
                         (match old with Some o => csrf o | None => None end) d) |}
  | None => default sent old
  end.

Definition patch_session (deep : bool) (sent : Details) (s : Session.t)
    : Session.t :=
  Session.mk (Session.id s) (Session.key s)
    (Some (patch_details deep (Session.details s) sent)).

Fixpoint patch_sessions (deep : bool) (path : string) (sent : Details)
    (ss : list Session.t) : option (list Session.t) :=
  match ss with
  | [] => None
  | s :: ss' =>
      if at_path path s then Some (patch_session deep sent s :: ss')
      else match patch_sessions deep path sent ss' with
           | Some ss'' => Some (s :: ss'')
           | None => None
           end
  end.

(** [self.luno.post(path, {}, body, cb)]: the reply handed to [cb], an
    error or the created session. *)
Definition luno_post (path : string) (body : SessionBody)
    : M (Err + Session.t) :=
  fun w =>
    let st := luno w in
    let logged := requests st ++ [POST path body] in
    if outage st (length (requests st))
    then (Ok (inl "store unavailable"),
          with_luno w (mkLuno (sessions st) logged (outage st) (deep_patch st)))
    else
      let n := length (sessions st) in
      let sess := Session.mk (Some (mint n)) ("key_" +:+ pretty n)
                    (Some (body_details body)) in
      (Ok (inr sess),
       with_luno w
         (mkLuno (sess :: sessions st) logged (outage st) (deep_patch st))).

(** [self.luno.patch(path, {}, body, cb)]: the reply handed to [cb], an
    error or nothing. *)
Definition luno_patch (path : string) (body : SessionBody)
    : M (option Err) :=
  fun w =>
    let st := luno w in
    let logged := requests st ++ [PATCH path body] in
    if outage st (length (requests st))
    then (Ok (Some "store unavailable"),
          with_luno w (mkLuno (sessions st) logged (outage st) (deep_patch st)))
    else
      match patch_sessions (deep_patch st) path (body_details body)
              (sessions st) with
      | Some ss =>
          (Ok None,
           with_luno w (mkLuno ss logged (outage st) (deep_patch st)))
      | None =>
          (Ok (Some "no such session"),
           with_luno w
             (mkLuno (sessions st) logged (outage st) (deep_patch st)))
      end.

(** ** The module [lib/CSRF.js] *)

(** [new CSRF(luno, config)]: the defaults, then every key of [config]
    copied over them; [luno] is the store of the [World].  Nothing is
    inspected, so construction returns normally for every argument. *)
Definition CSRF (config : Config.overrides) : Res Config.t :=
  let d := Config.defaults in
  Ok {| Config.tokenLength := default (Config.tokenLength d) (Config.o_tokenLength config);
        Config.useName := default (Config.useName d) (Config.o_useName config);
        Config.name := default (Config.name d) (Config.o_name config);
        Config.nameLength := default (Config.nameLength d) (Config.o_nameLength config);
        Config.maxTokens := default (Config.maxTokens d) (Config.o_maxTokens config);
        Config.expiry := default (Config.expiry d) (Config.o_expiry config);
        Config.expireAfterUse :=
          default (Config.expireAfterUse d) (Config.o_expireAfterUse config);
        Config.sessionCookieName :=
          default (Config.sessionCookieName d) (Config.o_sessionCookieName config);
        Config.sessionCookieConfig :=
          default (Config.sessionCookieConfig d)
            (Config.o_sessionCookieConfig config) |}.

(** JavaScript truthiness of a property holding a string or nothing. *)
Definition truthy (s : option string) : bool :=
  match s with
  | Some s => negb (String.eqb s EmptyString)
  | None => false
  end.

(** The session after an in-place change of its [details.csrf] object;
    a session without [details] has none to change. *)
Definition set_csrf (s : Session.t) (d : CsrfDetails) : Session.t :=
  match Session.details s with
  | Some _ => Session.mk (Session.id s) (Session.key s) (Some {| csrf := Some d |})
  | None => s
  end.

(** The session after the array [session.details.csrf[f]] was changed in
    place and now holds [arr]. *)
Definition write_back (session : option Session.t) (f : string)
    (arr : list Credential) : option Session.t :=
  match session with
  | Some s =>
      match Session.details s with
      | Some dt =>
          match csrf dt with
          | Some d => Some (set_csrf s (obj_set f arr d))
          | None => session
          end
      | None => session
      end
  | None => None
  end.

Section CsrfModule.

Variable self : Config.t.

(** [generateCredentials()] *)
Definition generateCredentials : M Credential :=
  let* nm := (if Config.useName self
              then let* n := randomBytes (Config.nameLength self) in ret (Some n)
              else ret None) in
  let* tk := randomBytes (Config.tokenLength self) in
  let* now := Date_now in
  ret {| name := nm; token := tk; created := now |}.

(** The [while (j--)] loop of [_expire] over the array [l] stored under
    form [i]: [l.splice(j, 1)] is [delete j l], and since [details[i]]
    is assigned the array itself after each splice it always holds the
    array as it currently is.  [i] is an own property of the session's
    CSRF object, hence not [__proto__], and the assignment writes an own
    property of [details]. *)
Fixpoint expire_while (i : string) (j : nat) (l : list Credential)
    (details : CsrfDetails) : M (list Credential * CsrfDetails) :=
  match j with
  | O => ret (l, details)
  | S j' =>
      match l !! j' with
      | None => throw (TypeError "Cannot read property 'created' of undefined")
      | Some c =>
          let* now := Date_now in
          if (created c <? now - Config.expiry self)%Z
          then expire_while i j' (delete j' l) (obj_set i (delete j' l) details)
          else expire_while i j' l details
      end
  end.

(** The [for (var i in d)] loop of [_expire]: [d] is the session's own
    object, so what the inner loop leaves of [d[i]] is seen in [d]. *)
Fixpoint expire_for_in (keys : list string) (d details : CsrfDetails)
    : M (CsrfDetails * CsrfDetails) :=
  match keys with
  | [] => ret (d, details)
  | i :: keys' =>
      match obj_get i d with
      | None => throw (TypeError "Cannot read property 'length' of undefined")
      | Some l =>
          let* (l', details') := expire_while i (length l) l details in
          expire_for_in keys' (obj_set i l' d) details'
      end
  end.

(** [_expire(session, details)]: returns the session and [details] as
    the call leaves them. *)
Definition _expire (session : option Session.t) (details : CsrfDetails)
    : M (option Session.t * CsrfDetails) :=
  match session with
  | None => ret (None, details)
  | Some s =>
      match Session.details s with
      | None => throw (TypeError "Cannot read property 'csrf' of undefined")
      | Some dt =>
          match csrf dt with
          | None => ret (session, details)
          | Some d =>
              let* (d', details') := expire_for_in (obj_keys d) d details in
              ret (Some (set_csrf s d'), details')
          end
      end
  end.

(** What [save] hands to its callback: [cb(err)] or
    [cb(err, sess, created)]. *)
Inductive SaveCb : Type :=
  | SaveErr (err : Err)
  | Saved (sess : Session.t) (created : bool).

(** [save(session, details, cb)] *)
Definition save (session : option Session.t) (details : CsrfDetails)
    : M SaveCb :=
  let body := {| body_details := {| csrf := Some details |} |} in
  let create :=
    let* r := luno_post "/sessions" body in
    match r with
    | inl err => ret (SaveErr err)
    | inr sess => ret (Saved sess true)
    end in
  match session with
  | None => create
  | Some s =>
      if negb (truthy (Session.id s)) then create
      else
        let* r := luno_patch ("/sessions/" +:+ default EmptyString (Session.id s)) body in
        match r with
        | Some err => ret (SaveErr err)
        | None => ret (Saved s false)
        end
  end.

(** The [forms] argument: one name or an array of names. *)
Inductive Forms : Type :=
  | OneForm (f : string)
  | FormArray (fs : list string).

Definition forms_array (forms : Forms) : list string :=
  match forms with
  | OneForm f => [f]
  | FormArray fs => fs
  end.

(** [session && session.details.csrf && session.details.csrf[f]] *)
Definition stored_for (session : option Session.t) (f : string)
    : M (option (Found (list Credential))) :=
  match session with
  | None => ret None
  | Some s =>
      match Session.details s with
      | None => throw (TypeError "Cannot read property 'csrf' of undefined")
      | Some dt =>
          ret (match csrf dt with
               | Some d => obj_read f d
               | None => None
               end)
      end
  end.

(** The rest of a turn of the loop of [generate] when [arr] is a value
    inherited from [Object.prototype]: a function, whose [length] is
    compared with [maxTokens], or the prototype object, whose [length]
    is [undefined]; neither has a [shift] or a [push]. *)
Definition generate_inherited {A : Type} (p : Inherited) : M A :=
  if match p with
     | InheritedFunction n => (Config.maxTokens self <=? Z.of_nat n)%Z
     | InheritedPrototype => false
     end
  then throw (TypeError "arr.shift is not a function")
  else
    let* creds := generateCredentials in
    throw (TypeError "arr.push is not a function").

(** The array the session holds as its own property [form], if any. *)
Definition own_array (found : option (Found (list Credential)))
    : option (list Credential) :=
  match found with
  | Some (FoundOwn l) => Some l
  | _ => None
  end.

(** The loop of [generate] over the requested forms.  When the session
    already has an array for [f], [arr] is that very array and the shift
    and push are seen in the session; when it has nothing under [f],
    [arr] is a new array that only [details] refers to; when [f] is a
    name it inherits, [arr] is the inherited value.  [resp] and [details]
    are given by their own properties. *)
Fixpoint generate_for (forms : list string) (session : option Session.t)
    (resp : Obj Credential) (details : CsrfDetails)
    : M (option Session.t * Obj Credential * CsrfDetails) :=
  match forms with
  | [] => ret (session, resp, details)
  | f :: rest =>
      let* found := stored_for session f in
      match found with
      | Some (FoundInherited p) => generate_inherited p
      | _ =>
          let stored := own_array found in
          let arr := default [] stored in
          let arr :=
            if (Config.maxTokens self <=? Z.of_nat (length arr))%Z
            then tail arr else arr in
          let* creds := generateCredentials in
          let arr := arr ++ [creds] in
          let session :=
            match stored with
            | Some _ => write_back session f arr
            | None => session
            end in
          generate_for rest session (obj_assign f creds resp)
            (obj_assign f arr details)
      end
  end.

(** What [generate] hands to its callback: [cb(err)] or
    [cb(err, resp, sess, created)]. *)
Inductive GenerateCb : Type :=
  | GenerateErr (err : Err)
  | Generated (resp : Obj Credential) (sess : Session.t) (created : bool).

(** [generate(session, forms, cb)] *)
Definition generate (session : option Session.t) (forms : Forms)
    : M GenerateCb :=
  let* (session, details) := _expire session [] in
  let* (session, resp, details) :=
    generate_for (forms_array forms) session [] details in
  let* r := save session details in
  match r with
  | SaveErr err => ret (GenerateErr err)
  | Saved sess created => ret (Generated resp sess created)
  end.

(** The field name computed by [validate] and by [inputHTML]:
    [config.name], followed by the credential's name when [useName] is
    set and the credential has a non-empty name. *)
Definition fieldName (c : Credential) : string :=
  if Config.useName self && truthy (name c)
  then Config.name self +:+ default EmptyString (name c)
  else Config.name self.

(** A text between double quotes. *)
Definition quoted (s : string) : string :=
  String (Ascii.ascii_of_nat 34) (s +:+ String (Ascii.ascii_of_nat 34) EmptyString).

(** [inputHTML(creds)] *)
Definition inputHTML (creds : Credential) : string :=
  "<input type=" +:+ quoted "hidden" +:+ " name=" +:+ quoted (fieldName creds)
    +:+ " value=" +:+ quoted (token creds) +:+ ">".

(** [body[name]] on a body that is present. *)
Definition body_read (b : Body) (field : string) : Value :=
  match obj_read field b with
  | Some (FoundOwn v) => v
  | Some (FoundInherited p) => VInherited p
  | None => VUndefined
  end.

(** [body[name]]: reading a property of an absent body throws. *)
Definition body_get (body : option Body) (field : string) : M Value :=
  match body with
  | None => throw (TypeError "Cannot read property of undefined")
  | Some b => ret (body_read b field)
  end.

(** The array the session holds for [form] as an own property of its
    CSRF object, if it has one. *)
Definition session_form (session : option Session.t) (form : string)
    : option (list Credential) :=
  match session with
  | Some s =>
      match Session.details s with
      | Some dt =>
          match csrf dt with
          | Some d => obj_get form d
          | None => None
          end
      | None => None
      end
  | None => None
  end.

(** What [validate] hands to its callback: [cb(err)] or
    [cb(err, success, sess)]. *)
Inductive ValidateCb : Type :=
  | ValidateErr (err : Err)
  | Validated (success : bool) (sess : option Session.t).

(** The constant-time comparison [scmp(a, b)] of the scmp package, which
    the module imports: a total comparison of two values. *)
Variable scmp : Value -> Value -> bool.

(** The [for] loop of [validate] up to its first match: the index [i] at
    which [scmp(body[name], c.token)] holds, if any. *)
Fixpoint validate_for (body : option Body) (i : nat)
    (rest : list Credential) : M (option nat) :=
  match rest with
  | [] => ret None
  | c :: rest' =>
      let* v := body_get body (fieldName c) in
      if negb (scmp v (VString (token c)))
      then validate_for body (S i) rest'
      else ret (Some i)
  end.

(** The body of that loop once the comparison holds at index [i]:
    [csrf.splice(i, 1)] changes the session's own array.  The loop only
    runs over an array, and [csrf] is one when [form] is an own property
    of [details] or a name [Object.prototype] does not define: either
    way [details[form] = csrf] writes an own property. *)
Definition validate_matched (form : string) (session : option Session.t)
    (details : CsrfDetails) (csrf : list Credential) (i : nat)
    : M (bool * ValidateCb * option Session.t) :=
  if negb (Config.expireAfterUse self)
  then ret (true, Validated true session, session)
  else
    let csrf := delete i csrf in
    let details := obj_set form csrf details in
    let session := write_back session form csrf in
    let* r := save session details in
    match r with
    | SaveErr err => ret (true, ValidateErr err, session)
    | Saved sess _ => ret (true, Validated true (Some sess), session)
    end.

(** [session && session.details && session.details.csrf &&
    session.details.csrf[form]] *)
Definition session_read (session : option Session.t) (form : string)
    : option (Found (list Credential)) :=
  match session with
  | Some s =>
      match Session.details s with
      | Some dt =>
          match csrf dt with
          | Some d => obj_read form d
          | None => None
          end
      | None => None
      end
  | None => None
  end.

(** The [for] loop of [validate] when [csrf] is a value inherited from
    [Object.prototype].  The prototype object has no [length], and a
    function of [length] 0 gives no turn either.  Any other function
    gives a first turn in which [c = csrf[0]] is [undefined]: reading
    [c.name] throws, or, when [useName] is off, reading [c.token] does,
    once [body[name]] has been evaluated. *)
Definition validate_inherited (body : option Body) (p : Inherited) : M unit :=
  match p with
  | InheritedFunction (S _) =>
      if Config.useName self
      then throw (TypeError "Cannot read property 'name' of undefined")
      else
        let* _ := body_get body (Config.name self) in
        throw (TypeError "Cannot read property 'token' of undefined")
  | _ => ret tt
  end.

(** [validate(form, session, body, cb)]: the value returned, what the
    callback receives, and the session object as the call leaves it.
    After [_expire] the variable [csrf] is [details[form]] when that is
    not [undefined]: the array assigned there, or else, [details] being
    a new object, whatever [Object.prototype] has under the name [form].
    Otherwise it still is what was read from the session: its array,
    which [_expire] pruned in place. *)
Definition validate (form : string) (session : option Session.t)
    (body : option Body) : M (bool * ValidateCb * option Session.t) :=
  match session_read session form with
  | None => ret (false, Validated false None, session)
  | Some csrf0 =>
      let* (session, details) := _expire session [] in
      let csrf :=
        match obj_read form details with
        | Some found => found
        | None =>
            match csrf0 with
            | FoundOwn l0 => FoundOwn (default l0 (session_form session form))
            | FoundInherited p => FoundInherited p
            end
        end in
      match csrf with
      | FoundOwn csrf =>
          let* hit := validate_for body 0 csrf in
          match hit with
          | None => ret (false, Validated false None, session)
          | Some i => validate_matched form session details csrf i
          end
      | FoundInherited p =>
          let* _ := validate_inherited body p in
          ret (false, Validated false None, session)
      end
  end.

(** An Express request as [validateReq] reads it. *)
Record Req : Type := mkReq {
  req_session : option Session.t;
  req_body : option Body
}.

(** [validateReq(form, req, cb)] *)
Definition validateReq (form : string) (req : Req)
    : M (bool * ValidateCb * option Session.t) :=
  validate form (req_session req) (req_body req).

End CsrfModule.

(** ** The Express middlewares of [lib/CSRF.js] *)

(** A cookie set with [res.cookie(name, value, options)]. *)
Record SetCookie : Type := mkSetCookie {
  cookie_name : string;
  cookie_value : string;
  cookie_options : Config.cookie
}.

(** What the function returned by [middleware] does with the request:
    [next(err)], with nothing assigned and no cookie set, or the
    assignments [req.csrf = csrf] and [req.session = sess], one cookie,
    and [next()]. *)
Inductive Handled : Type :=
  | Refused (err : Err)
  | Served (answered : Obj Credential) (sess : Session.t) (jar : SetCookie).

(** What a validating middleware calls [next] with: nothing, or
    [new Error(message)]. *)
Inductive Next : Type :=
  | Continue
  | NextError (message : string).

Section Middlewares.

Variable self : Config.t.

(** [middleware(forms)], applied to a request. *)
Definition middleware (forms : Forms) (req : Req) : M Handled :=
  let* r := generate self (req_session req) forms in
  match r with
  | GenerateErr err => ret (Refused err)
  | Generated answered sess _ =>
      ret (Served answered sess
             {| cookie_name := Config.sessionCookieName self;
                cookie_value := Session.key sess;
                cookie_options := Config.sessionCookieConfig self |})
  end.

Variable scmp : Value -> Value -> bool.

(** [validateMiddleware(form)], applied to a request: the callback of
    [validateReq] receives [(err, success)], and [success] is undefined
    when [validate] calls back with an error alone. *)
Definition validateMiddleware (form : string) (req : Req) : M Next :=
  let* out := validateReq self scmp form req in
  match out with
  | (_, Validated success _, _) =>
      if negb success then ret (NextError "Invalid CSRF") else ret Continue
  | (_, ValidateErr _, _) => ret (NextError "Invalid CSRF")
  end.

(** [validateMiddlewareQuick(form)], applied to a request: it goes by
    the value [validateReq] returns and passes no callback. *)
Definition validateMiddlewareQuick (form : string) (req : Req) : M Next :=
  let* out := validateReq self scmp form req in
  match out with
  | (returned, _, _) =>
      if negb returned then ret (NextError "Invalid CSRF") else ret Continue
  end.

End Middlewares.

(** ** Vocabulary of the statements *)

(** The test of [_expire] at a clock reading [t]:
    [created < t - expiry]. *)
Definition expired_at (self : Config.t) (t : Z) (c : Credential) : bool :=
  (created c <? t - Config.expiry self)%Z.

(** [pruned self clk l l']: [l'] is [l] without some credentials, each
    dropped one expired at some reading of the clock [clk] and each kept
    one not expired at some reading. *)
Inductive pruned (self : Config.t) (clk : nat -> Z)
    : list Credential -> list Credential -> Prop :=
  | pruned_nil : pruned self clk [] []
  | pruned_keep c l l' :
      (exists k, expired_at self (clk k) c = false) ->
      pruned self clk l l' -> pruned self clk (c :: l) (c :: l')
  | pruned_drop c l l' :
      (exists k, expired_at self (clk k) c = true) ->
      pruned self clk l l' -> pruned self clk (c :: l) l'.

(** The same, form by form, between two CSRF objects. *)
Definition pruned_obj (self : Config.t) (clk : nat -> Z)
    (d d' : CsrfDetails) : Prop :=
  forall f,
    match obj_get f d with
    | Some l => exists l', obj_get f d' = Some l' /\ pruned self clk l l'
    | None => obj_get f d' = None
    end.

(** Every array that [details] holds is the one [d] holds. *)
Definition agrees (details d : CsrfDetails) : Prop :=
  forall f l, obj_get f details = Some l -> obj_get f d = Some l.

(** The world after [n] more readings of the clock. *)
Definition tick (n : nat) (w : World) : World :=
  mkWorld (clock w) (n + reads w) (entropy w) (draws w) (luno w).

(** Only the clock and the random source were used: the store is as it
    was. *)
Definition quiet (w w' : World) : Prop :=
  clock w' = clock w /\ entropy w' = entropy w /\ luno w' = luno w.

(** A computation that, whether it returns or throws, leaves the store
    as it is. *)
Definition silent {A : Type} (m : M A) : Prop :=
  forall w, luno (snd (m w)) = luno w.

(** What never changes: the timeline, the random source, and how the
    store behaves. *)
Definition evolves (w w' : World) : Prop :=
  clock w' = clock w /\ entropy w' = entropy w /\
  outage (luno w') = outage (luno w) /\
  deep_patch (luno w') = deep_patch (luno w).

(** A session [_expire] can read: absent, or with a [details] object. *)
Definition usable (session : option Session.t) : Prop :=
  match session with
  | Some s => Session.details s <> None
  | None => True
  end.

(** The random source serves a draw of [size] bytes. *)
Definition served (w : World) (size : Z) : Prop :=
  (0 <= size <= max_size)%Z /\ refused (entropy w) size = None.

(** The random source serves the configured lengths. *)
Definition lengths_ok (self : Config.t) (w : World) : Prop :=
  served w (Config.tokenLength self) /\
  (Config.useName self = true -> served w (Config.nameLength self)).

(** A name that [Object.prototype] does not define: on a plain object it
    reads as an own property or as [undefined]. *)
Definition ordinary (k : string) : Prop := inherited k = None.

(** Reading the form from the session gives a value that its CSRF
    object inherits, not an array of its own. *)
Definition reads_inherited (session : option Session.t) (f : string) : Prop :=
  exists p, session_read session f = Some (FoundInherited p).

(** The session as the store holds it, which is what the next request
    of the same client carries. *)
Definition fetch (st : Luno) (sess : Session.t) : option Session.t :=
  match session_path sess with
  | Some p => luno_get p st
  | None => None
  end.

(** The submitted body [b] passes the comparison of [validate] for the
    credential [c]. *)
Definition matches (self : Config.t) (scmp : Value -> Value -> bool)
    (b : Body) (c : Credential) : bool :=
  scmp (body_read b (fieldName self c)) (VString (token c)).

(** The body [b] carries the token of [c] under the field name of [c]. *)
Definition submitted (self : Config.t) (b : Body) (c : Credential) : Prop :=
  obj_get (fieldName self c) b = Some (VString (token c)).

(** The comparison accepts a string compared with itself. *)
Definition accepts_equal (scmp : Value -> Value -> bool) : Prop :=
  forall s, scmp (VString s) (VString s) = true.

(** Index, counted from [i], of the first credential that [b] matches. *)
Fixpoint first_match (self : Config.t) (scmp : Value -> Value -> bool)
    (b : Body) (i : nat) (rest : list Credential) : option nat :=
  match rest with
  | [] => None
  | c :: rest' =>
      if matches self scmp b c then Some i
      else first_match self scmp b (S i) rest'
  end.

(** No credential of the forms [keys] of [d] is expired at any reading. *)
Definition all_live (self : Config.t) (clk : nat -> Z) (keys : list string)
    (d : CsrfDetails) : Prop :=
  forall f l c k,
    f ∈ keys -> obj_get f d = Some l -> c ∈ l ->
    expired_at self (clk k) c = false.

(** [(session || {}).id] *)
Definition session_id (session : option Session.t) : option string :=
  match session with
  | Some s => Session.id s
  | None => None
  end.

(** Every credential answered so far is the last one of the array that
    [details] holds for its form. *)
Definition answered_last (resp : Obj Credential) (details : CsrfDetails)
    : Prop :=
  forall f c, obj_get f resp = Some c ->
    exists pre, obj_get f details = Some (pre ++ [c]).

(** The store holds, for the client of [sess], a session with an
    identity and the array [l] for form [f]. *)
Definition held (w : World) (sess : Session.t) (f : string)
    (l : list Credential) : Prop :=
  exists s0 dt d,
    fetch (luno w) sess = Some s0 /\
    truthy (Session.id s0) = true /\
    session_path s0 = session_path sess /\
    Session.details s0 = Some dt /\ csrf dt = Some d /\
    obj_get f d = Some l.

(** The store answers every request. *)
Definition store_up (w : World) : Prop :=
  forall n, outage (luno w) n = false.

(** The configuration of the scenario: 16-byte tokens, at most two
    tokens per form, single use. *)
Definition config_scenario : Config.overrides :=
  Config.mkOverrides (Some 16%Z) None None None (Some 2%Z) None (Some true)
    None None.

(** The array [generate] works on after [arr.shift()] when full. *)
Definition evict (self : Config.t) (arr : list Credential) : list Credential :=
  if (Config.maxTokens self <=? Z.of_nat (length arr))%Z then tail arr else arr.

(** The CSRF object carried by a request to the store. *)
Definition sent (r : Request) : option CsrfDetails :=
  match r with
  | POST _ body => csrf (body_details body)
  | PATCH _ body => csrf (body_details body)
  end.

(** A comparison that accepts equal strings and nothing else, and a
    world with a steady clock, used to run the module on examples. *)
Definition scmp_strings (a b : Value) : bool :=
  match a, b with
  | VString x, VString y => String.eqb x y
  | _, _ => false
  end.

Definition steady (now : Z) (st : Luno) : World :=
  mkWorld (fun _ => now) 0
    (mkEntropy (fun k n => "r" +:+ pretty k) (fun _ => None)) 0 st.

Definition store_of (ss : list Session.t) : Luno :=
  mkLuno ss [] (fun _ => false) false.

Definition empty_store : Luno := store_of [].

(** A stored session [sess_0] with the given CSRF object, one without a
    [details] object, and a named credential created at [t]. *)
Definition session_with (d : CsrfDetails) : Session.t :=
  Session.mk (Some "sess_0") "key_0" (Some {| csrf := Some d |}).

Definition session_bare : Session.t :=
  Session.mk (Some "sess_0") "key_0" None.

(** A stored session whose [details] object has no [csrf] field. *)
Definition session_blank : Session.t :=
  Session.mk (Some "sess_0") "key_0" (Some {| csrf := None |}).

Definition cred_at (t : Z) (nm tk : string) : Credential :=
  {| name := Some nm; token := tk; created := t |}.

(** A configuration whose numbers are all non-positive. *)
Definition config_nonpositive : Config.overrides :=
  Config.mkOverrides (Some (-1)%Z) None None (Some 0%Z) (Some 0%Z) (Some (-5)%Z)
    None None None.

(** The object built from [config_scenario]. *)
Definition self_scenario : Config.t :=
  {| Config.tokenLength := 16; Config.useName := true;
     Config.name := "csrf-"; Config.nameLength := 12;
     Config.maxTokens := 2; Config.expiry := 86400000;
     Config.expireAfterUse := true;
     Config.sessionCookieName := "session";
     Config.sessionCookieConfig :=
       {| Config.maxAge := 1209600000; Config.httpOnly := true |} |}.

(** The same with tokens that stay valid after use. *)
Definition self_reusable : Config.t :=
  {| Config.tokenLength := 16; Config.useName := true;
     Config.name := "csrf-"; Config.nameLength := 12;
     Config.maxTokens := 2; Config.expiry := 86400000;
     Config.expireAfterUse := false;
     Config.sessionCookieName := "session";
     Config.sessionCookieConfig :=
       {| Config.maxAge := 1209600000; Config.httpOnly := true |} |}.

(** The object built from [config_nonpositive]. *)
Definition self_nonpositive : Config.t :=
  {| Config.tokenLength := -1; Config.useName := true;
     Config.name := "csrf-"; Config.nameLength := 0;
     Config.maxTokens := 0; Config.expiry := -5;
     Config.expireAfterUse := true;
     Config.sessionCookieName := "session";
     Config.sessionCookieConfig :=
       {| Config.maxAge := 1209600000; Config.httpOnly := true |} |}.

(** The defaults with [maxTokens: 0]. *)
Definition self_capacity0 : Config.t :=
  {| Config.tokenLength := 30; Config.useName := true;
     Config.name := "csrf-"; Config.nameLength := 12;
     Config.maxTokens := 0; Config.expiry := 86400000;
     Config.expireAfterUse := true;
     Config.sessionCookieName := "session";
     Config.sessionCookieConfig :=
       {| Config.maxAge := 1209600000; Config.httpOnly := true |} |}.

(** The defaults with [tokenLength: 0] and [useName: false], and the
    credential every [generate] then makes at time 1000: no name and the
    empty token. *)
Definition self_empty_tokens : Config.t :=
  {| Config.tokenLength := 0; Config.useName := false;
     Config.name := "csrf-"; Config.nameLength := 12;
     Config.maxTokens := 20; Config.expiry := 86400000;
     Config.expireAfterUse := true;
     Config.sessionCookieName := "session";
     Config.sessionCookieConfig :=
       {| Config.maxAge := 1209600000; Config.httpOnly := true |} |}.

Definition cred_empty : Credential :=
  {| name := None; token := EmptyString; created := 1000 |}.

(** The world after [generate] ran twice for ["login"] with
    [self_empty_tokens], first without a session and then on the session
    the first call created. *)
Definition issued_twice : World :=
  snd (generate self_empty_tokens
         (Some (session_with [("login", [cred_empty])])) (OneForm "login")
         (snd (generate self_empty_tokens None (OneForm "login")
                 (steady 1000 empty_store)))).

(** The array the store holds for ["login"] under the identity of [s]
    once [generate] has run in a store that held [s] alone. *)
Definition login_after (self : Config.t) (s : Session.t) (forms : Forms)
    (now : Z) : option (list Credential) :=
  session_form
    (fetch (luno (snd (generate self (Some s) forms (steady now (store_of [s])))))
       s) "login".

(** A stored session whose ["login"] array holds three credentials. *)
Definition session_full : Session.t :=
  session_with
    [("login", [cred_at 1000 "a" "s"; cred_at 1000 "b" "t"; cred_at 1000 "c" "u"])].

(** What pruning at a clock standing at [now] leaves of an array, whether
    it leaves all of it, and what it then assigns to [details] for the
    form of a stored array. *)
Definition unexpired (self : Config.t) (now : Z) (l : list Credential)
    : list Credential :=
  List.filter (fun c => negb (expired_at self now c)) l.

Definition none_expired (self : Config.t) (now : Z) (l : list Credential)
    : bool :=
  forallb (fun c => negb (expired_at self now c)) l.

Definition pruning_report (self : Config.t) (now : Z)
    (stored : option (list Credential)) : option (list Credential) :=
  match stored with
  | Some l => if none_expired self now l then None else Some (unexpired self now l)
  | None => None
  end.

(** Every array of the object has at most [maxTokens] entries. *)
Definition within_capacity (self : Config.t) (d : CsrfDetails) : Prop :=
  forall f l, obj_get f d = Some l ->
    (Z.of_nat (length l) <= Config.maxTokens self)%Z.

(** A store whose every request fails. *)
Definition store_down (ss : list Session.t) : Luno :=
  mkLuno ss [] (fun _ => true) false.

(** An empty store that answers its first [k] requests and fails every
    later one. *)
Definition store_failing_from (k : nat) : Luno :=
  mkLuno [] [] (fun n => Nat.leb k n) false.

(** The world after [generate] ran for ["login"] with [self_scenario],
    without a session, in a store that answers this one request. *)
Definition issued_once : World :=
  snd (generate self_scenario None (OneForm "login")
         (steady 1000 (store_failing_from 1))).

(** The text holds no double quote. *)
Fixpoint quote_free (s : string) : bool :=
  match s with
  | EmptyString => true
  | String a s' => negb (Ascii.eqb a (Ascii.ascii_of_nat 34)) && quote_free s'
  end.

(** * Properties *)

(** ** Objects *)

Lemma obj_get_set_eq {A : Type} (k : string) (v : A) (o : Obj A) :
  obj_get k (obj_set k v o) = Some v.
Proof.
  induction o as [|[k' v'] o IH]; simpl.
  - now rewrite String.eqb_refl.
  - destruct (String.eqb k' k) eqn:E; simpl.
    + now rewrite String.eqb_refl.
    + now rewrite E.
Qed.

Lemma obj_get_set_ne {A : Type} (k k' : string) (v : A) (o : Obj A) :
  k <> k' -> obj_get k' (obj_set k v o) = obj_get k' o.
Proof.
  intros Hne. induction o as [|[k0 v0] o IH]; simpl.
  - destruct (String.eqb_spec k k'); [contradiction | reflexivity].
  - destruct (String.eqb_spec k0 k) as [->|Hk]; simpl.
    + destruct (String.eqb_spec k k'); [contradiction | reflexivity].
    + now rewrite IH.
Qed.

Lemma obj_set_set {A : Type} (k : string) (v v' : A) (o : Obj A) :
  obj_set k v (obj_set k v' o) = obj_set k v o.
Proof.
  induction o as [|[k0 v0] o IH]; simpl.
  - now rewrite String.eqb_refl.
  - destruct (String.eqb k0 k) eqn:E; simpl.
    + now rewrite String.eqb_refl.
    + now rewrite E, IH.
Qed.

Lemma obj_set_same {A : Type} (k : string) (v : A) (o : Obj A) :
  obj_get k o = Some v -> obj_set k v o = o.
Proof.
  induction o as [|[k0 v0] o IH]; simpl; [discriminate|].
  destruct (String.eqb_spec k0 k) as [->|Hk].
  - now intros [= ->].
  - intros H. now rewrite IH.
Qed.

Lemma obj_get_set_is_Some {A : Type} (k k' : string) (v : A) (o : Obj A) :
  is_Some (obj_get k' o) -> is_Some (obj_get k' (obj_set k v o)).
Proof.
  intros H. destruct (String.eqb_spec k k') as [->|Hne].
  - rewrite obj_get_set_eq. eauto.
  - now rewrite obj_get_set_ne.
Qed.

Lemma obj_keys_get {A : Type} (o : Obj A) (i : string) :
  i ∈ obj_keys o -> is_Some (obj_get i o).
Proof.
  unfold obj_keys. induction o as [|[k v] o IH]; simpl.
  - intros H. inversion H.
  - intros H. destruct (String.eqb_spec k i); [eauto|].
    apply IH. inversion H; subst; [contradiction | assumption].
Qed.

Lemma obj_read_own {A : Type} (k : string) (v : A) (o : Obj A) :
  obj_get k o = Some v -> obj_read k o = Some (FoundOwn v).
Proof. unfold obj_read. now intros ->. Qed.

Lemma obj_read_ordinary {A : Type} (k : string) (o : Obj A) :
  ordinary k -> obj_read k o = FoundOwn <$> obj_get k o.
Proof. unfold obj_read, ordinary. intros ->. now destruct (obj_get k o). Qed.

Lemma obj_read_missing {A : Type} (k : string) (o : Obj A) :
  obj_get k o = None -> obj_read k o = FoundInherited <$> inherited k.
Proof. unfold obj_read. intros ->. now destruct (inherited k). Qed.

Lemma ordinary_proto (k : string) : ordinary k -> k <> "__proto__".
Proof. intros H ->. discriminate. Qed.

Lemma obj_assign_set {A : Type} (k : string) (v : A) (o : Obj A) :
  k <> "__proto__" -> obj_assign k v o = obj_set k v o.
Proof.
  intros Hk. unfold obj_assign. destruct (obj_get k o); [reflexivity|].
  destruct (String.eqb_spec k "__proto__"); [contradiction | reflexivity].
Qed.

Lemma obj_assign_proto {A : Type} (v : A) (o : Obj A) :
  obj_get "__proto__" o = None -> obj_assign "__proto__" v o = o.
Proof. unfold obj_assign. now intros ->. Qed.

Lemma obj_assign_cases {A : Type} (k : string) (v : A) (o : Obj A) :
  obj_assign k v o = obj_set k v o \/
  (k = "__proto__" /\ obj_get k o = None /\ obj_assign k v o = o).
Proof.
  unfold obj_assign. destruct (obj_get k o); [now left|].
  destruct (String.eqb_spec k "__proto__"); [right | left]; auto.
Qed.

Lemma obj_get_assign_ne {A : Type} (k k' : string) (v : A) (o : Obj A) :
  k <> k' -> obj_get k' (obj_assign k v o) = obj_get k' o.
Proof.
  intros Hne. destruct (obj_assign_cases k v o) as [->|(_ & _ & ->)];
    [now apply obj_get_set_ne | reflexivity].
Qed.

Lemma obj_get_assign_eq {A : Type} (k : string) (v : A) (o : Obj A) :
  k <> "__proto__" -> obj_get k (obj_assign k v o) = Some v.
Proof. intros Hk. rewrite obj_assign_set by assumption. apply obj_get_set_eq. Qed.

(** ** Pruning as a relation *)

Section Pruned.

Variable self : Config.t.
Variable clk : nat -> Z.

Lemma pruned_trans (l1 l2 l3 : list Credential) :
  pruned self clk l1 l2 -> pruned self clk l2 l3 -> pruned self clk l1 l3.
Proof.
  intros H. revert l3. induction H as [|c l l' Hk H IH|c l l' Hk H IH]; intros l3 H3.
  - assumption.
  - inversion H3; subst.
    + apply pruned_keep; auto.
    + apply pruned_drop; auto.
  - apply pruned_drop; auto.
Qed.

Lemma pruned_app (a a' b b' : list Credential) :
  pruned self clk a a' -> pruned self clk b b' ->
  pruned self clk (a ++ b) (a' ++ b').
Proof.
  intros Ha Hb. induction Ha; simpl; [assumption | |].
  - apply pruned_keep; assumption.
  - apply pruned_drop; assumption.
Qed.

Lemma pruned_length (l l' : list Credential) :
  pruned self clk l l' -> length l' <= length l.
Proof. induction 1; simpl; lia. Qed.

Lemma pruned_elem (l l' : list Credential) (c : Credential) :
  pruned self clk l l' -> c ∈ l' -> c ∈ l.
Proof.
  induction 1 as [|c0 l l' Hk H IH|c0 l l' Hk H IH]; intros Hc.
  - assumption.
  - apply elem_of_cons in Hc as [->|Hc]; [left | right; auto].
  - right; auto.
Qed.

Lemma pruned_live (l l' : list Credential) :
  (forall c k, c ∈ l -> expired_at self (clk k) c = false) ->
  pruned self clk l l' -> l' = l.
Proof.
  intros Hl H. induction H as [|c l l' Hk H IH|c l l' [k Hk] H IH].
  - reflexivity.
  - f_equal. apply IH. intros c0 k0 Hc0. apply Hl. now right.
  - rewrite Hl in Hk; [discriminate | left].
Qed.

Lemma pruned_const (now : Z) (l l' : list Credential) :
  (forall k, clk k = now) ->
  pruned self clk l l' ->
  l' = List.filter (fun c => negb (expired_at self now c)) l.
Proof.
  intros Hc H. induction H as [|c l l' [k Hk] H IH|c l l' [k Hk] H IH]; simpl.
  - reflexivity.
  - rewrite Hc in Hk. rewrite Hk. simpl. now f_equal.
  - rewrite Hc in Hk. rewrite Hk. simpl. assumption.
Qed.

Lemma pruned_snoc_live (pre l' : list Credential) (c : Credential) :
  (forall k, expired_at self (clk k) c = false) ->
  pruned self clk (pre ++ [c]) l' ->
  exists pre', l' = pre' ++ [c] /\ pruned self clk pre pre'.
Proof.
  intros Hc. revert l'. induction pre as [|x pre IH]; simpl; intros l' H.
  - inversion H as [|c0 l0 l0' Hk H0|c0 l0 l0' [k Hk] H0]; subst.
    + inversion H0; subst. exists []. split; [reflexivity | constructor].
    + rewrite Hc in Hk. discriminate.
  - inversion H as [|c0 l0 l0' Hk H0|c0 l0 l0' Hk H0]; subst.
    + destruct (IH _ H0) as (pre' & -> & Hp).
      exists (x :: pre'). split; [reflexivity | now apply pruned_keep].
    + destruct (IH _ H0) as (pre' & -> & Hp).
      exists pre'. split; [reflexivity | now apply pruned_drop].
Qed.

Lemma pruned_keeps_live (l l' : list Credential) (c : Credential) :
  (forall k, expired_at self (clk k) c = false) ->
  pruned self clk l l' -> c ∈ l -> c ∈ l'.
Proof.
  intros Hc H. induction H as [|c0 l l' Hk H IH|c0 l l' [k Hk] H IH]; intros Hin.
  - assumption.
  - apply elem_of_cons in Hin as [->|Hin]; [left | right; auto].
  - apply elem_of_cons in Hin as [->|Hin]; [|auto].
    rewrite Hc in Hk. discriminate.
Qed.

End Pruned.

(** ** Running the primitive effects *)

Lemma tick_tick (n m : nat) (w : World) : tick n (tick m w) = tick (n + m) w.
Proof. unfold tick; simpl. f_equal. lia. Qed.

Lemma tick_0 (w : World) : tick 0 w = w.
Proof. destruct w; reflexivity. Qed.

Lemma quiet_trans (w1 w2 w3 : World) : quiet w1 w2 -> quiet w2 w3 -> quiet w1 w3.
Proof. unfold quiet. intros (a & b & c) (d & e & f). repeat split; congruence. Qed.

Lemma quiet_tick (n : nat) (w : World) : quiet w (tick n w).
Proof. repeat split. Qed.

Lemma evolves_refl (w : World) : evolves w w.
Proof. repeat split. Qed.

Lemma evolves_trans (w1 w2 w3 : World) :
  evolves w1 w2 -> evolves w2 w3 -> evolves w1 w3.
Proof.
  unfold evolves. intros (a & b & c & d) (e & f & g & h).
  repeat split; congruence.
Qed.

Lemma quiet_evolves (w w' : World) : quiet w w' -> evolves w w'.
Proof. unfold quiet, evolves. intros (a & b & c). rewrite c. repeat split; assumption. Qed.

(** ** The loops of [_expire] *)

Section Expire.

Variable self : Config.t.

(** The inner loop from index [j] down: it returns, after [j] readings
    of the clock; the first [j] entries are pruned and the others are
    untouched; [details[i]] is assigned exactly when an entry was
    removed, and then holds the array as the loop leaves it. *)
Lemma expire_while_run (i : string) (j : nat) :
  forall (l : list Credential) (details : CsrfDetails) (w : World),
    j <= length l ->
    exists pre' details',
      expire_while self i j l details w
        = (Ok (pre' ++ drop j l, details'), tick j w) /\
      pruned self (clock w) (take j l) pre' /\
      ((pre' = take j l /\ details' = details) \/
       (length pre' < j /\ details' = obj_set i (pre' ++ drop j l) details)).
Proof.
  induction j as [|j IH]; intros l details w Hj.
  - exists [], details. simpl. rewrite drop_0, tick_0.
    repeat split; [constructor | now left].
  - destruct (lookup_lt_is_Some_2 l j) as [c Hc]; [lia|].
    simpl. rewrite Hc. unfold bind, Date_now.
    change (mkWorld (clock w) (S (reads w)) (entropy w) (draws w) (luno w))
      with (tick 1 w).
    assert (Htake : take (S j) l = take j l ++ [c])
      by (now apply take_S_r).
    assert (Hdrop : drop j l = c :: drop (S j) l)
      by (now apply drop_S).
    destruct (created c <? clock w (reads w) - Config.expiry self)%Z eqn:E.
    + assert (Hlen : j <= length (delete j l)).
      { rewrite delete_take_drop, length_app, length_take, length_drop. lia. }
      destruct (IH (delete j l) (obj_set i (delete j l) details) (tick 1 w) Hlen)
        as (pre' & details' & Hrun & Hpr & Hd).
      assert (Ht : take j (delete j l) = take j l).
      { rewrite delete_take_drop, take_app_length'; [reflexivity|].
        rewrite length_take. lia. }
      assert (Hdd : drop j (delete j l) = drop (S j) l).
      { rewrite delete_take_drop, drop_app_length'; [reflexivity|].
        rewrite length_take. lia. }
      rewrite Hdd in Hrun, Hd. rewrite Ht in Hpr, Hd.
      exists pre', details'. rewrite Hrun, tick_tick.
      replace (j + 1) with (S j) by lia. split; [reflexivity|]. split.
      * rewrite Htake. rewrite <- (app_nil_r pre').
        apply pruned_app; [exact Hpr|].
        apply pruned_drop; [|constructor]. exists (reads w). exact E.
      * right. split.
        -- apply pruned_length in Hpr. rewrite length_take in Hpr. lia.
        -- destruct Hd as [[-> ->]|[_ ->]].
           ++ now rewrite <- delete_take_drop.
           ++ apply obj_set_set.
    + destruct (IH l details (tick 1 w)) as (pre' & details' & Hrun & Hpr & Hd);
        [lia|].
      exists (pre' ++ [c]), details'. rewrite Hrun, tick_tick.
      replace (j + 1) with (S j) by lia.
      rewrite Hdrop, <- app_assoc. split; [reflexivity|]. split.
      * rewrite Htake. apply pruned_app; [exact Hpr|].
        apply pruned_keep; [|constructor]. exists (reads w). exact E.
      * destruct Hd as [[-> ->]|[Hlt ->]].
        -- left. now rewrite Htake.
        -- right. split; [rewrite length_app; simpl; lia|].
           now rewrite Hdrop.
Qed.

(** The inner loop over a whole array. *)
Lemma expire_array_run (i : string) (l : list Credential)
    (details : CsrfDetails) (w : World) :
  exists l' details',
    expire_while self i (length l) l details w
      = (Ok (l', details'), tick (length l) w) /\
    pruned self (clock w) l l' /\
    ((l' = l /\ details' = details) \/
     (length l' < length l /\ details' = obj_set i l' details)).
Proof.
  destruct (expire_while_run i (length l) l details w) as
    (pre' & details' & Hrun & Hpr & Hd); [lia|].
  rewrite drop_all, app_nil_r in Hrun, Hd. rewrite firstn_all in Hpr, Hd.
  exists pre', details'. auto.
Qed.

(** The outer loop: it returns; forms outside [keys] are untouched and
    the others pruned; [details] still agrees with the session's object;
    and when nothing is expired neither object changes. *)
Lemma expire_for_in_run (keys : list string) :
  forall (d details : CsrfDetails) (w : World),
    (forall i, i ∈ keys -> is_Some (obj_get i d)) ->
    agrees details d ->
    exists d' details' n,
      expire_for_in self keys d details w = (Ok (d', details'), tick n w) /\
      (forall f, f ∉ keys -> obj_get f d' = obj_get f d) /\
      (forall f l, f ∈ keys -> obj_get f d = Some l ->
         exists l', obj_get f d' = Some l' /\ pruned self (clock w) l l') /\
      agrees details' d' /\
      (all_live self (clock w) keys d -> d' = d /\ details' = details).
Proof.
  induction keys as [|i keys IH]; intros d details w Hdom Hag.
  - exists d, details, 0. simpl. rewrite tick_0.
    repeat split; auto. intros f l Hf. inversion Hf.
  - destruct (Hdom i) as [l Hl]; [left|].
    simpl. rewrite Hl. unfold bind.
    destruct (expire_array_run i l details w) as (l1 & details1 & Hrun & Hpr & Hd).
    rewrite Hrun.
    assert (Hdom1 : forall i', i' ∈ keys -> is_Some (obj_get i' (obj_set i l1 d))).
    { intros i' Hi'. apply obj_get_set_is_Some, Hdom. now right. }
    assert (Hag1 : agrees details1 (obj_set i l1 d)).
    { destruct Hd as [[-> ->]|[_ ->]].
      - now rewrite (obj_set_same _ _ _ Hl).
      - intros f l0. destruct (String.eqb_spec i f) as [->|Hne].
        + now rewrite !obj_get_set_eq.
        + rewrite !obj_get_set_ne by assumption. apply Hag. }
    destruct (IH (obj_set i l1 d) details1 (tick (length l) w) Hdom1 Hag1)
      as (d' & details' & n & Hrun' & Hout & Hin & Hag' & Hst).
    exists d', details', (n + length l). rewrite Hrun', tick_tick.
    split; [reflexivity|]. split; [|split; [|split]].
    + intros f Hf. rewrite Hout by (intros Hc; apply Hf; now right).
      apply obj_get_set_ne. intros ->. apply Hf. left.
    + intros f l0 Hf Hl0.
      destruct (decide (f ∈ keys)) as [Hk|Hk].
      * destruct (String.eqb_spec i f) as [->|Hne].
        -- rewrite Hl in Hl0. injection Hl0 as <-.
           destruct (Hin f l1 Hk (obj_get_set_eq _ _ _)) as (l' & Hl' & Hp).
           exists l'. split; [assumption|]. eapply pruned_trans; eassumption.
        -- apply Hin; [assumption|]. now rewrite obj_get_set_ne.
      * apply elem_of_cons in Hf as [->|Hf]; [|contradiction].
        rewrite Hl in Hl0. injection Hl0 as <-.
        exists l1. split; [|assumption].
        rewrite Hout by assumption. apply obj_get_set_eq.
    + assumption.
    + intros Hlive.
      assert (l1 = l) as ->.
      { eapply pruned_live; [|exact Hpr].
        intros c k Hc. eapply Hlive; [left | exact Hl | exact Hc]. }
      destruct Hd as [[_ ->]|[Hlt _]]; [|lia].
      rewrite (obj_set_same _ _ _ Hl) in Hst. apply Hst.
      intros f l0 c k Hf. apply Hlive. now right.
Qed.

Lemma set_csrf_same (s : Session.t) (dt : Details) (d : CsrfDetails) :
  Session.details s = Some dt -> csrf dt = Some d -> set_csrf s d = s.
Proof.
  destruct s as [i k [dt0|]]; simpl; [|discriminate].
  intros [= ->]. destruct dt as [c]; simpl. intros ->. reflexivity.
Qed.

Lemma obj_get_keys {A : Type} (o : Obj A) (f : string) (v : A) :
  obj_get f o = Some v -> f ∈ obj_keys o.
Proof.
  unfold obj_keys. induction o as [|[k v0] o IH]; simpl; [discriminate|].
  destruct (String.eqb_spec k f) as [->|Hne]; intros H.
  - left.
  - right. auto.
Qed.

(** [_expire] on a session that has CSRF details. *)
Lemma expire_run (s : Session.t) (dt : Details) (d details : CsrfDetails)
    (w : World) :
  Session.details s = Some dt -> csrf dt = Some d -> agrees details d ->
  exists d' details' n,
    _expire self (Some s) details w
      = (Ok (Some (set_csrf s d'), details'), tick n w) /\
    pruned_obj self (clock w) d d' /\
    agrees details' d' /\
    (all_live self (clock w) (obj_keys d) d -> d' = d /\ details' = details).
Proof.
  intros Hs Hdt Hag. unfold _expire. rewrite Hs, Hdt. unfold bind.
  destruct (expire_for_in_run (obj_keys d) d details w) as
    (d' & details' & n & Hrun & Hout & Hin & Hag' & Hst);
    [apply obj_keys_get | assumption |].
  rewrite Hrun. exists d', details', n. split; [reflexivity|].
  split; [|split; assumption].
  intros f. destruct (obj_get f d) as [l|] eqn:Hl.
  - apply Hin; [|assumption]. eapply obj_get_keys; eassumption.
  - rewrite Hout; [assumption|].
    intros Hf. apply obj_keys_get in Hf as [v Hv]. congruence.
Qed.

Lemma agrees_nil (d : CsrfDetails) : agrees [] d.
Proof. intros f l H. discriminate. Qed.

(** [_expire] on any usable session with a fresh [details]: it returns
    a usable session of the same identity, having only read the clock,
    and each array of the session has been pruned. *)
Lemma expire_usable (session : option Session.t) (w : World) :
  usable session ->
  exists session' details' n,
    _expire self session [] w = (Ok (session', details'), tick n w) /\
    usable session' /\
    session_id session' = session_id session /\
    (session = None -> session' = None /\ details' = []) /\
    (forall f,
       match session_form session f with
       | Some l => exists l', session_form session' f = Some l' /\
                              pruned self (clock w) l l'
       | None => session_form session' f = None
       end).
Proof.
  intros Hu. destruct session as [s|].
  - simpl in Hu. destruct (Session.details s) as [dt|] eqn:Hs; [|contradiction].
    destruct (csrf dt) as [d|] eqn:Hdt.
    + destruct (expire_run s dt d [] w Hs Hdt (agrees_nil d)) as
        (d' & details' & n & Hrun & Hpr & _).
      exists (Some (set_csrf s d')), details', n.
      split; [assumption|]. unfold set_csrf. simpl. rewrite Hs. simpl.
      rewrite Hdt.
      split; [discriminate|]. split; [reflexivity|]. split; [discriminate|].
      exact Hpr.
    + exists (Some s), [], 0. unfold _expire. rewrite Hs, Hdt, tick_0.
      simpl. rewrite Hs. rewrite Hdt.
      split; [reflexivity|]. split; [discriminate|]. split; [reflexivity|].
      split; [discriminate|]. reflexivity.
  - exists None, [], 0. simpl. rewrite tick_0. repeat split.
Qed.

End Expire.

(** ** Generating credentials *)

Section Generate.

Variable self : Config.t.

Lemma lengths_ok_entropy (w w' : World) :
  entropy w' = entropy w -> lengths_ok self w -> lengths_ok self w'.
Proof. unfold lengths_ok, served. now intros ->. Qed.

Lemma lengths_ok_quiet (w w' : World) :
  quiet w w' -> lengths_ok self w -> lengths_ok self w'.
Proof. intros (_ & He & _). now apply lengths_ok_entropy. Qed.

Lemma lengths_ok_evolves (w w' : World) :
  evolves w w' -> lengths_ok self w -> lengths_ok self w'.
Proof. intros (_ & He & _). now apply lengths_ok_entropy. Qed.

Lemma randomBytes_served (size : Z) (w : World) :
  served w size ->
  randomBytes size w
  = (Ok (if (size =? 0)%Z then EmptyString else text (entropy w) (draws w) size),
     mkWorld (clock w) (reads w) (entropy w) (S (draws w)) (luno w)).
Proof.
  intros [Hr Hs]. unfold randomBytes, max_size in *. rewrite Hs.
  destruct (Z.ltb_spec size 0) as [Hlo|Hlo]; [lia|].
  destruct (Z.ltb_spec 2147483647 size) as [Hhi|Hhi]; [lia | reflexivity].
Qed.

Lemma randomBytes_ok (size : Z) (w w' : World) (t : string) :
  randomBytes size w = (Ok t, w') -> served w size /\ entropy w' = entropy w.
Proof.
  unfold randomBytes, served, max_size.
  destruct (Z.ltb_spec size 0) as [Hlo|Hlo]; simpl; [discriminate|].
  destruct (Z.ltb_spec 2147483647 size) as [Hhi|Hhi]; simpl; [discriminate|].
  destruct (refused (entropy w) size) eqn:E; [discriminate|].
  intros [= _ <-]. split; [split; [lia | reflexivity] | reflexivity].
Qed.

Lemma randomBytes_refused (size : Z) (w w' : World) (e : Exn) :
  randomBytes size w = (Throw e, w') -> ~ served w size /\ w' = w.
Proof.
  unfold randomBytes, served, max_size.
  destruct (Z.ltb_spec size 0) as [Hlo|Hlo]; simpl.
  - intros [= _ <-]. split; [lia | reflexivity].
  - destruct (Z.ltb_spec 2147483647 size) as [Hhi|Hhi]; simpl.
    + intros [= _ <-]. split; [lia | reflexivity].
    + destruct (refused (entropy w) size) eqn:E; [|discriminate].
      intros [= _ <-]. split; [intros [_ Hx]; congruence | reflexivity].
Qed.

Lemma generateCredentials_run (w : World) :
  lengths_ok self w ->
  exists c w',
    generateCredentials self w = (Ok c, w') /\
    quiet w w' /\ (exists k, created c = clock w k).
Proof.
  intros [Ht Hn]. unfold generateCredentials, bind, Date_now, ret.
  destruct (Config.useName self) eqn:Hu.
  - specialize (Hn eq_refl). rewrite (randomBytes_served _ _ Hn).
    rewrite randomBytes_served by exact Ht.
    eexists _, _. split; [reflexivity|]. split; [repeat split|]. simpl. eauto.
  - rewrite (randomBytes_served _ _ Ht).
    eexists _, _. split; [reflexivity|]. split; [repeat split|]. simpl. eauto.
Qed.

Lemma stored_for_usable (session : option Session.t) (f : string) (w : World) :
  usable session ->
  stored_for session f w = (Ok (session_read session f), w).
Proof.
  destruct session as [s|]; simpl; [|reflexivity].
  destruct (Session.details s); [reflexivity | contradiction].
Qed.

Lemma own_array_read (session : option Session.t) (f : string) :
  own_array (session_read session f) = session_form session f.
Proof.
  destruct session as [s|]; [|reflexivity]. simpl.
  destruct (Session.details s) as [dt|]; [|reflexivity].
  destruct (csrf dt) as [d|]; [|reflexivity].
  unfold obj_read. destruct (obj_get f d); [reflexivity|].
  now destruct (inherited f).
Qed.

Lemma session_read_own (session : option Session.t) (f : string)
    (l : list Credential) :
  session_form session f = Some l -> session_read session f = Some (FoundOwn l).
Proof.
  destruct session as [s|]; [|discriminate]. simpl.
  destruct (Session.details s) as [dt|]; [|discriminate].
  destruct (csrf dt) as [d|]; [|discriminate].
  apply obj_read_own.
Qed.

Lemma session_read_ordinary (session : option Session.t) (f : string) :
  ordinary f -> session_read session f = FoundOwn <$> session_form session f.
Proof.
  intros Hf. destruct session as [s|]; [|reflexivity]. simpl.
  destruct (Session.details s) as [dt|]; [|reflexivity].
  destruct (csrf dt) as [d|]; [|reflexivity].
  now apply obj_read_ordinary.
Qed.

Lemma ordinary_reads (session : option Session.t) (f : string) :
  ordinary f -> ~ reads_inherited session f.
Proof.
  intros Hf [p Hp]. rewrite session_read_ordinary in Hp by assumption.
  destruct (session_form session f); discriminate.
Qed.

(** What is read is the own array, when it is not an inherited value. *)
Lemma session_read_array (session : option Session.t) (f : string) :
  ~ reads_inherited session f ->
  session_read session f = FoundOwn <$> session_form session f.
Proof.
  intros Hn. rewrite <- own_array_read.
  destruct (session_read session f) as [[l|p]|] eqn:E; try reflexivity.
  exfalso. apply Hn. now exists p.
Qed.

Lemma write_back_form (session : option Session.t) (f f' : string)
    (l0 arr : list Credential) :
  session_form session f = Some l0 ->
  session_form (write_back session f arr) f'
    = (if String.eqb f f' then Some arr else session_form session f') /\
  usable (write_back session f arr) /\
  session_id (write_back session f arr) = session_id session.
Proof.
  destruct session as [s|]; simpl; [|discriminate].
  destruct (Session.details s) as [dt|] eqn:Hs; [|discriminate].
  destruct (csrf dt) as [d|] eqn:Hd; [|discriminate].
  intros Hl. unfold set_csrf. rewrite Hs. simpl.
  split; [|split; [discriminate | reflexivity]].
  destruct (String.eqb_spec f f') as [->|Hne].
  - apply obj_get_set_eq.
  - now apply obj_get_set_ne.
Qed.

Lemma write_back_read (session : option Session.t) (f f' : string)
    (l0 arr : list Credential) :
  session_form session f = Some l0 ->
  session_read (write_back session f arr) f'
    = (if String.eqb f f' then Some (FoundOwn arr) else session_read session f').
Proof.
  destruct session as [s|]; simpl; [|discriminate].
  destruct (Session.details s) as [dt|] eqn:Hs; [|discriminate].
  destruct (csrf dt) as [d|] eqn:Hd; [|discriminate].
  intros Hl. unfold set_csrf. rewrite Hs. simpl. unfold obj_read.
  destruct (String.eqb_spec f f') as [->|Hne].
  - now rewrite obj_get_set_eq.
  - now rewrite obj_get_set_ne.
Qed.

(** The session after one turn of the loop of [generate] for form [f],
    in which [arr] is the array the turn leaves. *)
Lemma turn_session (session : option Session.t) (f : string)
    (arr : list Credential) :
  usable session ->
  let session1 := match session_form session f with
                  | Some _ => write_back session f arr
                  | None => session
                  end in
  usable session1 /\
  session_id session1 = session_id session /\
  (forall g,
     session_form session1 g
       = if String.eqb f g
         then match session_form session f with
              | Some _ => Some arr
              | None => None
              end
         else session_form session g) /\
  (forall g, reads_inherited session1 g <-> reads_inherited session g).
Proof.
  intros Hu. simpl. destruct (session_form session f) as [l0|] eqn:E.
  - destruct (write_back_form session f f l0 arr E) as (_ & Hu1 & Hid).
    split; [exact Hu1|]. split; [exact Hid|]. split.
    + intros g. now destruct (write_back_form session f g l0 arr E) as (-> & _).
    + intros g. unfold reads_inherited.
      rewrite (write_back_read session f g l0 arr E).
      destruct (String.eqb_spec f g) as [<-|]; [|reflexivity].
      rewrite (session_read_own _ _ _ E).
      split; intros [p Hp]; discriminate.
  - split; [exact Hu|]. split; [reflexivity|]. split; [|reflexivity].
    intros g. destruct (String.eqb_spec f g) as [<-|]; [exact E | reflexivity].
Qed.

(** A turn of the loop for a form that does not read as an inherited
    value. *)
Lemma generate_for_cons (f : string) (rest : list string)
    (session : option Session.t) (resp : Obj Credential)
    (details : CsrfDetails) (w : World) :
  usable session -> ~ reads_inherited session f ->
  generate_for self (f :: rest) session resp details w
  = (let* creds := generateCredentials self in
     generate_for self rest
       (match session_form session f with
        | Some _ =>
            write_back session f
              (evict self (default [] (session_form session f)) ++ [creds])
        | None => session
        end)
       (obj_assign f creds resp)
       (obj_assign f (evict self (default [] (session_form session f)) ++ [creds])
          details)) w.
Proof.
  intros Hu Hn. simpl. unfold bind at 1. rewrite stored_for_usable by assumption.
  rewrite (session_read_array _ _ Hn).
  destruct (session_form session f); reflexivity.
Qed.

(** A turn of the loop for a form that reads as an inherited value
    throws. *)
Lemma generate_for_inherited (f : string) (rest : list string)
    (session : option Session.t) (resp : Obj Credential)
    (details : CsrfDetails) (w : World) :
  usable session -> reads_inherited session f ->
  exists e w',
    generate_for self (f :: rest) session resp details w = (Throw e, w').
Proof.
  intros Hu [p Hp]. simpl. unfold bind at 1.
  rewrite stored_for_usable by assumption. rewrite Hp.
  unfold generate_inherited.
  match goal with |- context [if ?b then _ else _] => destruct b end.
  - eexists _, _. reflexivity.
  - unfold bind. destruct (generateCredentials self w) as [[c|e] w1];
      eexists _, _; reflexivity.
Qed.

(** The loop over the requested forms returns, without reaching the
    store, when no requested form reads as an inherited value; forms
    that are not requested are left alone. *)
Lemma generate_for_run (forms : list string) :
  forall (session : option Session.t) (resp : Obj Credential)
         (details : CsrfDetails) (w : World),
    usable session -> lengths_ok self w ->
    (forall f, f ∈ forms -> ~ reads_inherited session f) ->
    exists session' resp' details' w',
      generate_for self forms session resp details w
        = (Ok (session', resp', details'), w') /\
      quiet w w' /\ usable session' /\
      session_id session' = session_id session /\
      (forall f, f ∉ forms ->
         obj_get f details' = obj_get f details /\
         obj_get f resp' = obj_get f resp /\
         session_form session' f = session_form session f) /\
      (obj_get "__proto__" resp = None ->
       answered_last resp details -> answered_last resp' details').
Proof.
  induction forms as [|f rest IH]; intros session resp details w Hu Hl Hforms.
  - exists session, resp, details, w. simpl.
    repeat split; auto.
  - rewrite generate_for_cons by (auto; apply Hforms; left).
    unfold bind at 1.
    destruct (generateCredentials_run w Hl) as (c & w1 & Hc & Hq & _).
    rewrite Hc.
    set (arr := evict self (default [] (session_form session f)) ++ [c]).
    destruct (turn_session session f arr Hu) as (Hu1 & Hi1 & Hf1 & Hr1).
    set (session1 := match session_form session f with
                     | Some _ => write_back session f arr
                     | None => session
                     end) in *.
    destruct (IH session1 (obj_assign f c resp) (obj_assign f arr details) w1 Hu1
                (lengths_ok_quiet _ _ Hq Hl))
      as (session' & resp' & details' & w' & Hrun & Hq' & Hu' & Hi' & Hout & Hans).
    { intros g Hg. rewrite Hr1. apply Hforms. now right. }
    exists session', resp', details', w'. split; [exact Hrun|].
    split; [eapply quiet_trans; eassumption|]. split; [assumption|].
    split; [congruence|]. split.
    + intros f' Hf'.
      assert (Hne : f <> f') by (intros ->; apply Hf'; left).
      destruct (Hout f') as (Hd & Hr & Hs); [intros ?; apply Hf'; now right|].
      rewrite Hd, Hr, Hs, Hf1, !obj_get_assign_ne by assumption.
      apply String.eqb_neq in Hne. now rewrite Hne.
    + intros Hp Ha. apply Hans.
      * destruct (String.eqb_spec f "__proto__") as [->|Hne];
          [now rewrite obj_assign_proto | now rewrite obj_get_assign_ne].
      * intros f' c'. destruct (String.eqb_spec f f') as [->|Hne].
        -- destruct (String.eqb_spec f' "__proto__") as [->|Hproto].
           ++ rewrite obj_assign_proto by assumption. rewrite Hp. discriminate.
           ++ rewrite !obj_get_assign_eq by assumption.
              intros [= <-]. subst arr. eauto.
        -- rewrite !obj_get_assign_ne by assumption. apply Ha.
Qed.

(** When [f] is requested once, the array persisted for [f] is the one
    the session had, shifted if full, with the new credential pushed. *)
Lemma generate_for_once (forms : list string) (f : string) :
  forall (session : option Session.t) (resp : Obj Credential)
         (details : CsrfDetails) (w : World),
    usable session -> lengths_ok self w ->
    (forall g, g ∈ forms -> ~ reads_inherited session g) ->
    f <> "__proto__" ->
    count_occ string_dec forms f = 1 ->
    exists session' resp' details' w' c,
      generate_for self forms session resp details w
        = (Ok (session', resp', details'), w') /\
      obj_get f resp' = Some c /\
      (exists k, created c = clock w k) /\
      obj_get f details'
        = Some (evict self (default [] (session_form session f)) ++ [c]).
Proof.
  induction forms as [|f0 rest IH];
    intros session resp details w Hu Hl Hforms Hproto Hcount.
  - discriminate.
  - simpl in Hcount.
    assert (Hrun0 := generate_for_cons f0 rest session resp details w Hu
                       (Hforms f0 ltac:(left))).
    unfold bind at 1 in Hrun0.
    destruct (generateCredentials_run w Hl) as (c & w1 & Hc & Hq & Hk).
    rewrite Hc in Hrun0. rewrite Hrun0. clear Hrun0.
    set (arr := evict self (default [] (session_form session f0)) ++ [c]).
    destruct (turn_session session f0 arr Hu) as (Hu1 & _ & Hf1 & Hr1).
    set (session1 := match session_form session f0 with
                     | Some _ => write_back session f0 arr
                     | None => session
                     end) in *.
    assert (Hforms1 : forall g, g ∈ rest -> ~ reads_inherited session1 g).
    { intros g Hg. rewrite Hr1. apply Hforms. now right. }
    pose proof (lengths_ok_quiet _ _ Hq Hl) as Hl1.
    destruct (string_dec f0 f) as [->|Hne].
    + assert (Hnot : f ∉ rest).
      { intros Hin. apply list_elem_of_In in Hin.
        apply (count_occ_In string_dec) in Hin. lia. }
      destruct (generate_for_run rest session1 (obj_assign f c resp)
                  (obj_assign f arr details) w1 Hu1 Hl1 Hforms1)
        as (session' & resp' & details' & w' & Hrun & _ & _ & _ & Hout & _).
      destruct (Hout f Hnot) as (Hd & Hr & _).
      exists session', resp', details', w', c. split; [exact Hrun|].
      rewrite Hd, Hr, !obj_get_assign_eq by assumption. split; [reflexivity|].
      split; [assumption | reflexivity].
    + destruct (IH session1 (obj_assign f0 c resp) (obj_assign f0 arr details) w1
                  Hu1 Hl1 Hforms1 Hproto Hcount)
        as (session' & resp' & details' & w' & c' & Hrun & Hr & [k Hk'] & Hd).
      exists session', resp', details', w', c'. split; [exact Hrun|].
      split; [assumption|]. split.
      * destruct Hq as (Hclk & _). rewrite Hclk in Hk'. eauto.
      * rewrite Hd, Hf1. apply String.eqb_neq in Hne. now rewrite Hne.
Qed.

End Generate.

(** ** The store and [save] *)

Lemma at_path_patch (deep : bool) (path : string) (d : Details) (s : Session.t) :
  at_path path (patch_session deep d s) = at_path path s.
Proof. reflexivity. Qed.

Lemma patch_sessions_find (deep : bool) (path : string) (d : Details)
    (ss ss' : list Session.t) :
  patch_sessions deep path d ss = Some ss' ->
  exists r, find (at_path path) ss = Some r /\
            find (at_path path) ss' = Some (patch_session deep d r).
Proof.
  revert ss'. induction ss as [|s ss IH]; simpl; intros ss' H; [discriminate|].
  destruct (at_path path s) eqn:E.
  - injection H as <-. exists s. simpl. rewrite at_path_patch, E. auto.
  - destruct (patch_sessions deep path d ss) as [ss''|]; [|discriminate].
    injection H as <-. simpl. rewrite E. apply IH. reflexivity.
Qed.

Lemma patch_sessions_found (deep : bool) (path : string) (d : Details)
    (ss : list Session.t) (r : Session.t) :
  find (at_path path) ss = Some r ->
  exists ss', patch_sessions deep path d ss = Some ss'.
Proof.
  induction ss as [|s ss IH]; simpl; [discriminate|].
  destruct (at_path path s); [eauto|].
  intros H. destruct (IH H) as [ss' ->]. eauto.
Qed.

Lemma patch_csrf_get (deep : bool) (old : option CsrfDetails)
    (d : CsrfDetails) (f : string) (l : list Credential) :
  obj_get f d = Some l -> obj_get f (patch_csrf deep old d) = Some l.
Proof.
  unfold patch_csrf. destruct deep; [|auto].
  induction d as [|[k v] d IH]; simpl; [discriminate|].
  destruct (String.eqb_spec k f) as [->|Hne].
  - intros [= ->]. apply obj_get_set_eq.
  - intros H. rewrite obj_get_set_ne by assumption. auto.
Qed.

Lemma find_at_path (path : string) (ss : list Session.t) (r : Session.t) :
  find (at_path path) ss = Some r -> session_path r = Some path.
Proof.
  intros H. apply find_some in H as [_ H]. unfold at_path in H.
  destruct (session_path r) as [p|]; [|discriminate].
  apply String.eqb_eq in H. now subst.
Qed.

Lemma session_path_truthy (s : Session.t) (i : string) :
  session_path s = Some ("/sessions/" +:+ i) -> Session.id s = Some i.
Proof.
  unfold session_path. destruct (Session.id s) as [j|]; [|discriminate].
  intros H. injection H as H.
  change (EmptyString +:+ j) with j in H.
  change (EmptyString +:+ i) with i in H. now subst.
Qed.

(** [save] always returns, after exactly one request to the store that
    carries [details]. *)
Lemma save_one_request (session : option Session.t) (details : CsrfDetails)
    (w : World) :
  exists cb r w',
    save session details w = (Ok cb, w') /\
    requests (luno w') = requests (luno w) ++ [r] /\
    sent r = Some details /\ evolves w w'.
Proof.
  unfold save.
  assert (Hpost : exists cb r w',
    (let* r := luno_post "/sessions"
                 {| body_details := {| csrf := Some details |} |} in
     match r with
     | inl err => ret (SaveErr err)
     | inr sess => ret (Saved sess true)
     end) w = (Ok cb, w') /\
    requests (luno w') = requests (luno w) ++ [r] /\
    sent r = Some details /\ evolves w w').
  { unfold bind, luno_post, ret.
    destruct (outage (luno w) (length (requests (luno w))));
      eexists _, _, _; (split; [reflexivity|]); simpl; repeat split. }
  destruct session as [s|]; [|exact Hpost].
  destruct (negb (truthy (Session.id s))); [exact Hpost|].
  unfold bind, luno_patch, ret.
  destruct (outage (luno w) (length (requests (luno w)))).
  - eexists _, _, _; (split; [reflexivity|]); simpl; repeat split.
  - destruct (patch_sessions _ _ _ _);
      eexists _, _, _; (split; [reflexivity|]); simpl; repeat split.
Qed.

(** After a successful [save] the store holds, under the identity of the
    session handed to the callback, every array of [details]. *)
Lemma save_stored (session : option Session.t) (details : CsrfDetails)
    (w w' : World) (sess : Session.t) (created : bool) :
  save session details w = (Ok (Saved sess created), w') ->
  exists s1 dt d1,
    fetch (luno w') sess = Some s1 /\
    truthy (Session.id s1) = true /\
    session_path s1 = session_path sess /\
    Session.details s1 = Some dt /\ csrf dt = Some d1 /\
    (forall f l, obj_get f details = Some l -> obj_get f d1 = Some l).
Proof.
  unfold save.
  assert (Hpost :
    (let* r := luno_post "/sessions"
                 {| body_details := {| csrf := Some details |} |} in
     match r with
     | inl err => ret (SaveErr err)
     | inr sess => ret (Saved sess true)
     end) w = (Ok (Saved sess created), w') ->
    exists s1 dt d1,
      fetch (luno w') sess = Some s1 /\
      truthy (Session.id s1) = true /\
      session_path s1 = session_path sess /\
      Session.details s1 = Some dt /\ csrf dt = Some d1 /\
      (forall f l, obj_get f details = Some l -> obj_get f d1 = Some l)).
  { unfold bind, luno_post, ret.
    destruct (outage (luno w) (length (requests (luno w)))); [discriminate|].
    intros [= <- <- <-].
    eexists _, _, details. unfold fetch, luno_get, at_path, session_path. simpl.
    rewrite String.eqb_refl. repeat split; auto. }
  destruct session as [s|]; [|exact Hpost].
  destruct (truthy (Session.id s)) eqn:Ht; simpl; [|exact Hpost].
  clear Hpost.
  destruct (Session.id s) as [i|] eqn:Hi; [|discriminate].
  unfold bind, luno_patch, ret. simpl.
  destruct (outage (luno w) (length (requests (luno w)))); [discriminate|].
  destruct (patch_sessions _ _ _ _) as [ss|] eqn:Hp; [|discriminate].
  intros H. injection H as <- <- <-.
  apply patch_sessions_find in Hp as (r & Hr & Hr').
  pose proof (find_at_path _ _ _ Hr) as Hpath.
  pose proof (session_path_truthy _ _ Hpath) as Hid.
  exists (patch_session (deep_patch (luno w))
            {| csrf := Some details |} r),
         {| csrf := Some (patch_csrf (deep_patch (luno w))
                            (match Session.details r with
                             | Some o => csrf o
                             | None => None
                             end) details) |},
         (patch_csrf (deep_patch (luno w))
            (match Session.details r with
             | Some o => csrf o
             | None => None
             end) details).
  unfold fetch, luno_get, session_path. rewrite Hi. simpl. rewrite Hid.
  repeat split; try assumption.
  intros f l. apply patch_csrf_get.
Qed.

Lemma save_patch_ok (s r : Session.t) (details : CsrfDetails) (w : World) :
  truthy (Session.id s) = true ->
  fetch (luno w) s = Some r ->
  outage (luno w) (length (requests (luno w))) = false ->
  exists w', save (Some s) details w = (Ok (Saved s false), w') /\ evolves w w'.
Proof.
  intros Ht Hf Ho. unfold save. rewrite Ht. simpl.
  unfold fetch, session_path, luno_get in Hf.
  destruct (Session.id s) as [i|]; [|discriminate]. simpl.
  unfold bind, luno_patch, ret. rewrite Ho. simpl.
  destruct (patch_sessions_found (deep_patch (luno w)) _
              {| csrf := Some details |} _ _ Hf) as [ss' Hss].
  rewrite Hss. eexists. split; [reflexivity|]. repeat split.
Qed.

Lemma save_post_ok (session : option Session.t) (details : CsrfDetails)
    (w : World) :
  truthy (session_id session) = false ->
  outage (luno w) (length (requests (luno w))) = false ->
  exists sess w',
    save session details w = (Ok (Saved sess true), w') /\ evolves w w'.
Proof.
  intros Ht Ho. unfold save.
  assert (Hpost : exists sess w',
    (let* r := luno_post "/sessions"
                 {| body_details := {| csrf := Some details |} |} in
     match r with
     | inl err => ret (SaveErr err)
     | inr sess => ret (Saved sess true)
     end) w = (Ok (Saved sess true), w') /\ evolves w w').
  { unfold bind, luno_post, ret. rewrite Ho.
    eexists _, _. split; [reflexivity|]. repeat split. }
  destruct session as [s|]; [|exact Hpost].
  simpl in Ht. rewrite Ht. exact Hpost.
Qed.

(** ** Validation *)

Section Validate.

Variable self : Config.t.
Variable scmp : Value -> Value -> bool.

(** With a body present the scan never throws and leaves the world as
    it is. *)
Lemma validate_for_present (b : Body) (rest : list Credential) :
  forall (i : nat) (w : World),
    validate_for self scmp (Some b) i rest w
      = (Ok (first_match self scmp b i rest), w).
Proof.
  induction rest as [|c rest IH]; intros i w; simpl; [reflexivity|].
  unfold bind, ret. simpl. fold (matches self scmp b c).
  destruct (matches self scmp b c); simpl; [reflexivity | apply IH].
Qed.


Lemma first_match_none (b : Body) (rest : list Credential) (i : nat) :
  (forall c, c ∈ rest -> matches self scmp b c = false) ->
  first_match self scmp b i rest = None.
Proof.
  revert i. induction rest as [|c rest IH]; intros i H; simpl; [reflexivity|].
  rewrite H by left. apply IH. intros c' Hc'. apply H. now right.
Qed.

Lemma first_match_some (b : Body) (rest : list Credential) (c : Credential) :
  forall i, c ∈ rest -> matches self scmp b c = true ->
  exists k, first_match self scmp b i rest = Some k.
Proof.
  induction rest as [|c0 rest IH]; intros i Hin Hm; [inversion Hin|].
  simpl. destruct (matches self scmp b c0) eqn:E; [eauto|].
  apply elem_of_cons in Hin as [->|Hin]; [congruence|]. now apply IH.
Qed.

Lemma first_match_snoc (b : Body) (pre : list Credential) (c : Credential) :
  forall i,
    (forall c', c' ∈ pre -> matches self scmp b c' = false) ->
    matches self scmp b c = true ->
    first_match self scmp b i (pre ++ [c]) = Some (i + length pre).
Proof.
  induction pre as [|c0 pre IH]; intros i Hpre Hm; simpl.
  - rewrite Hm. f_equal. lia.
  - rewrite Hpre by left. rewrite IH; [f_equal; lia | | assumption].
    intros c' Hc'. apply Hpre. now right.
Qed.

(** [validate] on a session whose CSRF object gives something for
    [form]: [_expire] returns, and [csrf] is then what [details] gives
    for [form], or else what was read from the session. *)
Lemma validate_read (form : string) (s : Session.t) (dt : Details)
    (d : CsrfDetails) (csrf0 : Found (list Credential)) (body : option Body)
    (w : World) :
  Session.details s = Some dt -> csrf dt = Some d ->
  obj_read form d = Some csrf0 ->
  exists d' details' n,
    _expire self (Some s) [] w
      = (Ok (Some (set_csrf s d'), details'), tick n w) /\
    pruned_obj self (clock w) d d' /\
    (all_live self (clock w) (obj_keys d) d -> d' = d /\ details' = []) /\
    agrees details' d' /\
    validate self scmp form (Some s) body w
      = match
          match obj_read form details' with
          | Some found => found
          | None =>
              match csrf0 with
              | FoundOwn l0 => FoundOwn (default l0 (obj_get form d'))
              | FoundInherited p => FoundInherited p
              end
          end
        with
        | FoundOwn l =>
            let* hit := validate_for self scmp body 0 l in
            match hit with
            | None => ret (false, Validated false None, Some (set_csrf s d'))
            | Some i =>
                validate_matched self form (Some (set_csrf s d')) details' l i
            end
        | FoundInherited p =>
            let* _ := validate_inherited self body p in
            ret (false, Validated false None, Some (set_csrf s d'))
        end (tick n w).
Proof.
  intros Hs Hdt Hread.
  destruct (expire_run self s dt d [] w Hs Hdt (agrees_nil d)) as
    (d' & details' & n & Hrun & Hpr & Hag & Hst).
  exists d', details', n.
  split; [assumption|]. split; [assumption|]. split; [assumption|].
  split; [assumption|].
  assert (Hsr : session_read (Some s) form = Some csrf0)
    by (simpl; now rewrite Hs, Hdt).
  assert (Hsf : session_form (Some (set_csrf s d')) form = obj_get form d')
    by (unfold set_csrf; rewrite Hs; reflexivity).
  unfold validate. rewrite Hsr. unfold bind at 1. rewrite Hrun, Hsf.
  reflexivity.
Qed.

(** [validate] on a session holding an array for a form whose name
    [Object.prototype] does not define: the scan is over the pruned array
    of the form. *)
Lemma validate_run (form : string) (s : Session.t) (dt : Details)
    (d : CsrfDetails) (l0 : list Credential) (body : option Body) (w : World) :
  ordinary form ->
  Session.details s = Some dt -> csrf dt = Some d ->
  obj_get form d = Some l0 ->
  exists d' details' n l',
    _expire self (Some s) [] w
      = (Ok (Some (set_csrf s d'), details'), tick n w) /\
    pruned_obj self (clock w) d d' /\
    (all_live self (clock w) (obj_keys d) d -> d' = d /\ details' = []) /\
    obj_get form d' = Some l' /\ pruned self (clock w) l0 l' /\
    validate self scmp form (Some s) body w
      = (let* hit := validate_for self scmp body 0 l' in
         match hit with
         | None => ret (false, Validated false None, Some (set_csrf s d'))
         | Some i =>
             validate_matched self form (Some (set_csrf s d')) details' l' i
         end) (tick n w).
Proof.
  intros Hord Hs Hdt Hl0.
  destruct (validate_read form s dt d (FoundOwn l0) body w Hs Hdt
              (obj_read_own _ _ _ Hl0))
    as (d' & details' & n & Hrun & Hpr & Hst & Hag & HV).
  pose proof (Hpr form) as Hform. rewrite Hl0 in Hform.
  destruct Hform as (l' & Hl' & Hpl).
  exists d', details', n, l'.
  split; [assumption|]. split; [assumption|]. split; [assumption|].
  split; [assumption|]. split; [assumption|].
  rewrite HV, (obj_read_ordinary form details' Hord), Hl'.
  destruct (obj_get form details') as [l|] eqn:E; simpl; [|reflexivity].
  apply Hag in E. rewrite Hl' in E. now injection E as <-.
Qed.

End Validate.

(** ** [generate] as a whole *)

Section GenerateRun.

Variable self : Config.t.

(** Pruning does not change which forms read as inherited values. *)
Lemma expire_reads (session sA : option Session.t) (dA : CsrfDetails)
    (w w' : World) :
  _expire self session [] w = (Ok (sA, dA), w') ->
  forall f, reads_inherited sA f <-> reads_inherited session f.
Proof.
  intros HA f. destruct session as [s|]; [|now injection HA as <- _ _].
  destruct (Session.details s) as [dt|] eqn:Hs;
    [|unfold _expire in HA; rewrite Hs in HA; discriminate].
  destruct (csrf dt) as [d|] eqn:Hdt;
    [|unfold _expire in HA; rewrite Hs, Hdt in HA; now injection HA as <- _ _].
  destruct (expire_run self s dt d [] w Hs Hdt (agrees_nil d))
    as (d' & details' & n & Hrun & Hpr & _).
  rewrite Hrun in HA. injection HA as <- _ _.
  unfold reads_inherited. simpl. unfold set_csrf. rewrite Hs, Hdt. simpl.
  unfold obj_read. specialize (Hpr f).
  destruct (obj_get f d) as [l|].
  - destruct Hpr as (l' & -> & _). split; intros [p Hp]; discriminate.
  - rewrite Hpr. reflexivity.
Qed.

(** On a usable session, with lengths the random source serves and no
    requested form that reads as an inherited value, [generate] runs its
    three steps to the end: pruning, the loop over the forms, and one
    [save]. *)
Lemma generate_run (session : option Session.t) (forms : Forms) (w : World) :
  usable session -> lengths_ok self w ->
  (forall f, f ∈ forms_array forms -> ~ reads_inherited session f) ->
  exists sA dA n sB resp dB wB cb w',
    _expire self session [] w = (Ok (sA, dA), tick n w) /\
    usable sA /\ session_id sA = session_id session /\
    generate_for self (forms_array forms) sA [] dA (tick n w)
      = (Ok (sB, resp, dB), wB) /\
    quiet w wB /\ session_id sB = session_id session /\
    save sB dB wB = (Ok cb, w') /\
    generate self session forms w
      = (Ok (match cb with
             | SaveErr err => GenerateErr err
             | Saved sess created => Generated resp sess created
             end), w').
Proof.
  intros Hu Hl Hforms.
  destruct (expire_usable self session w Hu) as (sA & dA & n & HA & HuA & HiA & _).
  destruct (generate_for_run self (forms_array forms) sA [] dA (tick n w) HuA
              (lengths_ok_quiet self _ _ (quiet_tick n w) Hl))
    as (sB & resp & dB & wB & HB & HqB & HuB & HiB & _).
  { intros f Hf. rewrite (expire_reads _ _ _ _ _ HA). now apply Hforms. }
  destruct (save_one_request sB dB wB) as (cb & r & w' & HS & _).
  exists sA, dA, n, sB, resp, dB, wB, cb, w'.
  split; [assumption|]. split; [assumption|]. split; [assumption|].
  split; [assumption|].
  split; [eapply quiet_trans; [apply quiet_tick | eassumption]|].
  split; [congruence|]. split; [assumption|].
  unfold generate, bind. rewrite HA, HB, HS. destruct cb; reflexivity.
Qed.

End GenerateRun.

(** ** What never reaches the store *)

Lemma silent_ret {A : Type} (a : A) : silent (ret a).
Proof. intros w. reflexivity. Qed.

Lemma silent_throw {A : Type} (e : Exn) : silent (@throw A e).
Proof. intros w. reflexivity. Qed.

Lemma silent_bind {A B : Type} (m : M A) (k : A -> M B) :
  silent m -> (forall a, silent (k a)) -> silent (bind m k).
Proof.
  intros Hm Hk w. unfold bind. specialize (Hm w).
  destruct (m w) as [[a|e] w1]; simpl in *.
  - rewrite Hk. exact Hm.
  - exact Hm.
Qed.

Lemma silent_Date_now : silent Date_now.
Proof. intros w. reflexivity. Qed.

Lemma silent_randomBytes (size : Z) : silent (randomBytes size).
Proof.
  intros w. unfold randomBytes.
  destruct ((size <? 0) || (max_size <? size))%Z; [reflexivity|].
  now destruct (refused (entropy w) size).
Qed.

Section Silent.

Variable self : Config.t.

Lemma silent_generateCredentials : silent (generateCredentials self).
Proof.
  unfold generateCredentials.
  apply silent_bind.
  - destruct (Config.useName self); [|apply silent_ret].
    apply silent_bind; [apply silent_randomBytes | intros; apply silent_ret].
  - intros nm. apply silent_bind; [apply silent_randomBytes|].
    intros tk. apply silent_bind; [apply silent_Date_now|].
    intros now. apply silent_ret.
Qed.

Lemma silent_expire_while (i : string) (j : nat) :
  forall l details, silent (expire_while self i j l details).
Proof.
  induction j as [|j IH]; intros l details; simpl; [apply silent_ret|].
  destruct (l !! j) as [c|]; [|apply silent_throw].
  apply silent_bind; [apply silent_Date_now|].
  intros now. destruct (created c <? now - Config.expiry self)%Z; apply IH.
Qed.

Lemma silent_expire_for_in (keys : list string) :
  forall d details, silent (expire_for_in self keys d details).
Proof.
  induction keys as [|i keys IH]; intros d details; simpl; [apply silent_ret|].
  destruct (obj_get i d) as [l|]; [|apply silent_throw].
  apply silent_bind; [apply silent_expire_while|].
  intros [l' details']. apply IH.
Qed.

Lemma silent_expire (session : option Session.t) (details : CsrfDetails) :
  silent (_expire self session details).
Proof.
  unfold _expire. destruct session as [s|]; [|apply silent_ret].
  destruct (Session.details s) as [dt|]; [|apply silent_throw].
  destruct (csrf dt) as [d|]; [|apply silent_ret].
  apply silent_bind; [apply silent_expire_for_in|].
  intros [d' details']. apply silent_ret.
Qed.

Lemma silent_stored_for (session : option Session.t) (f : string) :
  silent (stored_for session f).
Proof.
  unfold stored_for. destruct session as [s|]; [|apply silent_ret].
  destruct (Session.details s); [apply silent_ret | apply silent_throw].
Qed.

Lemma silent_generate_for (forms : list string) :
  forall session resp details,
    silent (generate_for self forms session resp details).
Proof.
  induction forms as [|f rest IH]; intros session resp details; simpl;
    [apply silent_ret|].
  apply silent_bind; [apply silent_stored_for|].
  assert (Hturn : forall found : option (Found (list Credential)),
            silent
              (let* creds := generateCredentials self in
               generate_for self rest
                 (match own_array found with
                  | Some _ =>
                      write_back session f
                        ((if (Config.maxTokens self
                                <=? Z.of_nat (length (default [] (own_array found))))%Z
                          then tail (default [] (own_array found))
                          else default [] (own_array found)) ++ [creds])
                  | None => session
                  end)
                 (obj_assign f creds resp)
                 (obj_assign f
                    ((if (Config.maxTokens self
                            <=? Z.of_nat (length (default [] (own_array found))))%Z
                      then tail (default [] (own_array found))
                      else default [] (own_array found)) ++ [creds])
                    details))).
  { intros found. apply silent_bind; [apply silent_generateCredentials|].
    intros creds. apply IH. }
  intros [[l|p]|]; [apply Hturn | | apply Hturn].
  unfold generate_inherited.
  match goal with |- context [if ?b then _ else _] => destruct b end;
    [apply silent_throw|].
  apply silent_bind; [apply silent_generateCredentials|].
  intros creds. apply silent_throw.
Qed.

End Silent.

(** ** Outcomes of [validate] *)

Section Outcomes.

Variable self : Config.t.
Variable scmp : Value -> Value -> bool.

(** Once the comparison holds, [validate] returns [true] (or, in no
    case, [false]). *)
Lemma validate_matched_true (form : string) (session : option Session.t)
    (details : CsrfDetails) (l : list Credential) (i : nat) (w : World) :
  exists cb s' w',
    validate_matched self form session details l i w = (Ok (true, cb, s'), w') /\
    evolves w w'.
Proof.
  unfold validate_matched. destruct (negb (Config.expireAfterUse self)).
  - eexists _, _, _. split; [reflexivity | apply evolves_refl].
  - unfold bind.
    destruct (save_one_request (write_back session form (delete i l))
                (obj_set form (delete i l) details) w)
      as (cb & r & w' & HS & _ & _ & He).
    rewrite HS. destruct cb; eexists _, _, _; split; try reflexivity; assumption.
Qed.

Lemma matches_submitted (b : Body) (c : Credential) :
  submitted self b c -> accepts_equal scmp -> matches self scmp b c = true.
Proof.
  unfold submitted, matches, body_read. intros Hb H.
  rewrite (obj_read_own _ _ _ Hb). apply H.
Qed.

End Outcomes.

(** ** A run of [generate] that returned *)

Section Returned.

Variable self : Config.t.

Lemma evict_length (l : list Credential) (c : Credential) :
  (Z.of_nat (length l) <= Config.maxTokens self)%Z ->
  (1 <= Config.maxTokens self)%Z ->
  length (evict self l ++ [c])
    = Nat.min (length l + 1) (Z.to_nat (Config.maxTokens self)).
Proof.
  intros Hle Hpos. unfold evict. rewrite length_app. simpl.
  destruct (Z.leb_spec (Config.maxTokens self) (Z.of_nat (length l))).
  - destruct l as [|x l].
    + change (length (@nil Credential)) with 0 in *. lia.
    + change (tail (x :: l)) with l.
      change (length (x :: l)) with (S (length l)) in *. lia.
  - lia.
Qed.

Lemma evict_within (l : list Credential) (c : Credential) :
  (1 <= Config.maxTokens self)%Z ->
  (Z.of_nat (length l) <= Config.maxTokens self)%Z ->
  (Z.of_nat (length (evict self l ++ [c])) <= Config.maxTokens self)%Z.
Proof.
  intros Hpos Hle. rewrite (evict_length l c Hle Hpos). lia.
Qed.

Lemma reads_inherited_dec (session : option Session.t) (f : string) :
  reads_inherited session f \/ ~ reads_inherited session f.
Proof.
  unfold reads_inherited.
  destruct (session_read session f) as [[l|p]|]; [right | left | right];
    eauto; intros [q Hq]; discriminate.
Qed.

Lemma generateCredentials_lengths (w w1 : World) (c : Credential) :
  generateCredentials self w = (Ok c, w1) -> lengths_ok self w.
Proof.
  unfold generateCredentials, bind, ret, lengths_ok.
  destruct (Config.useName self).
  - destruct (randomBytes (Config.nameLength self) w) as [[nm|e] wa] eqn:Hn;
      [|discriminate].
    destruct (randomBytes_ok _ _ _ _ Hn) as [Hsn Hen].
    destruct (randomBytes (Config.tokenLength self) wa) as [[tk|e] wb] eqn:Ht;
      [|discriminate].
    destruct (randomBytes_ok _ _ _ _ Ht) as [Hst _]. intros _.
    split; [|auto]. unfold served in *. now rewrite <- Hen.
  - destruct (randomBytes (Config.tokenLength self) w) as [[tk|e] wb] eqn:Ht;
      [|discriminate].
    destruct (randomBytes_ok _ _ _ _ Ht) as [Hst _]. intros _.
    split; [exact Hst | discriminate].
Qed.

(** [generateCredentials] throws only for want of a draw, before the
    clock is read. *)
Lemma generateCredentials_throw (w w' : World) (e : Exn) :
  generateCredentials self w = (Throw e, w') ->
  ~ lengths_ok self w /\ reads w' = reads w.
Proof.
  intros H. split.
  - intros Hl. destruct (generateCredentials_run self w Hl) as (c & w2 & Hc & _).
    congruence.
  - revert H. unfold generateCredentials, bind, Date_now, ret.
    destruct (Config.useName self).
    + destruct (randomBytes (Config.nameLength self) w) as [[nm|e1] wa] eqn:Hn.
      * destruct (randomBytes_ok _ _ _ _ Hn) as [Hsn _].
        rewrite (randomBytes_served _ _ Hsn) in Hn. injection Hn as _ <-.
        destruct (randomBytes (Config.tokenLength self) _) as [[tk|e2] wb] eqn:Ht;
          [discriminate|].
        apply randomBytes_refused in Ht as [_ ->]. now intros [= _ <-].
      * apply randomBytes_refused in Hn as [_ ->]. now intros [= _ <-].
    + destruct (randomBytes (Config.tokenLength self) w) as [[tk|e2] wb] eqn:Ht;
        [discriminate|].
      apply randomBytes_refused in Ht as [_ ->]. now intros [= _ <-].
Qed.

(** One turn of the loop, read off a run that returned. *)
Lemma generate_for_turn (f : string) (rest : list string)
    (session : option Session.t) (resp : Obj Credential)
    (details : CsrfDetails) (w w' : World)
    (out : option Session.t * Obj Credential * CsrfDetails) :
  usable session ->
  generate_for self (f :: rest) session resp details w = (Ok out, w') ->
  ~ reads_inherited session f /\
  exists c w1,
    generateCredentials self w = (Ok c, w1) /\
    generate_for self rest
      (match session_form session f with
       | Some _ =>
           write_back session f
             (evict self (default [] (session_form session f)) ++ [c])
       | None => session
       end)
      (obj_assign f c resp)
      (obj_assign f (evict self (default [] (session_form session f)) ++ [c])
         details)
      w1 = (Ok out, w').
Proof.
  intros Hu Hrun.
  destruct (reads_inherited_dec session f) as [Hin|Hn].
  - destruct (generate_for_inherited self f rest session resp details w Hu Hin)
      as (e & w2 & He). congruence.
  - split; [exact Hn|].
    rewrite generate_for_cons in Hrun by assumption. unfold bind at 1 in Hrun.
    destruct (generateCredentials self w) as [[c|e] w1]; [|discriminate].
    exists c, w1. split; [reflexivity | exact Hrun].
Qed.

(** What a run of the loop that returned has done. *)
Lemma generate_for_inv (forms : list string) :
  forall (session : option Session.t) (resp : Obj Credential)
         (details : CsrfDetails) (w w' : World)
         (session' : option Session.t) (resp' : Obj Credential)
         (details' : CsrfDetails),
    usable session -> obj_get "__proto__" resp = None ->
    generate_for self forms session resp details w
      = (Ok (session', resp', details'), w') ->
    quiet w w' /\
    (forall g, g ∈ forms -> ~ reads_inherited session g) /\
    (forms <> [] -> lengths_ok self w) /\
    (forall g, g ∉ forms ->
       obj_get g details' = obj_get g details /\
       obj_get g resp' = obj_get g resp) /\
    (forall g, is_Some (obj_get g resp')
               <-> is_Some (obj_get g resp) \/ (g ∈ forms /\ g <> "__proto__")) /\
    (answered_last resp details -> answered_last resp' details') /\
    ((1 <= Config.maxTokens self)%Z ->
     (forall g l, session_form session g = Some l ->
        (Z.of_nat (length l) <= Config.maxTokens self)%Z) ->
     within_capacity self details -> within_capacity self details').
Proof.
  induction forms as [|f rest IH];
    intros session resp details w w' session' resp' details' Hu Hp Hrun.
  - simpl in Hrun. injection Hrun as <- <- <- <-.
    split; [repeat split|].
    split; [intros g Hg; inversion Hg|]. split; [congruence|].
    split; [auto|]. split; [|auto].
    intros g. split; [auto|]. intros [H|[H _]]; [exact H | inversion H].
  - destruct (generate_for_turn f rest session resp details w w' _ Hu Hrun)
      as (Hread & c & w1 & Hc & Hrest).
    set (arr := evict self (default [] (session_form session f)) ++ [c]) in *.
    destruct (turn_session session f arr Hu) as (Hu1 & _ & Hform1 & Hr1).
    assert (Hp1 : obj_get "__proto__" (obj_assign f c resp) = None).
    { destruct (String.eqb_spec f "__proto__") as [->|Hne];
        [now rewrite obj_assign_proto | now rewrite obj_get_assign_ne]. }
    destruct (IH _ _ _ _ _ _ _ _ Hu1 Hp1 Hrest)
      as (Hq1 & Hreads & _ & Hout & Hkeys & Hans & Hcap).
    pose proof (generateCredentials_lengths _ _ _ Hc) as Hl.
    split; [|split; [|split; [|split; [|split; [|split]]]]].
    + destruct (generateCredentials_run self w Hl) as (c' & w2 & Hc' & Hq & _).
      rewrite Hc in Hc'. injection Hc' as _ <-.
      eapply quiet_trans; eassumption.
    + intros g Hg. apply elem_of_cons in Hg as [->|Hg]; [exact Hread|].
      rewrite <- Hr1. now apply Hreads.
    + intros _. exact Hl.
    + intros g Hg.
      assert (Hne : f <> g) by (intros ->; apply Hg; left).
      destruct (Hout g) as [-> ->]; [intros Hc'; apply Hg; now right|].
      now rewrite !obj_get_assign_ne.
    + intros g. rewrite Hkeys. destruct (String.eqb_spec f g) as [->|Hne].
      * destruct (String.eqb_spec g "__proto__") as [->|Hproto].
        -- rewrite obj_assign_proto by assumption.
           split; [intros [H|[_ H]]; [now left | congruence]|].
           intros [H|[_ H]]; [now left | congruence].
        -- rewrite obj_get_assign_eq by assumption.
           split; [intros _; right; split; [left | assumption] | eauto].
      * rewrite obj_get_assign_ne by assumption.
        split; (intros [H|[H Hproto]]; [now left|]).
        -- right. split; [now right | assumption].
        -- apply elem_of_cons in H as [->|H]; [contradiction | auto].
    + intros Ha. apply Hans. intros g c'.
      destruct (String.eqb_spec f g) as [->|Hne].
      * destruct (String.eqb_spec g "__proto__") as [->|Hproto].
        -- rewrite obj_assign_proto by assumption. rewrite Hp. discriminate.
        -- rewrite !obj_get_assign_eq by assumption.
           intros [= <-]. subst arr. eauto.
      * rewrite !obj_get_assign_ne by assumption. apply Ha.
    + intros Hpos Hsess Hdet.
      assert (Harr : (Z.of_nat (length arr) <= Config.maxTokens self)%Z).
      { subst arr. apply evict_within; [exact Hpos|].
        destruct (session_form session f) as [l0|] eqn:E; simpl.
        - eapply Hsess; exact E.
        - lia. }
      apply Hcap; [exact Hpos | |].
      * intros g l. rewrite Hform1.
        destruct (String.eqb_spec f g) as [->|Hne]; [|apply Hsess].
        destruct (session_form session g); [|discriminate].
        now intros [= <-].
      * intros g l.
        destruct (obj_assign_cases f arr details) as [->|(_ & _ & ->)];
          [|apply Hdet].
        destruct (String.eqb_spec f g) as [->|Hne].
        -- rewrite obj_get_set_eq. now intros [= <-].
        -- rewrite obj_get_set_ne by assumption. apply Hdet.
Qed.

(** The three steps of a [generate] that returned. *)
Lemma generate_inv (session : option Session.t) (forms : Forms)
    (w w1 : World) (cb : GenerateCb) :
  generate self session forms w = (Ok cb, w1) ->
  usable session /\
  exists sA dA n sB resp dB wB scb r,
    _expire self session [] w = (Ok (sA, dA), tick n w) /\ usable sA /\
    generate_for self (forms_array forms) sA [] dA (tick n w)
      = (Ok (sB, resp, dB), wB) /\
    save sB dB wB = (Ok scb, w1) /\
    cb = match scb with
         | SaveErr err => GenerateErr err
         | Saved sess created => Generated resp sess created
         end /\
    requests (luno w1) = requests (luno w) ++ [r] /\ sent r = Some dB.
Proof.
  intros HG.
  assert (Hu : usable session).
  { destruct session as [s|]; [|exact I]. simpl.
    intros Hs. unfold generate, bind, _expire in HG. rewrite Hs in HG.
    discriminate. }
  split; [exact Hu|].
  destruct (expire_usable self session w Hu) as (sA & dA & n & HA & HuA & _).
  unfold generate in HG. unfold bind at 1 in HG. rewrite HA in HG.
  unfold bind at 1 in HG.
  pose proof (silent_generate_for self (forms_array forms) sA [] dA (tick n w))
    as Hsil.
  destruct (generate_for self (forms_array forms) sA [] dA (tick n w))
    as [[[[sB resp] dB]|e] wB] eqn:HB; [|discriminate].
  simpl in Hsil. unfold bind in HG.
  destruct (save_one_request sB dB wB) as (scb & r & w' & HS & Hreq & Hsent & _).
  rewrite HS in HG.
  exists sA, dA, n, sB, resp, dB, wB, scb, r.
  assert (w' = w1 /\ cb = match scb with
                          | SaveErr err => GenerateErr err
                          | Saved sess created => Generated resp sess created
                          end) as [-> ->].
  { destruct scb; injection HG as <- <-; auto. }
  repeat (split; [assumption || reflexivity|]).
  split; [now rewrite Hreq, Hsil | exact Hsent].
Qed.

End Returned.

(** ** A form requested once *)

Lemma fetch_same_path (st : Luno) (a b : Session.t) :
  session_path a = session_path b -> fetch st a = fetch st b.
Proof. unfold fetch. now intros ->. Qed.

Lemma session_path_id (a b : Session.t) :
  Session.id a = Session.id b -> session_path a = session_path b.
Proof. unfold session_path. now intros ->. Qed.

Lemma save_held (session : option Session.t) (details : CsrfDetails)
    (w w' : World) (sess : Session.t) (created : bool) (f : string)
    (l : list Credential) :
  save session details w = (Ok (Saved sess created), w') ->
  obj_get f details = Some l -> held w' sess f l.
Proof.
  intros HS Hl.
  destruct (save_stored _ _ _ _ _ _ HS)
    as (s1 & dt & d1 & Hf & Ht & Hp & Hdt & Hd1 & Hall).
  exists s1, dt, d1. auto 10.
Qed.

Lemma save_created (session : option Session.t) (details : CsrfDetails)
    (w w' : World) (sess : Session.t) :
  save session details w = (Ok (Saved sess true), w') ->
  fetch (luno w') sess = Some sess.
Proof.
  unfold save.
  assert (Hpost :
    (let* r := luno_post "/sessions"
                 {| body_details := {| csrf := Some details |} |} in
     match r with
     | inl err => ret (SaveErr err)
     | inr sess => ret (Saved sess true)
     end) w = (Ok (Saved sess true), w') ->
    fetch (luno w') sess = Some sess).
  { unfold bind, luno_post, ret.
    destruct (outage (luno w) (length (requests (luno w)))); [discriminate|].
    intros [= <- <-].
    unfold fetch, luno_get, at_path, session_path. simpl.
    now rewrite String.eqb_refl. }
  destruct session as [s|]; [|exact Hpost].
  destruct (negb (truthy (Session.id s))); [exact Hpost|].
  unfold bind, luno_patch, ret.
  destruct (outage (luno w) (length (requests (luno w)))); [discriminate|].
  destruct (patch_sessions _ _ _ _); discriminate.
Qed.

Section Appends.

Variable self : Config.t.

(** [generate] for a usable session when [f] is requested once: what is
    sent to the store for [f], and what the store then holds. *)
Lemma generate_appends (session : option Session.t) (forms : Forms)
    (f : string) (w : World) :
  usable session -> lengths_ok self w ->
  (forall g, g ∈ forms_array forms -> ~ reads_inherited session g) ->
  f <> "__proto__" ->
  count_occ string_dec (forms_array forms) f = 1 ->
  exists sA dA n cb c r dsent w',
    _expire self session [] w = (Ok (sA, dA), tick n w) /\
    match session_form session f with
    | Some l => exists l', session_form sA f = Some l' /\
                           pruned self (clock w) l l'
    | None => session_form sA f = None
    end /\
    generate self session forms w = (Ok cb, w') /\ evolves w w' /\
    requests (luno w') = requests (luno w) ++ [r] /\ sent r = Some dsent /\
    obj_get f dsent = Some (evict self (default [] (session_form sA f)) ++ [c]) /\
    (exists k, created c = clock w k) /\
    (forall resp sess created,
       cb = Generated resp sess created ->
       obj_get f resp = Some c /\
       held w' sess f (evict self (default [] (session_form sA f)) ++ [c])) /\
    (outage (luno w) (length (requests (luno w))) = false ->
     (truthy (session_id session) = false ->
      exists resp sess, cb = Generated resp sess true) /\
     (forall s0 r0,
        session = Some s0 -> truthy (Session.id s0) = true ->
        fetch (luno w) s0 = Some r0 ->
        exists resp sB, cb = Generated resp sB false)).
Proof.
  intros Hu Hl Hforms Hproto Hcount.
  destruct (expire_usable self session w Hu)
    as (sA & dA & n & HA & HuA & HiA & _ & Hform).
  pose proof (lengths_ok_quiet self _ _ (quiet_tick n w) Hl) as HlA.
  assert (HformsA : forall g, g ∈ forms_array forms -> ~ reads_inherited sA g).
  { intros g Hg. rewrite (expire_reads self _ _ _ _ _ HA). now apply Hforms. }
  destruct (generate_for_once self (forms_array forms) f sA [] dA (tick n w)
              HuA HlA HformsA Hproto Hcount)
    as (sB & resp & dB & wB & c & HB & Hresp & Hk & Hd).
  destruct (generate_for_run self (forms_array forms) sA [] dA (tick n w) HuA
              HlA HformsA)
    as (sB' & resp' & dB' & wB' & HB' & Hq & HuB & HiB & _).
  rewrite HB in HB'. injection HB' as <- <- <- <-.
  destruct (save_one_request sB dB wB) as (cb & r & w' & HS & Hreq & Hsent & He).
  assert (Hqw : quiet w wB)
    by (eapply quiet_trans; [apply quiet_tick | exact Hq]).
  exists sA, dA, n,
    (match cb with
     | SaveErr err => GenerateErr err
     | Saved sess created => Generated resp sess created
     end), c, r, dB, w'.
  split; [exact HA|]. split; [apply Hform|].
  split; [unfold generate, bind; rewrite HA, HB, HS; destruct cb; reflexivity|].
  split; [eapply evolves_trans; [apply quiet_evolves; exact Hqw | exact He]|].
  destruct Hqw as (Hclk & _ & Hluno).
  split; [now rewrite Hreq, Hluno|]. split; [exact Hsent|].
  split; [exact Hd|]. split; [exact Hk|]. split.
  - intros resp0 sess created Hcb.
    destruct cb as [err|sess' created']; [discriminate|].
    injection Hcb as <- <- <-. split; [exact Hresp|].
    eapply save_held; eassumption.
  - intros Ho. rewrite <- Hluno in Ho. split.
    + intros Ht. rewrite <- HiA, <- HiB in Ht.
      destruct (save_post_ok sB dB wB Ht Ho) as (sess & w'' & HS' & _).
      rewrite HS in HS'. injection HS' as -> _. eauto.
    + intros s0 r0 -> Ht Hf.
      destruct sB as [sB0|]; [|simpl in HiB; rewrite HiA in HiB; simpl in HiB;
                                rewrite <- HiB in Ht; discriminate].
      simpl in HiB. rewrite HiA in HiB. simpl in HiB.
      assert (Hf' : fetch (luno wB) sB0 = Some r0).
      { rewrite Hluno. rewrite <- Hf. apply fetch_same_path.
        now apply session_path_id. }
      rewrite <- HiB in Ht.
      destruct (save_patch_ok sB0 r0 dB wB Ht Hf' Ho) as (w'' & HS' & _).
      rewrite HS in HS'. injection HS' as -> _. eauto.
Qed.

End Appends.

Section Sequential.

Variable self : Config.t.

Lemma evolves_store_up (w w' : World) : evolves w w' -> store_up w -> store_up w'.
Proof. intros (_ & _ & Ho & _) H n. rewrite Ho. apply H. Qed.

(** One more [generate] for the client of [sess], whose stored array for
    [f] holds nothing expired: the store then holds that array, shifted
    if it was full, with the new credential at its end. *)
Lemma generate_step (f : string) (w : World) (sess : Session.t)
    (l : list Credential) :
  lengths_ok self w -> store_up w -> f <> "__proto__" -> held w sess f l ->
  (forall c k, c ∈ l -> expired_at self (clock w k) c = false) ->
  exists resp sB w' c,
    generate self (fetch (luno w) sess) (OneForm f) w
      = (Ok (Generated resp sB false), w') /\
    obj_get f resp = Some c /\ (exists k, created c = clock w k) /\
    evolves w w' /\ held w' sB f (evict self l ++ [c]).
Proof.
  intros Hl Hup Hproto (s0 & dt & d & Hf & Ht & Hp & Hdt & Hd & Hfl) Hlive.
  rewrite Hf.
  assert (Hu : usable (Some s0)) by (simpl; congruence).
  assert (Hcount : count_occ string_dec (forms_array (OneForm f)) f = 1).
  { simpl. destruct (string_dec f f); [reflexivity | contradiction]. }
  assert (Hsf : session_form (Some s0) f = Some l)
    by (simpl; now rewrite Hdt, Hd).
  destruct (generate_appends self (Some s0) (OneForm f) f w Hu Hl)
    as (sA & dA & n & cb & c & r & dsent & w' & _ & Hform & HG & He & _ & _ & _
        & Hk & Hheld & Hok); [|exact Hproto | exact Hcount |].
  { intros g Hg. apply list_elem_of_In in Hg. destruct Hg as [<-|[]].
    intros [p Hp']. rewrite (session_read_own _ _ _ Hsf) in Hp'. discriminate. }
  rewrite Hsf in Hform. destruct Hform as (l' & Hl' & Hpr).
  assert (l' = l) as -> by (eapply pruned_live; [|exact Hpr]; auto).
  rewrite Hl' in Hheld. simpl in Hheld.
  destruct (Hok (Hup _)) as [_ Hpatch].
  destruct (Hpatch s0 s0 eq_refl Ht) as (resp & sB & ->).
  { rewrite <- Hf. now apply fetch_same_path. }
  destruct (Hheld resp sB false eq_refl) as [Hr Hh].
  exists resp, sB, w', c. auto.
Qed.

(** The first [generate] of an anonymous client: a session is created
    that holds the new credential alone. *)
Lemma generate_first (f : string) (w : World) :
  lengths_ok self w -> store_up w -> f <> "__proto__" ->
  exists resp sess w' c,
    generate self None (OneForm f) w = (Ok (Generated resp sess true), w') /\
    obj_get f resp = Some c /\ (exists k, created c = clock w k) /\
    evolves w w' /\ held w' sess f [c].
Proof.
  intros Hl Hup Hproto.
  assert (Hcount : count_occ string_dec (forms_array (OneForm f)) f = 1).
  { simpl. destruct (string_dec f f); [reflexivity | contradiction]. }
  destruct (generate_appends self None (OneForm f) f w I Hl)
    as (sA & dA & n & cb & c & r & dsent & w' & _ & Hform & HG & He & _ & _ & _
        & Hk & Hheld & Hok); [|exact Hproto | exact Hcount |].
  { intros g _ [p Hp']. discriminate. }
  simpl in Hform. rewrite Hform in Hheld. simpl in Hheld.
  assert (Hev : evict self [] = []).
  { unfold evict. now destruct (_ <=? _)%Z. }
  rewrite Hev in Hheld. simpl in Hheld.
  destruct (Hok (Hup _)) as [Hpost _].
  destruct (Hpost eq_refl) as (resp & sess & ->).
  destruct (Hheld resp sess true eq_refl) as [Hr Hh].
  exists resp, sess, w', c. auto.
Qed.

End Sequential.

(** ** From [generate] to the store *)

Section Held.

Variable self : Config.t.

(** Whatever [generate] answers for a form is, once saved, the last
    credential of the array the store holds for that form. *)
Lemma generate_held (session : option Session.t) (forms : Forms) (w w1 : World)
    (resp : Obj Credential) (sess : Session.t) (created : bool)
    (f : string) (cred : Credential) :
  generate self session forms w = (Ok (Generated resp sess created), w1) ->
  obj_get f resp = Some cred ->
  evolves w w1 /\ (created = true -> fetch (luno w1) sess = Some sess) /\
  exists pre, held w1 sess f (pre ++ [cred]).
Proof.
  intros HG Hr.
  destruct (generate_inv self session forms w w1 _ HG)
    as (Hu & sA & dA & n & sB & resp' & dB & wB & scb & r & HA & HuA & HB & HS
        & Hcb & _).
  destruct scb as [err|sess' created']; [discriminate|].
  injection Hcb as <- <- <-.
  destruct (generate_for_inv self _ _ [] _ _ _ _ _ _ HuA eq_refl HB)
    as (Hq & _ & _ & _ & _ & Hans & _).
  destruct (save_one_request sB dB wB) as (cb & r' & w' & HS' & _ & _ & He).
  rewrite HS in HS'. injection HS' as <- <-.
  split; [|split].
  - eapply evolves_trans; [|exact He].
    apply quiet_evolves. eapply quiet_trans; [apply quiet_tick | exact Hq].
  - intros ->. eapply save_created; eassumption.
  - destruct (Hans ltac:(intros f0 c0; discriminate) f cred Hr) as [pre Hpre].
    exists pre. eapply save_held; eassumption.
Qed.

End Held.

(** ** Submitting what the store holds *)

Lemma held_same_path (w : World) (a b : Session.t) (f : string)
    (l : list Credential) :
  session_path a = session_path b -> held w a f l -> held w b f l.
Proof.
  intros Hab (s0 & dt & d & Hf & Ht & Hp & Hrest).
  exists s0, dt, d. rewrite <- (fetch_same_path _ _ _ Hab), <- Hab. auto.
Qed.

Section Submit.

Variable self : Config.t.
Variable scmp : Value -> Value -> bool.

Lemma held_form (w : World) (sess : Session.t) (f : string)
    (l : list Credential) :
  held w sess f l ->
  exists s0,
    fetch (luno w) sess = Some s0 /\ session_form (Some s0) f = Some l /\
    truthy (Session.id s0) = true /\ session_path s0 = session_path sess.
Proof.
  intros (s0 & dt & d & Hf & Ht & Hp & Hdt & Hd & Hfl).
  exists s0. simpl. rewrite Hdt, Hd. auto.
Qed.

Lemma session_form_inv (session : option Session.t) (f : string)
    (l : list Credential) :
  session_form session f = Some l ->
  exists s dt d,
    session = Some s /\ Session.details s = Some dt /\ csrf dt = Some d /\
    obj_get f d = Some l.
Proof.
  destruct session as [s|]; [|discriminate]. simpl.
  destruct (Session.details s) as [dt|] eqn:Hdt; [|discriminate].
  destruct (csrf dt) as [d|] eqn:Hd; [|discriminate].
  intros H. exists s, dt, d. auto.
Qed.

(** A submission that no credential of the session's array matches. *)
Lemma validate_miss (w : World) (session : option Session.t) (f : string)
    (l : list Credential) (b : Body) :
  ordinary f ->
  session_form session f = Some l ->
  (forall c, c ∈ l -> matches self scmp b c = false) ->
  exists cb m w',
    validate self scmp f session (Some b) w = (Ok (false, cb, m), w').
Proof.
  intros Hord Hsf Hno.
  destruct (session_form_inv _ _ _ Hsf) as (s0 & dt & d & -> & Hdt & Hd & Hfl).
  destruct (validate_run self scmp f s0 dt d l (Some b) w Hord Hdt Hd Hfl)
    as (d' & details' & n & l' & _ & _ & _ & _ & Hp & HV).
  rewrite HV. unfold bind. rewrite validate_for_present.
  rewrite first_match_none; [eexists _, _, _; reflexivity|].
  intros c Hc. apply Hno. eapply pruned_elem; eassumption.
Qed.

(** A submission of the last credential of the session's array, before
    it expires: what [validate] returns, what it leaves in the session
    object, and what it leaves in the store. *)
Lemma validate_hit (w : World) (s : Session.t) (f : string)
    (pre : list Credential) (cred : Credential) (b : Body) :
  ordinary f ->
  session_form (Some s) f = Some (pre ++ [cred]) ->
  (forall k, expired_at self (clock w k) cred = false) ->
  matches self scmp b cred = true ->
  exists cb m w' pre',
    validate self scmp f (Some s) (Some b) w = (Ok (true, cb, m), w') /\
    evolves w w' /\ (forall c, c ∈ pre' -> c ∈ pre) /\
    (Config.expireAfterUse self = false ->
     luno w' = luno w /\ session_form m f = Some (pre' ++ [cred])) /\
    (Config.expireAfterUse self = true ->
     (forall c, c ∈ pre -> matches self scmp b c = false) ->
     session_form m f = Some pre' /\
     (store_up w -> truthy (Session.id s) = true ->
      is_Some (fetch (luno w) s) -> held w' s f pre')).
Proof.
  intros Hord Hsf Hlive Hm.
  destruct (session_form_inv _ _ _ Hsf) as (s0 & dt & d & Heq & Hdt & Hd & Hfl).
  injection Heq as <-.
  destruct (validate_run self scmp f s dt d (pre ++ [cred]) (Some b) w
              Hord Hdt Hd Hfl)
    as (d' & details' & n & l' & _ & _ & _ & Hl' & Hp & HV).
  destruct (pruned_snoc_live self (clock w) pre l' cred Hlive Hp)
    as (pre' & -> & Hpre).
  rewrite HV. unfold bind. rewrite validate_for_present.
  destruct (first_match_some self scmp b (pre' ++ [cred]) cred 0) as [i Hi];
    [apply elem_of_app; right; left | exact Hm |].
  rewrite Hi. unfold validate_matched.
  assert (Hform2 : session_form (Some (set_csrf s d')) f = Some (pre' ++ [cred])).
  { unfold set_csrf. rewrite Hdt. simpl. exact Hl'. }
  assert (Hsub : forall c, c ∈ pre' -> c ∈ pre)
    by (intros c Hc; eapply pruned_elem; eassumption).
  destruct (Config.expireAfterUse self) eqn:Hx; cbn [negb].
  - unfold bind.
    set (l2 := delete i (pre' ++ [cred])).
    set (session2 := write_back (Some (set_csrf s d')) f l2).
    destruct (write_back_form (Some (set_csrf s d')) f f _ l2 Hform2)
      as (Hform3 & _ & Hid2). fold session2 in Hid2, Hform3.
    rewrite String.eqb_refl in Hform3.
    assert (Hid0 : session_id (Some (set_csrf s d')) = Session.id s).
    { unfold set_csrf. rewrite Hdt. reflexivity. }
    rewrite Hid0 in Hid2.
    destruct (save_one_request session2 (obj_set f l2 details') (tick n w))
      as (cb0 & r & w' & HS & _ & _ & He).
    rewrite HS.
    exists (match cb0 with
            | SaveErr err => ValidateErr err
            | Saved sess0 _ => Validated true (Some sess0)
            end), session2, w', pre'.
    split; [destruct cb0; reflexivity|].
    split; [eapply evolves_trans; [apply quiet_evolves, quiet_tick | exact He]|].
    split; [exact Hsub|]. split; [discriminate|]. intros _ Hno.
    assert (Hno' : forall c, c ∈ pre' -> matches self scmp b c = false)
      by (intros c Hc; apply Hno, Hsub, Hc).
    rewrite (first_match_snoc self scmp b pre' cred 0 Hno' Hm) in Hi.
    injection Hi as <-.
    assert (Hl2 : l2 = pre').
    { subst l2. rewrite delete_take_drop, take_app_length.
      rewrite drop_ge by (rewrite length_app; simpl; lia).
      apply app_nil_r. }
    rewrite Hl2 in HS, Hform3. split; [exact Hform3|].
    intros Hup Ht [r0 Hr0].
    destruct session2 as [s2|] eqn:Hs2;
      [|simpl in Hid2; rewrite <- Hid2 in Ht; discriminate].
    simpl in Hid2.
    assert (Hpath2 : session_path s2 = session_path s)
      by (now apply session_path_id).
    assert (Hf2 : fetch (luno (tick n w)) s2 = Some r0).
    { simpl. rewrite <- Hr0. now apply fetch_same_path. }
    assert (Ht2 : truthy (Session.id s2) = true) by (now rewrite Hid2).
    destruct (save_patch_ok s2 r0 (obj_set f pre' details') (tick n w) Ht2 Hf2
                (Hup _)) as (w'' & HS' & _).
    rewrite HS in HS'. injection HS' as -> <-.
    apply (held_same_path _ s2); [exact Hpath2|].
    eapply save_held; [exact HS | apply obj_get_set_eq].
  - unfold ret. eexists _, _, _, pre'.
    split; [reflexivity|].
    split; [apply quiet_evolves, quiet_tick|].
    split; [exact Hsub|]. split; [|discriminate].
    intros _. split; [reflexivity | exact Hform2].
Qed.

End Submit.

(** ** How [validate] ends *)

Section ValidateFacts.

Variable self : Config.t.
Variable scmp : Value -> Value -> bool.

Lemma silent_validate_for (body : option Body) (rest : list Credential) :
  forall i, silent (validate_for self scmp body i rest).
Proof.
  induction rest as [|c rest IH]; intros i; simpl; [apply silent_ret|].
  apply silent_bind.
  - unfold body_get. destruct body; [apply silent_ret | apply silent_throw].
  - intros v. destruct (negb (scmp v (VString (token c))));
      [apply IH | apply silent_ret].
Qed.

(** The loop over an inherited value changes nothing, whether it ends or
    throws. *)
Lemma validate_inherited_world (body : option Body) (p : Inherited) (w : World) :
  snd (validate_inherited self body p w) = w.
Proof.
  unfold validate_inherited. destruct p as [[|n]|]; try reflexivity.
  destruct (Config.useName self); [reflexivity|].
  unfold bind, body_get. destruct body; reflexivity.
Qed.

Lemma write_back_id (session : option Session.t) (f : string)
    (arr : list Credential) :
  session_id (write_back session f arr) = session_id session.
Proof.
  destruct session as [s|]; [|reflexivity]. simpl.
  destruct (Session.details s) as [dt|] eqn:Hs; [|reflexivity].
  destruct (csrf dt); [|reflexivity].
  unfold set_csrf. now rewrite Hs.
Qed.

Lemma session_read_inv (session : option Session.t) (f : string)
    (found : Found (list Credential)) :
  session_read session f = Some found ->
  exists s dt d,
    session = Some s /\ Session.details s = Some dt /\ csrf dt = Some d /\
    obj_read f d = Some found.
Proof.
  destruct session as [s|]; [|discriminate]. simpl.
  destruct (Session.details s) as [dt|] eqn:Hdt; [|discriminate].
  destruct (csrf dt) as [d|] eqn:Hd; [|discriminate].
  intros H. exists s, dt, d. auto.
Qed.

(** The three ways in which [validate] returns: not matched; matched
    with nothing to invalidate; matched and handed to [save]. *)
Lemma validate_cases (form : string) (session : option Session.t)
    (body : option Body) (w w' : World) (r : bool) (cb : ValidateCb)
    (m : option Session.t) :
  validate self scmp form session body w = (Ok (r, cb, m), w') ->
  (r = false /\ cb = Validated false None /\ luno w' = luno w) \/
  (r = true /\ Config.expireAfterUse self = false /\
   cb = Validated true m /\ is_Some m /\ luno w' = luno w) \/
  (r = true /\ Config.expireAfterUse self = true /\
   exists scb dsent w0,
     save m dsent w0 = (Ok scb, w') /\ luno w0 = luno w /\
     session_id m = session_id session /\ is_Some (obj_get form dsent) /\
     cb = match scb with
          | SaveErr err => ValidateErr err
          | Saved sess _ => Validated true (Some sess)
          end).
Proof.
  destruct (session_read session form) as [csrf0|] eqn:Hsr.
  - destruct (session_read_inv _ _ _ Hsr) as (s & dt & d & -> & Hs & Hdt & Hread).
    destruct (validate_read self scmp form s dt d csrf0 body w Hs Hdt Hread)
      as (d' & details' & n & _ & _ & _ & _ & HV).
    rewrite HV.
    match goal with
    | |- context [match ?F with FoundOwn _ => _ | FoundInherited _ => _ end] =>
        destruct F as [l'|p]
    end.
    + unfold bind.
      pose proof (silent_validate_for body l' 0 (tick n w)) as Hsil.
      destruct (validate_for self scmp body 0 l' (tick n w)) as [[hit|e] w2];
        [|discriminate].
      simpl in Hsil. destruct hit as [i|].
      * unfold validate_matched.
        destruct (Config.expireAfterUse self) eqn:Hx; cbn [negb].
        -- unfold bind.
           set (m0 := write_back (Some (set_csrf s d')) form (delete i l')).
           set (dsent := obj_set form (delete i l') details').
           destruct (save m0 dsent w2) as [[scb|e] w3] eqn:HS.
           ++ intros H. right. right.
              assert (r = true /\ m = m0 /\ w' = w3 /\
                      cb = match scb with
                           | SaveErr err => ValidateErr err
                           | Saved sess _ => Validated true (Some sess)
                           end) as (-> & -> & -> & ->).
              { destruct scb; injection H as <- <- <- <-; auto. }
              split; [reflexivity|]. split; [reflexivity|].
              exists scb, dsent, w2. split; [exact HS|]. split; [exact Hsil|].
              split; [|split; [|reflexivity]].
              ** subst m0. rewrite write_back_id. unfold set_csrf.
                 now rewrite Hs.
              ** subst dsent. rewrite obj_get_set_eq. eauto.
           ++ discriminate.
        -- intros [= <- <- <- <-]. right. left. repeat split; eauto.
      * intros [= <- <- <- <-]. left. auto.
    + unfold bind.
      pose proof (validate_inherited_world body p (tick n w)) as Hw.
      destruct (validate_inherited self body p (tick n w)) as [[[]|e] w2];
        [|discriminate].
      simpl in Hw. subst w2. intros [= <- <- <- <-]. left. auto.
  - unfold validate. rewrite Hsr. intros [= <- <- <- <-]. left. auto.
Qed.

(** A [validate] that throws has not reached the store. *)
Lemma validate_throw_silent (form : string) (session : option Session.t)
    (body : option Body) (w w' : World) (e : Exn) :
  validate self scmp form session body w = (Throw e, w') -> luno w' = luno w.
Proof.
  destruct (session_read session form) as [csrf0|] eqn:Hsr;
    [|unfold validate; rewrite Hsr; discriminate].
  destruct (session_read_inv _ _ _ Hsr) as (s & dt & d & -> & Hs & Hdt & Hread).
  destruct (validate_read self scmp form s dt d csrf0 body w Hs Hdt Hread)
    as (d' & details' & n & _ & _ & _ & _ & HV).
  rewrite HV.
  match goal with
  | |- context [match ?F with FoundOwn _ => _ | FoundInherited _ => _ end] =>
      destruct F as [l'|p]
  end.
  - unfold bind.
    pose proof (silent_validate_for body l' 0 (tick n w)) as HB.
    destruct (validate_for self scmp body 0 l' (tick n w)) as [[hit|e1] wB];
      simpl in HB.
    + destruct hit as [i|]; [|discriminate].
      unfold validate_matched.
      destruct (negb (Config.expireAfterUse self)); [discriminate|].
      unfold bind.
      match goal with
      | |- context [save ?a ?b wB] =>
          destruct (save_one_request a b wB) as (scb & r & w3 & -> & _)
      end.
      destruct scb; discriminate.
    + intros [= _ <-]. exact HB.
  - unfold bind.
    pose proof (validate_inherited_world body p (tick n w)) as Hw.
    destruct (validate_inherited self body p (tick n w)) as [[[]|e1] w2];
      [discriminate|].
    simpl in Hw. subst w2. now intros [= _ <-].
Qed.

(** With the session in a store that answers, the update of [validate]
    is accepted. *)
Lemma validate_callback_ok (form : string) (s : Session.t)
    (body : option Body) (w w' : World) (r : bool) (cb : ValidateCb)
    (m : option Session.t) :
  store_up w -> truthy (Session.id s) = true -> is_Some (fetch (luno w) s) ->
  validate self scmp form (Some s) body w = (Ok (r, cb, m), w') ->
  exists sess, cb = Validated r sess.
Proof.
  intros Hup Ht [r0 Hr0] HV.
  destruct (validate_cases _ _ _ _ _ _ _ _ HV)
    as [(-> & -> & _)|[(-> & _ & -> & _)|(-> & _ & scb & dsent & w0 & HS & Hl
                                          & Hid & _ & ->)]]; eauto.
  destruct m as [s2|]; [|simpl in Hid; rewrite <- Hid in Ht; discriminate].
  simpl in Hid.
  assert (Hf : fetch (luno w0) s2 = Some r0).
  { rewrite Hl, <- Hr0. now apply fetch_same_path, session_path_id. }
  assert (Ht2 : truthy (Session.id s2) = true) by (now rewrite Hid).
  assert (Ho : outage (luno w0) (length (requests (luno w0))) = false)
    by (rewrite Hl; apply Hup).
  destruct (save_patch_ok s2 r0 dsent w0 Ht2 Hf Ho) as (w'' & HS' & _).
  rewrite HS in HS'. injection HS' as -> _. eauto.
Qed.

End ValidateFacts.

(** ** The claims *)

(** C1 (as the code has it).  Take a credential that [generate]
    answered for a form [f] whose name [Object.prototype] does not
    define, and a body carrying its token under its field name
    ([config.name], followed by the credential's name when [useName] is
    set and the credential has one; the name and value [inputHTML]
    renders), submitted while no clock reading finds it expired, with a
    comparison that accepts equal strings.  Validating the session the
    store holds for the client, which is the very session [generate]
    handed to its callback when it created one, returns matched.
    Repeating the same submission right away, be it on the session object
    the first call worked on or on the session fetched again from the
    store, returns matched when [expireAfterUse] is off; when it is on
    and no other stored credential of the form matches the body, it
    returns not-matched (for the fetched session, provided the store
    answered the update). *)
Theorem validate_roundtrip (self : Config.t) (scmp : Value -> Value -> bool)
    (session : option Session.t) (forms : Forms) (w0 w1 : World)
    (resp : Obj Credential) (sess : Session.t) (created : bool)
    (f : string) (cred : Credential) (b : Body) :
  generate self session forms w0 = (Ok (Generated resp sess created), w1) ->
  obj_get f resp = Some cred -> ordinary f ->
  (forall k, expired_at self (clock w0 k) cred = false) ->
  submitted self b cred -> accepts_equal scmp ->
  inputHTML self cred
    = "<input type=" +:+ quoted "hidden" +:+ " name="
        +:+ quoted (fieldName self cred) +:+ " value="
        +:+ quoted (token cred) +:+ ">" /\
  exists s1 pre cb1 m1 w2,
    fetch (luno w1) sess = Some s1 /\ (created = true -> s1 = sess) /\
    session_form (Some s1) f = Some (pre ++ [cred]) /\
    validate self scmp f (Some s1) (Some b) w1 = (Ok (true, cb1, m1), w2) /\
    (Config.expireAfterUse self = false ->
     (exists cb2 m2 w3,
        validate self scmp f m1 (Some b) w2 = (Ok (true, cb2, m2), w3)) /\
     (exists cb2 m2 w3,
        validate self scmp f (fetch (luno w2) sess) (Some b) w2
          = (Ok (true, cb2, m2), w3))) /\
    (Config.expireAfterUse self = true ->
     (forall c, c ∈ pre -> matches self scmp b c = false) ->
     (exists cb2 m2 w3,
        validate self scmp f m1 (Some b) w2 = (Ok (false, cb2, m2), w3)) /\
     (store_up w1 ->
      exists cb2 m2 w3,
        validate self scmp f (fetch (luno w2) sess) (Some b) w2
          = (Ok (false, cb2, m2), w3))).
Proof.
  intros HG Hr Hord Hlive Hsub Hacc. split; [reflexivity|].
  destruct (generate_held self session forms w0 w1 resp sess created f cred HG Hr)
    as ((Hclk & _) & Hnew & pre & Hheld).
  pose proof (matches_submitted self scmp b cred Hsub Hacc) as Hm.
  assert (Hlive1 : forall k, expired_at self (clock w1 k) cred = false)
    by (intros k; rewrite Hclk; apply Hlive).
  destruct (held_form w1 sess f _ Hheld) as (s1 & Hf & Hsf & Ht & Hpath).
  destruct (validate_hit self scmp w1 s1 f pre cred b Hord Hsf Hlive1 Hm)
    as (cb1 & m1 & w2 & pre' & HV & (Hclk2 & _) & Hsub' & Hoff & Hon).
  assert (Hlive2 : forall k, expired_at self (clock w2 k) cred = false)
    by (intros k; rewrite Hclk2; apply Hlive1).
  exists s1, pre, cb1, m1, w2.
  split; [exact Hf|].
  split; [intros Hc; specialize (Hnew Hc); congruence|].
  split; [exact Hsf|]. split; [exact HV|]. split.
  - intros Hx. destruct (Hoff Hx) as [Hluno Hm1]. split.
    + destruct (session_form_inv _ _ _ Hm1) as (sm & _ & _ & -> & _).
      destruct (validate_hit self scmp w2 sm f pre' cred b Hord Hm1 Hlive2 Hm)
        as (cb2 & m2 & w3 & _ & HV2 & _). eauto.
    + rewrite Hluno, Hf.
      destruct (validate_hit self scmp w2 s1 f pre cred b Hord Hsf Hlive2 Hm)
        as (cb2 & m2 & w3 & _ & HV2 & _). eauto.
  - intros Hx Hno. destruct (Hon Hx Hno) as [Hm1 Hstore].
    assert (Hno' : forall c, c ∈ pre' -> matches self scmp b c = false)
      by (intros c Hc; apply Hno, Hsub', Hc).
    split.
    + apply (validate_miss self scmp w2 m1 f pre' b Hord Hm1 Hno').
    + intros Hup.
      assert (Hheld2 : held w2 sess f pre').
      { apply (held_same_path _ s1); [exact Hpath|].
        apply Hstore; [exact Hup | exact Ht |].
        rewrite (fetch_same_path _ _ _ Hpath), Hf. eauto. }
      destruct (held_form w2 sess f _ Hheld2) as (s2 & Hf2 & Hsf2 & _).
      rewrite Hf2.
      apply (validate_miss self scmp w2 (Some s2) f pre' b Hord Hsf2 Hno').
Qed.

Lemma validate_roundtrip_witness :
  (exists s1 cb1 m1 w2 cb2 m2 w3,
     fetch (luno (snd (generate self_scenario None (OneForm "login")
                         (steady 1000 empty_store))))
       (session_with [("login", [cred_at 1000 "r0" "r1"])]) = Some s1 /\
     validate self_scenario scmp_strings "login" (Some s1)
       (Some [("csrf-r0", VString "r1")])
       (snd (generate self_scenario None (OneForm "login")
               (steady 1000 empty_store)))
       = (Ok (true, cb1, m1), w2) /\
     validate self_scenario scmp_strings "login"
       (fetch (luno w2) (session_with [("login", [cred_at 1000 "r0" "r1"])]))
       (Some [("csrf-r0", VString "r1")]) w2
       = (Ok (false, cb2, m2), w3)) /\
  (exists s1 cb1 m1 w2 cb2 m2 w3,
     fetch (luno (snd (generate self_reusable None (OneForm "login")
                         (steady 1000 empty_store))))
       (session_with [("login", [cred_at 1000 "r0" "r1"])]) = Some s1 /\
     validate self_reusable scmp_strings "login" (Some s1)
       (Some [("csrf-r0", VString "r1")])
       (snd (generate self_reusable None (OneForm "login")
               (steady 1000 empty_store)))
       = (Ok (true, cb1, m1), w2) /\
     validate self_reusable scmp_strings "login"
       (fetch (luno w2) (session_with [("login", [cred_at 1000 "r0" "r1"])]))
       (Some [("csrf-r0", VString "r1")]) w2
       = (Ok (true, cb2, m2), w3)).
Proof.
  split.
  - destruct (validate_roundtrip self_scenario scmp_strings None
                (OneForm "login") (steady 1000 empty_store)
                (snd (generate self_scenario None (OneForm "login")
                        (steady 1000 empty_store)))
                [("login", cred_at 1000 "r0" "r1")]
                (session_with [("login", [cred_at 1000 "r0" "r1"])]) true
                "login" (cred_at 1000 "r0" "r1")
                [("csrf-r0", VString "r1")])
      as (_ & s1 & pre & cb1 & m1 & w2 & Hf & _ & Hsf & HV & _ & Hon).
    + reflexivity.
    + reflexivity.
    + reflexivity.
    + intros k. reflexivity.
    + reflexivity.
    + intros x. apply String.eqb_refl.
    + assert (Hs1 : s1 = session_with [("login", [cred_at 1000 "r0" "r1"])])
        by (vm_compute in Hf; injection Hf as <-; reflexivity).
      assert (Hpre : pre = []).
      { rewrite Hs1 in Hsf. vm_compute in Hsf. injection Hsf as Hsf.
        now apply (app_inv_tail [cred_at 1000 "r0" "r1"] [] pre) in Hsf. }
      destruct (Hon eq_refl) as [_ Hstore].
      * rewrite Hpre. intros c Hc. inversion Hc.
      * destruct Hstore as (cb2 & m2 & w3 & HV2); [intros n; reflexivity|].
        exists s1, cb1, m1, w2, cb2, m2, w3. auto.
  - destruct (validate_roundtrip self_reusable scmp_strings None
                (OneForm "login") (steady 1000 empty_store)
                (snd (generate self_reusable None (OneForm "login")
                        (steady 1000 empty_store)))
                [("login", cred_at 1000 "r0" "r1")]
                (session_with [("login", [cred_at 1000 "r0" "r1"])]) true
                "login" (cred_at 1000 "r0" "r1")
                [("csrf-r0", VString "r1")])
      as (_ & s1 & pre & cb1 & m1 & w2 & Hf & _ & Hsf & HV & Hoff & _).
    + reflexivity.
    + reflexivity.
    + reflexivity.
    + intros k. reflexivity.
    + reflexivity.
    + intros x. apply String.eqb_refl.
    + destruct (Hoff eq_refl) as [_ (cb2 & m2 & w3 & HV2)].
      exists s1, cb1, m1, w2, cb2, m2, w3. auto.
Defined.

(** C1, refuted as stated, at two inputs, both with [expireAfterUse] on.
    (1) With [tokenLength: 0] and [useName: false], which the
    constructor accepts, every credential has the empty token and no
    name.  [generate] runs twice for ["login"], creating a session and
    then updating it; the credential answered last is submitted under
    its field name and is matched; the same submission, repeated right
    away on the session fetched again from the store, is matched again:
    the other stored credential of the form has the same token.
    (2) With the configuration of the scenario, [generate] runs once in
    a store that then fails every request.  The answered credential is
    submitted and matched, but the update that should remove it fails;
    the same submission, repeated right away on the session fetched
    again from the store, finds the credential still there and is
    matched again. *)
Lemma validate_repeat_matches_again :
  (generate self_empty_tokens None (OneForm "login") (steady 1000 empty_store)
   = (Ok (Generated [("login", cred_empty)]
            (session_with [("login", [cred_empty])]) true),
      snd (generate self_empty_tokens None (OneForm "login")
             (steady 1000 empty_store))) /\
   generate self_empty_tokens
     (Some (session_with [("login", [cred_empty])])) (OneForm "login")
     (snd (generate self_empty_tokens None (OneForm "login")
             (steady 1000 empty_store)))
   = (Ok (Generated [("login", cred_empty)]
            (session_with [("login", [cred_empty; cred_empty])]) false),
      issued_twice) /\
   fetch (luno issued_twice) session_bare
   = Some (session_with [("login", [cred_empty; cred_empty])]) /\
   Config.expireAfterUse self_empty_tokens = true /\
   submitted self_empty_tokens [("csrf-", VString EmptyString)] cred_empty /\
   fst (validate self_empty_tokens scmp_strings "login"
          (Some (session_with [("login", [cred_empty; cred_empty])]))
          (Some [("csrf-", VString EmptyString)]) issued_twice)
   = Ok (true, Validated true (Some (session_with [("login", [cred_empty])])),
         Some (session_with [("login", [cred_empty])])) /\
   fst (validate self_empty_tokens scmp_strings "login"
          (fetch (luno (snd (validate self_empty_tokens scmp_strings "login"
                               (Some (session_with
                                        [("login", [cred_empty; cred_empty])]))
                               (Some [("csrf-", VString EmptyString)])
                               issued_twice)))
             session_bare)
          (Some [("csrf-", VString EmptyString)])
          (snd (validate self_empty_tokens scmp_strings "login"
                  (Some (session_with [("login", [cred_empty; cred_empty])]))
                  (Some [("csrf-", VString EmptyString)]) issued_twice)))
   = Ok (true, Validated true (Some (session_with [("login", [])])),
         Some (session_with [("login", [])]))) /\
  (generate self_scenario None (OneForm "login")
     (steady 1000 (store_failing_from 1))
   = (Ok (Generated [("login", cred_at 1000 "r0" "r1")]
            (session_with [("login", [cred_at 1000 "r0" "r1"])]) true),
      issued_once) /\
   fetch (luno issued_once) session_bare
   = Some (session_with [("login", [cred_at 1000 "r0" "r1"])]) /\
   Config.expireAfterUse self_scenario = true /\
   submitted self_scenario [("csrf-r0", VString "r1")] (cred_at 1000 "r0" "r1") /\
   fst (validate self_scenario scmp_strings "login"
          (Some (session_with [("login", [cred_at 1000 "r0" "r1"])]))
          (Some [("csrf-r0", VString "r1")]) issued_once)
   = Ok (true, ValidateErr "store unavailable",
         Some (session_with [("login", [])])) /\
   fst (validate self_scenario scmp_strings "login"
          (fetch (luno (snd (validate self_scenario scmp_strings "login"
                               (Some (session_with
                                        [("login", [cred_at 1000 "r0" "r1"])]))
                               (Some [("csrf-r0", VString "r1")]) issued_once)))
             session_bare)
          (Some [("csrf-r0", VString "r1")])
          (snd (validate self_scenario scmp_strings "login"
                  (Some (session_with [("login", [cred_at 1000 "r0" "r1"])]))
                  (Some [("csrf-r0", VString "r1")]) issued_once)))
   = Ok (true, ValidateErr "store unavailable",
         Some (session_with [("login", [])]))).
Proof. repeat split. Qed.

(** C2 (as the code has it).  For a session that is absent or has a
    [details] object, lengths the random source serves, requested forms
    whose names [Object.prototype] does not define, and a form [f]
    requested once: [generate] prunes, then works on what pruning left
    for [f] (nothing, if the session had no array), shifts out its first
    and oldest entry if it already holds [maxTokens] entries or more, and
    pushes the new credential; this array is what the one request to the
    store carries and, when the store accepts it, what the store then
    holds for [f].  When the array left by pruning is no longer than
    [maxTokens] and [maxTokens] is at least 1, its new length is
    [min (previous length + 1) maxTokens].
    In particular, under the configuration
    [{tokenLength: 16, maxTokens: 2, expireAfterUse: true}], with a
    random source that serves its lengths, a store that answers and no
    two clock readings further apart than [expiry],
    three successive [generate] calls for ["login"] by a client that
    starts without a session leave the store holding exactly the second
    and the third credential, in this order. *)
Theorem generate_bounded_append :
  (forall self session forms f w,
     usable session -> lengths_ok self w ->
     (forall g, g ∈ forms_array forms -> ordinary g) ->
     count_occ string_dec (forms_array forms) f = 1 ->
     exists sA dA wA cb c r dsent w',
       _expire self session [] w = (Ok (sA, dA), wA) /\
       generate self session forms w = (Ok cb, w') /\
       requests (luno w') = requests (luno w) ++ [r] /\
       sent r = Some dsent /\
       obj_get f dsent
         = Some (evict self (default [] (session_form sA f)) ++ [c]) /\
       (forall resp sess created,
          cb = Generated resp sess created ->
          obj_get f resp = Some c /\
          held w' sess f (evict self (default [] (session_form sA f)) ++ [c])) /\
       ((Z.of_nat (length (default [] (session_form sA f)))
           <= Config.maxTokens self)%Z ->
        (1 <= Config.maxTokens self)%Z ->
        length (evict self (default [] (session_form sA f)) ++ [c])
          = Nat.min (length (default [] (session_form sA f)) + 1)
              (Z.to_nat (Config.maxTokens self)))) /\
  (forall self w,
     CSRF config_scenario = Ok self -> lengths_ok self w -> store_up w ->
     (forall j k, (clock w j <? clock w k - Config.expiry self)%Z = false) ->
     exists r1 s1 w1 r2 s2 w2 r3 s3 w3 c1 c2 c3,
       generate self None (OneForm "login") w
         = (Ok (Generated r1 s1 true), w1) /\
       obj_get "login" r1 = Some c1 /\
       generate self (fetch (luno w1) s1) (OneForm "login") w1
         = (Ok (Generated r2 s2 false), w2) /\
       obj_get "login" r2 = Some c2 /\
       generate self (fetch (luno w2) s2) (OneForm "login") w2
         = (Ok (Generated r3 s3 false), w3) /\
       obj_get "login" r3 = Some c3 /\
       held w3 s3 "login" [c2; c3]).
Proof.
  split.
  - intros self session forms f w Hu Hl Hord Hcount.
    assert (Hin : f ∈ forms_array forms).
    { apply list_elem_of_In, (count_occ_In string_dec). lia. }
    destruct (generate_appends self session forms f w Hu Hl)
      as (sA & dA & n & cb & c & r & dsent & w' & HA & _ & HG & _ & Hreq & Hsent
          & Hd & _ & Hheld & _);
      [intros g Hg; apply ordinary_reads, Hord, Hg
      | apply ordinary_proto, Hord, Hin | exact Hcount |].
    exists sA, dA, (tick n w), cb, c, r, dsent, w'.
    repeat (split; [assumption|]). apply evict_length.
  - intros self w Hself Hl Hup Hclk. injection Hself as <-.
    set (self := {| Config.tokenLength := 16; Config.maxTokens := 2 |}) in *.
    assert (Hlogin : "login" <> "__proto__") by discriminate.
    assert (Hlive : forall w' c, evolves w w' -> (exists k, created c = clock w k) ->
                      forall k, expired_at self (clock w' k) c = false).
    { intros w' c (Hc & _) [j Hj] k. unfold expired_at. rewrite Hc, Hj. apply Hclk. }
    destruct (generate_first self "login" w Hl Hup Hlogin)
      as (r1 & s1 & w1 & c1 & HG1 & Hr1 & Hk1 & He1 & Hh1).
    pose proof (evolves_store_up _ _ He1 Hup) as Hup1.
    pose proof (lengths_ok_evolves self _ _ He1 Hl) as Hl1.
    destruct (generate_step self "login" w1 s1 [c1] Hl1 Hup1 Hlogin Hh1)
      as (r2 & s2 & w2 & c2 & HG2 & Hr2 & [k2 Hk2] & He2 & Hh2).
    { intros c k Hc. apply list_elem_of_In in Hc. destruct Hc as [<-|[]].
      now apply Hlive. }
    pose proof (evolves_trans _ _ _ He1 He2) as He12.
    pose proof (evolves_store_up _ _ He2 Hup1) as Hup2.
    assert (Hk2' : exists k, created c2 = clock w k).
    { destruct He1 as (Hc & _). rewrite Hc in Hk2. eauto. }
    change (evict self [c1] ++ [c2]) with [c1; c2] in Hh2.
    pose proof (lengths_ok_evolves self _ _ He2 Hl1) as Hl2.
    destruct (generate_step self "login" w2 s2 [c1; c2] Hl2 Hup2 Hlogin Hh2)
      as (r3 & s3 & w3 & c3 & HG3 & Hr3 & _ & _ & Hh3).
    { intros c k Hc. apply list_elem_of_In in Hc.
      destruct Hc as [<-|[<-|[]]]; now apply Hlive. }
    change (evict self [c1; c2] ++ [c3]) with [c2; c3] in Hh3.
    exists r1, s1, w1, r2, s2, w2, r3, s3, w3, c1, c2, c3. auto 10.
Qed.

Lemma generate_bounded_append_witness :
  (exists sA dA wA cb c r dsent w',
     _expire Config.defaults
       (Some (session_with [("login", [cred_at 1000 "a" "s"])])) []
       (steady 1000 (store_of [session_with [("login", [cred_at 1000 "a" "s"])]]))
       = (Ok (sA, dA), wA) /\
     generate Config.defaults
       (Some (session_with [("login", [cred_at 1000 "a" "s"])]))
       (FormArray ["signup"; "login"])
       (steady 1000 (store_of [session_with [("login", [cred_at 1000 "a" "s"])]]))
       = (Ok cb, w') /\
     sent r = Some dsent /\
     obj_get "login" dsent
       = Some (evict Config.defaults (default [] (session_form sA "login")) ++ [c]) /\
     length (evict Config.defaults (default [] (session_form sA "login")) ++ [c])
       = Nat.min (length (default [] (session_form sA "login")) + 1) 20) /\
  (exists r1 s1 w1 r2 s2 w2 r3 s3 w3 c1 c2 c3,
     generate self_scenario None (OneForm "login") (steady 1000 empty_store)
       = (Ok (Generated r1 s1 true), w1) /\
     obj_get "login" r1 = Some c1 /\
     generate self_scenario (fetch (luno w1) s1) (OneForm "login") w1
       = (Ok (Generated r2 s2 false), w2) /\
     obj_get "login" r2 = Some c2 /\
     generate self_scenario (fetch (luno w2) s2) (OneForm "login") w2
       = (Ok (Generated r3 s3 false), w3) /\
     obj_get "login" r3 = Some c3 /\
     held w3 s3 "login" [c2; c3]).
Proof.
  split.
  - destruct (proj1 generate_bounded_append Config.defaults
                (Some (session_with [("login", [cred_at 1000 "a" "s"])]))
                (FormArray ["signup"; "login"]) "login"
                (steady 1000
                   (store_of [session_with [("login", [cred_at 1000 "a" "s"])]])))
      as (sA & dA & wA & cb & c & r & dsent & w' & HA & HG & _ & Hs & Hd & _ & Hlen).
    + simpl. discriminate.
    + repeat split; unfold max_size; simpl; lia.
    + intros g Hg. apply list_elem_of_In in Hg.
      destruct Hg as [<-|[<-|[]]]; reflexivity.
    + reflexivity.
    + exists sA, dA, wA, cb, c, r, dsent, w'.
      split; [exact HA|]. split; [exact HG|]. split; [exact Hs|].
      split; [exact Hd|]. apply Hlen; [|simpl; lia].
      assert (HsA : sA = Some (session_with [("login", [cred_at 1000 "a" "s"])]))
        by (vm_compute in HA; injection HA as <- _ _; reflexivity).
      rewrite HsA. simpl. lia.
  - apply (proj2 generate_bounded_append self_scenario (steady 1000 empty_store)).
    + reflexivity.
    + repeat split; unfold max_size; simpl; lia.
    + intros n. reflexivity.
    + intros j k. reflexivity.
Defined.

(** C2, refuted as stated, at four inputs.  The store held the session
    alone, and each call returned after a successful update.
    (1) Two stored credentials, both expired: pruning removes them, and
    the array then holds the new credential alone, not
    [min (2 + 1) 20 = 3].
    (2) [maxTokens = 2] and three unexpired credentials stored: a single
    one is shifted out, so the array still holds three, not
    [min (3 + 1) 2 = 2].
    (3) [maxTokens = 0] and an empty array stored: the array then holds
    one credential, not [min (0 + 1) 0 = 0].
    (4) The form requested twice in one call, one credential stored: the
    array then holds three, not [min (1 + 1) 20 = 2]. *)
Lemma generate_length_differs :
  (login_after Config.defaults
     (session_with [("login", [cred_at 0 "a" "s"; cred_at 1 "b" "t"])])
     (OneForm "login") 90000000
   = Some [cred_at 90000000 "r0" "r1"] /\
   length [cred_at 90000000 "r0" "r1"] <> Nat.min (2 + 1) 20) /\
  (login_after self_scenario session_full (OneForm "login") 1000
   = Some [cred_at 1000 "b" "t"; cred_at 1000 "c" "u"; cred_at 1000 "r0" "r1"] /\
   length [cred_at 1000 "b" "t"; cred_at 1000 "c" "u"; cred_at 1000 "r0" "r1"]
   <> Nat.min (3 + 1) 2) /\
  (login_after self_capacity0 (session_with [("login", [])]) (OneForm "login")
     1000
   = Some [cred_at 1000 "r0" "r1"] /\
   length [cred_at 1000 "r0" "r1"] <> Nat.min (0 + 1) 0) /\
  (login_after Config.defaults (session_with [("login", [cred_at 1000 "a" "s"])])
     (FormArray ["login"; "login"]) 1000
   = Some [cred_at 1000 "a" "s"; cred_at 1000 "r0" "r1"; cred_at 1000 "r2" "r3"] /\
   length [cred_at 1000 "a" "s"; cred_at 1000 "r0" "r1"; cred_at 1000 "r2" "r3"]
   <> Nat.min (1 + 1) 20).
Proof. repeat split; try reflexivity; vm_compute; discriminate. Qed.

(** C3.  Whenever [validate] returns not-matched, the store is exactly
    as it was before the call, so no request was made: this covers an
    absent session, a session without CSRF data for the form, and a
    submission that matches no stored credential, including the calls in
    which pruning removed expired credentials from the session object. *)
Theorem validate_not_matched_no_save (self : Config.t)
    (scmp : Value -> Value -> bool) (form : string)
    (session : option Session.t) (body : option Body) (w : World)
    (cb : ValidateCb) (s' : option Session.t) (w' : World) :
  validate self scmp form session body w = (Ok (false, cb, s'), w') ->
  luno w' = luno w /\ cb = Validated false None.
Proof.
  intros HV.
  destruct (validate_cases self scmp _ _ _ _ _ _ _ _ HV)
    as [(_ & -> & Hl)|[(Habs & _)|(Habs & _)]]; [auto | discriminate..].
Qed.

Lemma validate_not_matched_no_save_witness :
  fst (validate Config.defaults scmp_strings "login"
         (Some (session_with [("login", [cred_at 0 "a" "s"])]))
         (Some [("csrf-a", VString "s")])
         (steady 90000000
            (store_of [session_with [("login", [cred_at 0 "a" "s"])]])))
  = Ok (false, Validated false None, Some (session_with [("login", [])])) /\
  luno (snd (validate Config.defaults scmp_strings "login"
               (Some (session_with [("login", [cred_at 0 "a" "s"])]))
               (Some [("csrf-a", VString "s")])
               (steady 90000000
                  (store_of [session_with [("login", [cred_at 0 "a" "s"])]]))))
  = luno (steady 90000000
            (store_of [session_with [("login", [cred_at 0 "a" "s"])]])).
Proof.
  split; [reflexivity|]. eapply proj1.
  eapply (validate_not_matched_no_save Config.defaults scmp_strings "login"
            (Some (session_with [("login", [cred_at 0 "a" "s"])]))
            (Some [("csrf-a", VString "s")])
            (steady 90000000
               (store_of [session_with [("login", [cred_at 0 "a" "s"])]]))).
  reflexivity.
Defined.

(** C4.  With the clock standing still, pruning a session a second time
    right after a first pruning removes nothing more and reports no
    changed form: the second call returns the session as the first left
    it and leaves [details] empty. *)
Theorem expire_idempotent (self : Config.t) (now : Z)
    (session : option Session.t) (w : World) :
  (forall k, clock w k = now) -> usable session ->
  exists s1 d1 w1 w2,
    _expire self session [] w = (Ok (s1, d1), w1) /\
    _expire self s1 [] w1 = (Ok (s1, []), w2).
Proof.
  intros Hclk Hu. destruct session as [s|].
  - simpl in Hu. destruct (Session.details s) as [dt|] eqn:Hs; [|contradiction].
    destruct (csrf dt) as [d|] eqn:Hdt.
    + destruct (expire_run self s dt d [] w Hs Hdt (agrees_nil d)) as
        (d' & details' & n & Hrun & Hpr & _ & _).
      assert (Hs' : Session.details (set_csrf s d') = Some {| csrf := Some d' |})
        by (unfold set_csrf; now rewrite Hs).
      destruct (expire_run self (set_csrf s d') {| csrf := Some d' |} d' []
                  (tick n w) Hs' eq_refl (agrees_nil d')) as
        (d'' & details'' & m & Hrun' & _ & _ & Hst).
      destruct Hst as [-> ->].
      { intros f l' c k Hf Hl' Hc. simpl. rewrite Hclk.
        specialize (Hpr f). destruct (obj_get f d) as [l|]; [|congruence].
        destruct Hpr as (l1 & Hl1 & Hp). rewrite Hl' in Hl1.
        injection Hl1 as <-.
        rewrite (pruned_const self (clock w) now l l' Hclk Hp) in Hc.
        apply list_elem_of_In, filter_In in Hc as [_ Hc].
        now apply negb_true_iff in Hc. }
      exists (Some (set_csrf s d')), details', (tick n w), (tick m (tick n w)).
      split; [exact Hrun|]. rewrite Hrun'.
      rewrite (set_csrf_same _ _ _ Hs' eq_refl). reflexivity.
    + exists (Some s), [], w, w. unfold _expire. rewrite Hs, Hdt. auto.
  - exists None, [], w, w. auto.
Qed.

Lemma expire_idempotent_witness :
  exists s1 d1 w1 w2,
    _expire Config.defaults
      (Some (session_with
               [("login", [cred_at 0 "a" "s"; cred_at 90000000 "b" "t"]);
                ("signup", [cred_at 1 "c" "u"])]))
      [] (steady 90000000 empty_store) = (Ok (s1, d1), w1) /\
    _expire Config.defaults s1 [] w1 = (Ok (s1, []), w2).
Proof.
  apply (expire_idempotent Config.defaults 90000000).
  - intros k. reflexivity.
  - simpl. discriminate.
Defined.

(** C5, at the failing input.  The clock stands at [now = 100000000]
    and [expiry] is the default [86400000]; the session holds, for the
    form [constructor], one credential created at [now - expiry + 1], and
    the body carries its token under its field name.  Nothing is pruned,
    so nothing is assigned to [details], and [details[form]] is the
    function that the new object [details] inherits under the name
    [constructor]: [validate] throws a TypeError instead of returning
    matched.  The same call for the form [login] returns matched. *)
Theorem expiry_boundary_inherited_form :
  (100000000 - Config.expiry Config.defaults + 1 = 13600001)%Z /\
  validate Config.defaults scmp_strings "constructor"
    (Some (session_with [("constructor", [cred_at 13600001 "b" "t"])]))
    (Some [("csrf-b", VString "t")]) (steady 100000000 empty_store)
  = (Throw (TypeError "Cannot read property 'name' of undefined"),
     tick 1 (steady 100000000 empty_store)) /\
  fst (validate Config.defaults scmp_strings "login"
         (Some (session_with [("login", [cred_at 13600001 "b" "t"])]))
         (Some [("csrf-b", VString "t")])
         (steady 100000000
            (store_of [session_with [("login", [cred_at 13600001 "b" "t"])]])))
  = Ok (true, Validated true (Some (session_with [("login", [])])),
        Some (session_with [("login", [])])).
Proof. repeat split. Qed.

(** C6 (as the code has it).  An invocation of [generate] that returns
    has made exactly one request to the store, however many forms are
    requested, and one that throws has made none. *)
Theorem generate_saves_once (self : Config.t) (session : option Session.t)
    (forms : Forms) (w : World) :
  match generate self session forms w with
  | (Ok _, w') => exists r, requests (luno w') = requests (luno w) ++ [r]
  | (Throw _, w') => requests (luno w') = requests (luno w)
  end.
Proof.
  unfold generate. unfold bind at 1.
  pose proof (silent_expire self session [] w) as HA.
  destruct (_expire self session [] w) as [[[sA dA]|e] wA]; simpl in HA;
    [|now rewrite HA].
  unfold bind at 1.
  pose proof (silent_generate_for self (forms_array forms) sA [] dA wA) as HB.
  destruct (generate_for self (forms_array forms) sA [] dA wA)
    as [[[[sB resp] dB]|e] wB]; simpl in HB; [|now rewrite HB, HA].
  unfold bind.
  destruct (save_one_request sB dB wB) as (cb & r & w' & HS & Hreq & _).
  rewrite HS. destruct cb; simpl; exists r; now rewrite Hreq, HB, HA.
Qed.

Lemma generate_saves_once_witness :
  exists cb w',
    generate Config.defaults None (FormArray ["login"; "signup"; "reset"])
      (steady 1000 empty_store) = (Ok cb, w') /\
    exists r,
      requests (luno w') = requests (luno (steady 1000 empty_store)) ++ [r].
Proof.
  pose proof (generate_saves_once Config.defaults None
                (FormArray ["login"; "signup"; "reset"])
                (steady 1000 empty_store)) as Hone.
  destruct (generate Config.defaults None (FormArray ["login"; "signup"; "reset"])
              (steady 1000 empty_store)) as [[cb|e] w'] eqn:HG;
    [|vm_compute in HG; discriminate].
  exists cb, w'. split; [reflexivity | exact Hone].
Defined.

(** C6, refuted as stated: on a session object without [details],
    [generate] throws in the pruning step, and under a negative
    [tokenLength] it throws when the first credential is drawn; in both
    calls no request reaches the store. *)
Lemma generate_that_throws_saves_nothing :
  (generate Config.defaults (Some session_bare) (FormArray ["login"; "signup"])
     (steady 1000 (store_of [session_bare]))
   = (Throw (TypeError "Cannot read property 'csrf' of undefined"),
      steady 1000 (store_of [session_bare])) /\
   requests (luno (snd (generate Config.defaults (Some session_bare)
                          (FormArray ["login"; "signup"])
                          (steady 1000 (store_of [session_bare]))))) = []) /\
  (fst (generate self_nonpositive None (OneForm "login")
          (steady 1000 empty_store)) = Throw (RangeError "size") /\
   requests (luno (snd (generate self_nonpositive None (OneForm "login")
                          (steady 1000 empty_store)))) = []).
Proof. repeat split. Qed.

(** C7.  [save(session, details)] on an absent session, or on one whose
    [id] is missing or empty, sends one [POST /sessions] carrying the
    details; unless the store fails, the store then holds a new record
    with exactly these CSRF details, and the callback receives that
    record with [created = true].  On a session with an [id] it sends one
    [PATCH /sessions/<id>] carrying the details; unless the store fails,
    the record of that identity holds every array of the details, and the
    callback receives the very session passed in with [created = false].
    A failure of the store is handed to the callback as its error. *)
Theorem save_creates_or_updates (session : option Session.t)
    (details : CsrfDetails) (w : World) :
  let body := {| body_details := {| csrf := Some details |} |} in
  (truthy (session_id session) = false ->
   exists cb w',
     save session details w = (Ok cb, w') /\
     requests (luno w') = requests (luno w) ++ [POST "/sessions" body] /\
     (if outage (luno w) (length (requests (luno w)))
      then exists err, cb = SaveErr err
      else exists sess,
          cb = Saved sess true /\
          Session.details sess = Some {| csrf := Some details |} /\
          sessions (luno w') = sess :: sessions (luno w))) /\
  (forall s i,
     session = Some s -> Session.id s = Some i -> i <> EmptyString ->
     exists cb w',
       save session details w = (Ok cb, w') /\
       requests (luno w') = requests (luno w) ++ [PATCH ("/sessions/" +:+ i) body] /\
       ((exists err, cb = SaveErr err) \/
        (cb = Saved s false /\
         exists s1 dt d1,
           fetch (luno w') s = Some s1 /\
           Session.details s1 = Some dt /\ csrf dt = Some d1 /\
           forall f l, obj_get f details = Some l -> obj_get f d1 = Some l)) /\
       (outage (luno w) (length (requests (luno w))) = false ->
        is_Some (fetch (luno w) s) -> cb = Saved s false)).
Proof.
  intros body. split.
  - intros Ht.
    assert (Hpost : exists cb w',
      (let* r := luno_post "/sessions" body in
       match r with
       | inl err => ret (SaveErr err)
       | inr sess => ret (Saved sess true)
       end) w = (Ok cb, w') /\
      requests (luno w') = requests (luno w) ++ [POST "/sessions" body] /\
      (if outage (luno w) (length (requests (luno w)))
       then exists err, cb = SaveErr err
       else exists sess,
           cb = Saved sess true /\
           Session.details sess = Some {| csrf := Some details |} /\
           sessions (luno w') = sess :: sessions (luno w))).
    { unfold bind, luno_post, ret.
      destruct (outage (luno w) (length (requests (luno w)))).
      - eexists _, _. split; [reflexivity|]. split; [reflexivity|]. eauto.
      - eexists _, _. split; [reflexivity|]. split; [reflexivity|].
        eexists. repeat split. }
    unfold save. fold body. destruct session as [s|]; [|exact Hpost].
    simpl in Ht. rewrite Ht. exact Hpost.
  - intros s i -> Hi Hne.
    assert (Ht : truthy (Session.id s) = true).
    { rewrite Hi. simpl. destruct (String.eqb_spec i EmptyString);
        [contradiction | reflexivity]. }
    destruct (save_one_request (Some s) details w) as
      (cb & r & w' & HS & Hreq & _).
    exists cb, w'. split; [exact HS|].
    pose proof HS as HS'. unfold save in HS'. rewrite Ht, Hi in HS'.
    simpl in HS'. fold body in HS'. unfold bind, luno_patch, ret in HS'.
    split; [|split].
    + destruct (outage (luno w) (length (requests (luno w))));
        [|destruct (patch_sessions _ _ _ _)];
        injection HS' as <- <-; reflexivity.
    + destruct cb as [err|sess created]; [eauto|]. right.
      assert (sess = s /\ created = false) as [-> ->].
      { destruct (outage (luno w) (length (requests (luno w))));
          [|destruct (patch_sessions _ _ _ _)];
          inversion HS'; auto. }
      split; [reflexivity|].
      destruct (save_stored _ _ _ _ _ _ HS)
        as (s1 & dt & d1 & Hf & _ & _ & Hdt & Hd1 & Hall).
      eauto 10.
    + intros Ho [r0 Hr0].
      destruct (save_patch_ok s r0 details w Ht Hr0 Ho) as (w'' & HS'' & _).
      rewrite HS in HS''. now injection HS'' as -> _.
Qed.

Lemma save_creates_or_updates_witness :
  (exists cb w',
     save None [("login", [cred_at 1000 "n" "t"])] (steady 1000 empty_store)
       = (Ok cb, w') /\
     exists sess,
       cb = Saved sess true /\
       Session.details sess
         = Some {| csrf := Some [("login", [cred_at 1000 "n" "t"])] |}) /\
  (exists cb w',
     save (Some (session_with [])) [("login", [cred_at 1000 "n" "t"])]
       (steady 1000 (store_of [session_with []])) = (Ok cb, w') /\
     cb = Saved (session_with []) false).
Proof.
  split.
  - destruct (save_creates_or_updates None [("login", [cred_at 1000 "n" "t"])]
                (steady 1000 empty_store)) as [Hcreate _].
    destruct (Hcreate eq_refl) as (cb & w' & HS & _ & Hcb).
    exists cb, w'. split; [exact HS|].
    simpl in Hcb. destruct Hcb as (sess & Hsess & Hd & _). eauto.
  - destruct (save_creates_or_updates (Some (session_with []))
                [("login", [cred_at 1000 "n" "t"])]
                (steady 1000 (store_of [session_with []]))) as [_ Hupdate].
    destruct (Hupdate (session_with []) "sess_0" eq_refl eq_refl
                ltac:(discriminate)) as (cb & w' & HS & _ & _ & Hup).
    exists cb, w'. split; [exact HS|]. apply Hup; [reflexivity|].
    vm_compute. eauto.
Defined.




(** C9 (as the code has it).  The constructor checks nothing: for every
    [config] it returns normally, and each supplied value, whatever its
    sign, is the one the object holds; a missing value is the default.
    A negative [tokenLength] surfaces only later, as the exception of the
    random source at the first [generate]. *)
Theorem CSRF_accepts_every_configuration (config : Config.overrides) :
  exists self,
    CSRF config = Ok self /\
    Config.tokenLength self = default 30%Z (Config.o_tokenLength config) /\
    Config.nameLength self = default 12%Z (Config.o_nameLength config) /\
    Config.maxTokens self = default 20%Z (Config.o_maxTokens config) /\
    Config.expiry self = default 86400000%Z (Config.o_expiry config) /\
    ((Config.tokenLength self < 0)%Z ->
     forall f w, exists e w',
       generate self None (OneForm f) w = (Throw e, w') /\
       requests (luno w') = requests (luno w)).
Proof.
  eexists. split; [reflexivity|].
  repeat (split; [reflexivity|]).
  match goal with |- context [generate ?s] => generalize s end.
  intros self Hneg f w.
  pose proof (silent_generate_for self [f] None [] [] w) as Hs.
  unfold generate, bind, _expire, ret. simpl forms_array.
  destruct (generate_for self [f] None [] [] w) as [[[[sB resp] dB]|e] wB]
    eqn:HG.
  - exfalso.
    destruct (generate_for_inv self _ None [] _ _ _ _ _ _ I eq_refl HG)
      as (_ & _ & Hl & _).
    destruct (Hl ltac:(discriminate)) as [[Hlo _] _]. lia.
  - exists e, wB. split; [reflexivity|]. simpl in Hs. now rewrite Hs.
Qed.

Lemma CSRF_accepts_every_configuration_witness :
  exists e w',
    generate
self_nonpositive
      None (OneForm "login") (steady 1000 empty_store) = (Throw e, w') /\
    requests (luno w') = requests (luno (steady 1000 empty_store)).
Proof.
  destruct (CSRF_accepts_every_configuration config_nonpositive)
    as (self & Hself & _ & _ & _ & _ & Hlate).
  injection Hself as <-.
  apply (Hlate ltac:(simpl; lia) "login" (steady 1000 empty_store)).
Defined.

(** C9, refuted as stated: a configuration with a negative [tokenLength],
    a zero [nameLength], a zero [maxTokens] and a negative [expiry] is
    not rejected; construction returns the object holding these values. *)
Lemma CSRF_rejects_nothing :
  CSRF config_nonpositive
  = Ok self_nonpositive.
Proof. reflexivity. Qed.

(** C10.  [generate] on a session object that has no [details] property
    throws a TypeError in the pruning step, before anything reaches the
    store.  A session whose [details] object exists but has no [csrf]
    field is tolerated as an empty mapping: pruning returns with nothing
    changed, and, the random source serving the configured lengths,
    [generate] returns after one request to the store, in which a form
    requested once, other than [__proto__], holds the new credential
    alone. *)
Theorem generate_needs_session_details (self : Config.t) (s : Session.t)
    (forms : Forms) (w : World) :
  (Session.details s = None ->
   generate self (Some s) forms w
     = (Throw (TypeError "Cannot read property 'csrf' of undefined"), w)) /\
  (forall dt f,
     Session.details s = Some dt -> csrf dt = None ->
     _expire self (Some s) [] w = (Ok (Some s, []), w) /\
     (lengths_ok self w -> f <> "__proto__" ->
      count_occ string_dec (forms_array forms) f = 1 ->
      exists cb w' r d c,
        generate self (Some s) forms w = (Ok cb, w') /\
        requests (luno w') = requests (luno w) ++ [r] /\
        sent r = Some d /\ obj_get f d = Some [c])).
Proof.
  split.
  - intros Hs. unfold generate, bind, _expire. now rewrite Hs.
  - intros dt f Hs Hdt.
    assert (HE : _expire self (Some s) [] w = (Ok (Some s, []), w)).
    { unfold _expire. now rewrite Hs, Hdt. }
    split; [exact HE|]. intros Hl Hproto Hcount.
    assert (Hu : usable (Some s)) by (simpl; congruence).
    assert (Hforms : forall g, g ∈ forms_array forms ->
                       ~ reads_inherited (Some s) g).
    { intros g _ [p Hp]. simpl in Hp. rewrite Hs, Hdt in Hp. discriminate. }
    destruct (generate_for_once self (forms_array forms) f (Some s) [] [] w
                Hu Hl Hforms Hproto Hcount)
      as (sB & resp & dB & wB & c & HB & _ & _ & Hd).
    destruct (save_one_request sB dB wB) as (cb & r & w' & HS & Hreq & Hsent & _).
    destruct (generate_for_run self (forms_array forms) (Some s) [] [] w Hu Hl
                Hforms)
      as (sB' & resp' & dB' & wB' & HB' & (_ & _ & Hq) & _).
    rewrite HB in HB'. injection HB' as <- <- <- <-.
    exists (match cb with
            | SaveErr err => GenerateErr err
            | Saved sess created => Generated resp sess created
            end), w', r, dB, c.
    split; [|split; [|split]].
    + unfold generate, bind. rewrite HE, HB, HS. destruct cb; reflexivity.
    + now rewrite Hreq, Hq.
    + assumption.
    + rewrite Hd. simpl. rewrite Hs, Hdt. simpl. unfold evict. simpl.
      now destruct (Config.maxTokens self <=? Z.of_nat 0)%Z.
Qed.

Lemma generate_needs_session_details_witness :
  generate Config.defaults (Some session_bare) (OneForm "login")
    (steady 1000 empty_store)
  = (Throw (TypeError "Cannot read property 'csrf' of undefined"),
     steady 1000 empty_store) /\
  (exists cb w' r d c,
     generate Config.defaults (Some session_blank) (OneForm "login")
       (steady 1000 (store_of [session_blank])) = (Ok cb, w') /\
     requests (luno w')
       = requests (luno (steady 1000 (store_of [session_blank]))) ++ [r] /\
     sent r = Some d /\ obj_get "login" d = Some [c]).
Proof.
  split.
  - apply (generate_needs_session_details Config.defaults session_bare
             (OneForm "login") (steady 1000 empty_store)).
    reflexivity.
  - apply (proj2 (generate_needs_session_details Config.defaults session_blank
                    (OneForm "login") (steady 1000 (store_of [session_blank])))
             {| csrf := None |} "login" eq_refl eq_refl).
    + repeat split; unfold max_size; simpl; lia.
    + discriminate.
    + reflexivity.
Defined.

(** * Further properties of the module *)

(** ** Pruning *)

Section PruningFacts.

Variable self : Config.t.

Lemma pruned_sublist (clk : nat -> Z) (l l' : list Credential) :
  pruned self clk l l' -> sublist l' l.
Proof.
  induction 1; [constructor | now apply sublist_skip | now apply sublist_cons].
Qed.

Lemma pruned_kept_live (clk : nat -> Z) (l l' : list Credential)
    (c : Credential) :
  pruned self clk l l' -> c ∈ l' -> exists k, expired_at self (clk k) c = false.
Proof.
  induction 1 as [|c0 l l' Hk H IH|c0 l l' Hk H IH]; intros Hc.
  - inversion Hc.
  - apply elem_of_cons in Hc as [->|Hc]; auto.
  - auto.
Qed.

(** X1.  On a session that is absent or has a [details] object,
    [_expire] returns, whatever the clock does: it has not reached the
    store and the session keeps its identity.  No form disappears, not
    even one whose credentials are all removed, which keeps an empty
    array.  What is left of an array is in the order it had, holds every
    credential that no reading of the clock finds expired, and holds no
    credential that every reading finds expired. *)
Theorem expire_keeps_forms_and_order (session : option Session.t) (w : World) :
  usable session ->
  exists session' details' w',
    _expire self session [] w = (Ok (session', details'), w') /\
    luno w' = luno w /\ session_id session' = session_id session /\
    forall f,
      match session_form session f with
      | Some l =>
          exists l',
            session_form session' f = Some l' /\ sublist l' l /\
            (forall c, c ∈ l ->
               (forall k, expired_at self (clock w k) c = false) -> c ∈ l') /\
            (forall c, c ∈ l' ->
               exists k, expired_at self (clock w k) c = false)
      | None => session_form session' f = None
      end.
Proof.
  intros Hu.
  destruct (expire_usable self session w Hu)
    as (session' & details' & n & HE & _ & Hid & _ & Hform).
  exists session', details', (tick n w).
  split; [exact HE|]. split; [reflexivity|]. split; [exact Hid|].
  intros f. specialize (Hform f).
  destruct (session_form session f) as [l|]; [|exact Hform].
  destruct Hform as (l' & Hl' & Hp). exists l'.
  split; [exact Hl'|]. split; [eapply pruned_sublist; exact Hp|]. split.
  - intros c Hc Hlive. eapply pruned_keeps_live; eassumption.
  - intros c Hc. eapply pruned_kept_live; eassumption.
Qed.

End PruningFacts.

Lemma expire_keeps_forms_and_order_witness :
  exists session' details' w',
    _expire Config.defaults
      (Some (session_with [("login", [cred_at 0 "a" "s"]);
                           ("signup", [cred_at 90000000 "b" "t"])]))
      [] (steady 90000000 empty_store) = (Ok (session', details'), w') /\
    session_form session' "login" = Some [] /\
    session_form session' "signup" = Some [cred_at 90000000 "b" "t"].
Proof.
  destruct (expire_keeps_forms_and_order Config.defaults
              (Some (session_with [("login", [cred_at 0 "a" "s"]);
                                   ("signup", [cred_at 90000000 "b" "t"])]))
              (steady 90000000 empty_store))
    as (session' & details' & w' & HE & _ & _ & Hform).
  - simpl. discriminate.
  - exists session', details', w'. split; [exact HE|].
    vm_compute in HE. injection HE as <- _ _. split; reflexivity.
Defined.

Section SteadyClock.

Variable self : Config.t.
Variable now : Z.

Lemma unexpired_all (l : list Credential) :
  none_expired self now l = true -> unexpired self now l = l.
Proof.
  unfold none_expired, unexpired. induction l as [|c l IH]; simpl; [reflexivity|].
  intros H. apply andb_true_iff in H as [Hc Hl]. rewrite Hc. f_equal. auto.
Qed.

Lemma unexpired_some (l : list Credential) :
  none_expired self now l = false -> length (unexpired self now l) < length l.
Proof.
  unfold none_expired, unexpired. induction l as [|c l IH]; simpl; [discriminate|].
  intros H. destruct (negb (expired_at self now c)); simpl in *.
  - apply IH in H. lia.
  - pose proof (filter_length_le (fun c => negb (expired_at self now c)) l). lia.
Qed.

Lemma none_expired_unexpired (l : list Credential) :
  none_expired self now (unexpired self now l) = true.
Proof.
  unfold none_expired, unexpired. apply forallb_forall.
  intros c Hc. now apply filter_In in Hc.
Qed.

Lemma pruned_unexpired (clk : nat -> Z) (l l' : list Credential) :
  (forall k, clk k = now) -> pruned self clk l l' -> l' = unexpired self now l.
Proof. apply pruned_const. Qed.

(** The array loop under a steady clock. *)
Lemma expire_array_steady (i : string) (l : list Credential)
    (details : CsrfDetails) (w : World) :
  (forall k, clock w k = now) ->
  expire_while self i (length l) l details w
    = (Ok (unexpired self now l,
           if none_expired self now l then details
           else obj_set i (unexpired self now l) details),
       tick (length l) w).
Proof.
  intros Hclk.
  destruct (expire_array_run self i l details w) as (l' & details' & Hrun & Hp & Hd).
  rewrite Hrun. apply (pruned_unexpired _ _ _ Hclk) in Hp. subst l'.
  destruct (none_expired self now l) eqn:E.
  - rewrite (unexpired_all _ E) in *.
    destruct Hd as [[_ ->]|[Hlt _]]; [reflexivity | lia].
  - apply unexpired_some in E.
    destruct Hd as [[Heq _]|[_ ->]]; [rewrite Heq in E; lia | reflexivity].
Qed.

(** The loop over the forms under a steady clock: a form outside [keys]
    is untouched in both objects; a form of [keys] holds what is
    unexpired of its array, and [details] holds that same array exactly
    when something was removed from it. *)
Lemma expire_for_in_steady (keys : list string) :
  forall (d details : CsrfDetails) (w : World),
    (forall k, clock w k = now) ->
    (forall i, i ∈ keys -> is_Some (obj_get i d)) ->
    exists d' details' n,
      expire_for_in self keys d details w = (Ok (d', details'), tick n w) /\
      forall f,
        (f ∉ keys ->
         obj_get f d' = obj_get f d /\ obj_get f details' = obj_get f details) /\
        (f ∈ keys -> forall l, obj_get f d = Some l ->
         obj_get f d' = Some (unexpired self now l) /\
         obj_get f details'
           = if none_expired self now l then obj_get f details
             else Some (unexpired self now l)).
Proof.
  induction keys as [|i keys IH]; intros d details w Hclk Hdom.
  - exists d, details, 0. simpl. rewrite tick_0. split; [reflexivity|].
    intros f. split; [auto|]. intros Hf. inversion Hf.
  - destruct (Hdom i) as [l Hl]; [left|].
    simpl. rewrite Hl. unfold bind. rewrite (expire_array_steady i l details w Hclk).
    set (l1 := unexpired self now l).
    set (details1 := if none_expired self now l then details
                     else obj_set i l1 details).
    assert (Hdom1 : forall i', i' ∈ keys -> is_Some (obj_get i' (obj_set i l1 d))).
    { intros i' Hi'. apply obj_get_set_is_Some, Hdom. now right. }
    destruct (IH (obj_set i l1 d) details1 (tick (length l) w) Hclk Hdom1)
      as (d' & details' & n & Hrun & Hall).
    exists d', details', (n + length l). rewrite Hrun, tick_tick.
    split; [reflexivity|].
    assert (Hd1 : forall f, i <> f -> obj_get f details1 = obj_get f details).
    { intros f Hne. subst details1. destruct (none_expired self now l);
        [reflexivity | now apply obj_get_set_ne]. }
    assert (Hi1 : obj_get i details1
                  = if none_expired self now l then obj_get i details
                    else Some l1).
    { subst details1. destruct (none_expired self now l);
        [reflexivity | apply obj_get_set_eq]. }
    intros f. destruct (Hall f) as [Hout Hin]. split.
    + intros Hf.
      assert (Hne : i <> f) by (intros ->; apply Hf; left).
      destruct Hout as [Hd' Hdet']; [intros Hc; apply Hf; now right|].
      rewrite Hd', Hdet', Hd1 by assumption.
      now rewrite obj_get_set_ne.
    + intros Hf l0 Hl0.
      destruct (decide (f ∈ keys)) as [Hk|Hk].
      * destruct (String.eqb_spec i f) as [->|Hne].
        -- rewrite Hl in Hl0. injection Hl0 as <-.
           destruct (Hin Hk l1 (obj_get_set_eq _ _ _)) as [Hd' Hdet'].
           subst l1. rewrite Hd', Hdet', none_expired_unexpired, Hi1.
           rewrite (unexpired_all _ (none_expired_unexpired l)).
           split; reflexivity.
        -- destruct (Hin Hk l0) as [Hd' Hdet'];
             [now rewrite obj_get_set_ne|].
           rewrite Hd', Hdet', Hd1 by assumption. split; reflexivity.
      * apply elem_of_cons in Hf as [->|Hf]; [|contradiction].
        rewrite Hl in Hl0. injection Hl0 as <-.
        destruct (Hout Hk) as [Hd' Hdet'].
        rewrite Hd', Hdet', Hi1, obj_get_set_eq. split; reflexivity.
Qed.

(** [_expire] under a steady clock, on a session with a CSRF object. *)
Lemma expire_steady (s : Session.t) (dt : Details) (d : CsrfDetails)
    (w : World) :
  (forall k, clock w k = now) ->
  Session.details s = Some dt -> csrf dt = Some d ->
  exists d' details' n,
    _expire self (Some s) [] w
      = (Ok (Some (set_csrf s d'), details'), tick n w) /\
    forall f,
      obj_get f d' = unexpired self now <$> obj_get f d /\
      obj_get f details' = pruning_report self now (obj_get f d).
Proof.
  intros Hclk Hs Hdt. unfold _expire. rewrite Hs, Hdt. unfold bind.
  destruct (expire_for_in_steady (obj_keys d) d [] w Hclk (obj_keys_get d))
    as (d' & details' & n & Hrun & Hall).
  rewrite Hrun. exists d', details', n. split; [reflexivity|].
  intros f. destruct (Hall f) as [Hout Hin].
  destruct (obj_get f d) as [l|] eqn:Hl; simpl.
  - destruct (Hin (obj_get_keys _ _ _ Hl) l eq_refl) as [-> ->].
    split; [reflexivity|]. now destruct (none_expired self now l).
  - destruct Hout as [-> ->].
    + intros Hf. apply obj_keys_get in Hf as [v Hv]. congruence.
    + split; reflexivity.
Qed.

End SteadyClock.

(** X2.  With the clock standing at [now], [_expire] leaves in every
    array of the session exactly the credentials with
    [created >= now - expiry], in their order, and assigns to [details]
    exactly the forms from which it removed something, each with the
    array it left. *)
Theorem expire_reports_changed_forms (self : Config.t) (now : Z)
    (s : Session.t) (dt : Details) (d : CsrfDetails) (w : World) :
  (forall k, clock w k = now) ->
  Session.details s = Some dt -> csrf dt = Some d ->
  exists session' details' w',
    _expire self (Some s) [] w = (Ok (session', details'), w') /\
    forall f,
      session_form session' f = unexpired self now <$> obj_get f d /\
      obj_get f details' = pruning_report self now (obj_get f d).
Proof.
  intros Hclk Hs Hdt.
  destruct (expire_steady self now s dt d w Hclk Hs Hdt)
    as (d' & details' & n & HE & Hall).
  exists (Some (set_csrf s d')), details', (tick n w). split; [exact HE|].
  intros f. destruct (Hall f) as [Hd' Hdet]. split; [|exact Hdet].
  unfold set_csrf. rewrite Hs. simpl. exact Hd'.
Qed.

Lemma expire_reports_changed_forms_witness :
  exists session' details' w',
    _expire Config.defaults
      (Some (session_with [("login", [cred_at 0 "a" "s"; cred_at 90000000 "b" "t"]);
                           ("signup", [cred_at 90000000 "c" "u"])]))
      [] (steady 90000000 empty_store) = (Ok (session', details'), w') /\
    session_form session' "login" = Some [cred_at 90000000 "b" "t"] /\
    obj_get "login" details' = Some [cred_at 90000000 "b" "t"] /\
    obj_get "signup" details' = None.
Proof.
  destruct (expire_reports_changed_forms Config.defaults 90000000
              (session_with [("login", [cred_at 0 "a" "s"; cred_at 90000000 "b" "t"]);
                             ("signup", [cred_at 90000000 "c" "u"])])
              {| csrf := Some [("login", [cred_at 0 "a" "s"; cred_at 90000000 "b" "t"]);
                               ("signup", [cred_at 90000000 "c" "u"])] |}
              [("login", [cred_at 0 "a" "s"; cred_at 90000000 "b" "t"]);
               ("signup", [cred_at 90000000 "c" "u"])]
              (steady 90000000 empty_store))
    as (session' & details' & w' & HE & Hall);
    [intros k; reflexivity | reflexivity | reflexivity |].
  exists session', details', w'. split; [exact HE|].
  destruct (Hall "login") as [H1 H2]. destruct (Hall "signup") as [_ H3].
  rewrite H1, H2, H3. repeat split.
Defined.

(** ** What [generate] answers and sends *)

(** A form named [__proto__] is drawn for and then lost: the answer and
    the request to the store hold the other form alone. *)
Example generate_loses_proto_form :
  fst (generate Config.defaults None (FormArray ["__proto__"; "login"])
         (steady 1000 empty_store))
  = Ok (Generated [("login", cred_at 1000 "r2" "r3")]
          (session_with [("login", [cred_at 1000 "r2" "r3"])]) true) /\
  requests (luno (snd (generate Config.defaults None
                         (FormArray ["__proto__"; "login"])
                         (steady 1000 empty_store))))
  = [POST "/sessions"
       {| body_details :=
            {| csrf := Some [("login", [cred_at 1000 "r2" "r3"])] |} |}].
Proof. split; reflexivity. Qed.

(** X3.  When [generate] hands credentials to its callback, the answer
    has as its own properties exactly the forms that were requested,
    one credential each, save [__proto__]: an assignment under that
    name replaces the prototype of the answer and adds no property.  The
    single request it made to the store carries every answered
    credential as the last entry of its form's array, also when a form
    is named several times. *)
Theorem generate_answers_requested_forms (self : Config.t)
    (session : option Session.t) (forms : Forms) (w w1 : World)
    (resp : Obj Credential) (sess : Session.t) (created : bool) :
  generate self session forms w = (Ok (Generated resp sess created), w1) ->
  exists r dsent,
    requests (luno w1) = requests (luno w) ++ [r] /\ sent r = Some dsent /\
    forall f,
      (is_Some (obj_get f resp)
       <-> f ∈ forms_array forms /\ f <> "__proto__") /\
      (forall c, obj_get f resp = Some c ->
         exists pre, obj_get f dsent = Some (pre ++ [c])).
Proof.
  intros HG.
  destruct (generate_inv self session forms w w1 _ HG)
    as (_ & sA & dA & n & sB & resp' & dB & wB & scb & r & _ & HuA & HB & _
        & Hcb & Hreq & Hsent).
  destruct scb as [err|sess' created']; [discriminate|].
  injection Hcb as <- <- <-.
  destruct (generate_for_inv self _ _ [] _ _ _ _ _ _ HuA eq_refl HB)
    as (_ & _ & _ & _ & Hkeys & Hans & _).
  exists r, dB. split; [exact Hreq|]. split; [exact Hsent|].
  intros f. split.
  - rewrite Hkeys. split; [|auto].
    intros [[c Hc]|H]; [discriminate | exact H].
  - intros c Hc. apply Hans; [|exact Hc]. intros g c0. discriminate.
Qed.

Lemma generate_answers_requested_forms_witness :
  exists r dsent,
    requests (luno (snd (generate Config.defaults None
                           (FormArray ["login"; "signup"; "login"])
                           (steady 1000 empty_store)))) = [] ++ [r] /\
    sent r = Some dsent /\
    obj_get "login" dsent = Some [cred_at 1000 "r4" "r5"] /\
    obj_get "signup" dsent = Some [cred_at 1000 "r2" "r3"].
Proof.
  destruct (generate_answers_requested_forms Config.defaults None
              (FormArray ["login"; "signup"; "login"]) (steady 1000 empty_store)
              (snd (generate Config.defaults None
                      (FormArray ["login"; "signup"; "login"])
                      (steady 1000 empty_store)))
              [("login", cred_at 1000 "r4" "r5"); ("signup", cred_at 1000 "r2" "r3")]
              (Session.mk (Some "sess_0") "key_0"
                 (Some {| csrf := Some [("login", [cred_at 1000 "r4" "r5"]);
                                        ("signup", [cred_at 1000 "r2" "r3"])] |}))
              true eq_refl)
    as (r & dsent & Hreq & Hsent & Hall).
  exists r, dsent. split; [exact Hreq|]. split; [exact Hsent|].
  vm_compute in Hreq. injection Hreq as <-.
  vm_compute in Hsent. injection Hsent as <-. split; reflexivity.
Defined.

(** X4.  With the clock standing at [now], the request [generate] makes
    carries, for a form that was not requested, the pruned array of the
    form when pruning removed something from it and nothing otherwise:
    besides the requested forms, which it always carries unless the
    name is [__proto__], only the forms changed by pruning are sent. *)
Theorem generate_sends_touched_forms (self : Config.t) (now : Z)
    (session : option Session.t) (forms : Forms) (w w1 : World)
    (cb : GenerateCb) :
  (forall k, clock w k = now) ->
  generate self session forms w = (Ok cb, w1) ->
  exists r dsent,
    requests (luno w1) = requests (luno w) ++ [r] /\ sent r = Some dsent /\
    (forall g, g ∉ forms_array forms ->
       obj_get g dsent = pruning_report self now (session_form session g)) /\
    (forall g, g ∈ forms_array forms -> g <> "__proto__" ->
       is_Some (obj_get g dsent)).
Proof.
  intros Hclk HG.
  destruct (generate_inv self session forms w w1 _ HG)
    as (Hu & sA & dA & n & sB & resp & dB & wB & scb & r & HA & HuA & HB & _
        & _ & Hreq & Hsent).
  destruct (generate_for_inv self _ _ [] _ _ _ _ _ _ HuA eq_refl HB)
    as (_ & _ & _ & Hout & Hkeys & Hans & _).
  exists r, dB. split; [exact Hreq|]. split; [exact Hsent|]. split.
  - intros g Hg. destruct (Hout g Hg) as [-> _].
    destruct session as [s|].
    + simpl in Hu. destruct (Session.details s) as [dt|] eqn:Hs; [|contradiction].
      destruct (csrf dt) as [d|] eqn:Hdt.
      * destruct (expire_steady self now s dt d w Hclk Hs Hdt)
          as (d' & details' & m & HE & Hall).
        rewrite HA in HE. injection HE as _ -> _.
        destruct (Hall g) as [_ ->]. simpl. now rewrite Hs, Hdt.
      * unfold _expire in HA. rewrite Hs, Hdt in HA. injection HA as _ <- _.
        simpl. now rewrite Hs, Hdt.
    + simpl in HA. injection HA as _ <- _. reflexivity.
  - intros g Hg Hproto.
    assert (Hr : is_Some (obj_get g resp)) by (apply Hkeys; now right).
    destruct Hr as [c Hc].
    destruct (Hans ltac:(intros f c0; discriminate) g c Hc) as [pre ->]. eauto.
Qed.

Lemma generate_sends_touched_forms_witness :
  exists r dsent,
    requests (luno (snd (generate Config.defaults
                           (Some (session_with
                                    [("login", [cred_at 90000000 "a" "s"]);
                                     ("signup", [cred_at 0 "b" "t"]);
                                     ("reset", [cred_at 90000000 "c" "u"])]))
                           (OneForm "login")
                           (steady 90000000
                              (store_of
                                 [session_with
                                    [("login", [cred_at 90000000 "a" "s"]);
                                     ("signup", [cred_at 0 "b" "t"]);
                                     ("reset", [cred_at 90000000 "c" "u"])]])))))
      = [] ++ [r] /\
    sent r = Some dsent /\
    obj_get "signup" dsent = Some [] /\ obj_get "reset" dsent = None.
Proof.
  destruct (generate_sends_touched_forms Config.defaults 90000000
              (Some (session_with [("login", [cred_at 90000000 "a" "s"]);
                                   ("signup", [cred_at 0 "b" "t"]);
                                   ("reset", [cred_at 90000000 "c" "u"])]))
              (OneForm "login")
              (steady 90000000
                 (store_of [session_with [("login", [cred_at 90000000 "a" "s"]);
                                          ("signup", [cred_at 0 "b" "t"]);
                                          ("reset", [cred_at 90000000 "c" "u"])]]))
              _ _ ltac:(intros k; reflexivity) (surjective_pairing _))
    as (r & dsent & Hreq & Hsent & Hout & _).
  exists r, dsent. split; [exact Hreq|]. split; [exact Hsent|]. split.
  - rewrite Hout; [reflexivity|].
    intros H. apply list_elem_of_In in H. destruct H as [H|[]]. discriminate.
  - rewrite Hout; [reflexivity|].
    intros H. apply list_elem_of_In in H. destruct H as [H|[]]. discriminate.
Defined.

(** X5.  [generate] keeps the bound: when [maxTokens] is at least 1 and
    no array of the session holds more than [maxTokens] credentials, no
    array of the request it makes holds more than [maxTokens] either,
    whatever is requested, also with a form named several times. *)
Theorem generate_keeps_capacity (self : Config.t)
    (session : option Session.t) (forms : Forms) (w w1 : World)
    (cb : GenerateCb) :
  (1 <= Config.maxTokens self)%Z ->
  (forall g l, session_form session g = Some l ->
     (Z.of_nat (length l) <= Config.maxTokens self)%Z) ->
  generate self session forms w = (Ok cb, w1) ->
  exists r dsent,
    requests (luno w1) = requests (luno w) ++ [r] /\ sent r = Some dsent /\
    within_capacity self dsent.
Proof.
  intros Hpos Hcap HG.
  destruct (generate_inv self session forms w w1 _ HG)
    as (Hu & sA & dA & n & sB & resp & dB & wB & scb & r & HA & HuA & HB & _
        & _ & Hreq & Hsent).
  destruct (generate_for_inv self _ _ [] _ _ _ _ _ _ HuA eq_refl HB)
    as (_ & _ & _ & _ & _ & _ & Hkeep).
  exists r, dB. split; [exact Hreq|]. split; [exact Hsent|].
  assert (HcapA : (forall g l, session_form sA g = Some l ->
                     (Z.of_nat (length l) <= Config.maxTokens self)%Z) /\
                  within_capacity self dA).
  { destruct session as [s|].
    - simpl in Hu. destruct (Session.details s) as [dt|] eqn:Hs; [|contradiction].
      destruct (csrf dt) as [d|] eqn:Hdt.
      + destruct (expire_run self s dt d [] w Hs Hdt (agrees_nil d))
          as (d' & details' & m & HE & Hpr & Hag & _).
        rewrite HA in HE. injection HE as -> -> _.
        assert (Hd' : forall g l, obj_get g d' = Some l ->
                        (Z.of_nat (length l) <= Config.maxTokens self)%Z).
        { intros g l' Hl'. specialize (Hpr g).
          destruct (obj_get g d) as [l|] eqn:Hl; [|congruence].
          destruct Hpr as (l1 & Hl1 & Hp). rewrite Hl' in Hl1.
          injection Hl1 as <-. apply pruned_length in Hp.
          specialize (Hcap g l). simpl in Hcap. rewrite Hs, Hdt in Hcap.
          specialize (Hcap Hl). lia. }
        split.
        * intros g l. unfold set_csrf. rewrite Hs. simpl. apply Hd'.
        * intros g l Hl. apply (Hd' g). now apply Hag.
      + unfold _expire in HA. rewrite Hs, Hdt in HA. injection HA as <- <- _.
        split; [exact Hcap | intros g l; discriminate].
    - simpl in HA. injection HA as <- <- _.
      split; [exact Hcap | intros g l; discriminate]. }
  destruct HcapA as [HsA HdA]. now apply Hkeep.
Qed.

Lemma generate_keeps_capacity_witness :
  exists r dsent,
    requests (luno (snd (generate self_scenario
                           (Some (session_with
                                    [("login", [cred_at 1000 "a" "s";
                                                cred_at 1000 "b" "t"])]))
                           (FormArray ["login"; "login"; "login"])
                           (steady 1000
                              (store_of
                                 [session_with
                                    [("login", [cred_at 1000 "a" "s";
                                                cred_at 1000 "b" "t"])]])))))
      = [] ++ [r] /\
    sent r = Some dsent /\ within_capacity self_scenario dsent.
Proof.
  match goal with
  | |- context [generate ?c ?s ?f ?w] =>
      destruct (generate c s f w) as [[cb|e] w1] eqn:HG;
        [|vm_compute in HG; discriminate]
  end.
  apply (generate_keeps_capacity self_scenario _ _ _ w1 cb) in HG;
    [exact HG | simpl; lia |].
  intros g l.
  change (obj_get g [("login", [cred_at 1000 "a" "s"; cred_at 1000 "b" "t"])]
          = Some l -> (Z.of_nat (length l) <= 2)%Z).
  cbn [obj_get]. destruct (String.eqb "login" g); [|discriminate].
  intros [= <-]. simpl. lia.
Defined.

(** X6.  [validate] reaches the store only to invalidate a matched
    credential: a call that returns matched has made exactly one request,
    carrying the form's array, when [expireAfterUse] is on and none when
    it is off; a call that returns not-matched and a call that throws
    have made none. *)
Theorem validate_requests (self : Config.t) (scmp : Value -> Value -> bool)
    (form : string) (session : option Session.t) (body : option Body)
    (w : World) :
  match validate self scmp form session body w with
  | (Ok (true, _, _), w') =>
      if Config.expireAfterUse self
      then exists r dsent,
          requests (luno w') = requests (luno w) ++ [r] /\
          sent r = Some dsent /\ is_Some (obj_get form dsent)
      else luno w' = luno w
  | (Ok (false, _, _), w') => luno w' = luno w
  | (Throw _, w') => luno w' = luno w
  end.
Proof.
  destruct (validate self scmp form session body w) as [[[[r cb] m]|e] w'] eqn:HV.
  - destruct (validate_cases self scmp _ _ _ _ _ _ _ _ HV)
      as [(-> & _ & Hl)|[(-> & Hx & _ & _ & Hl)
                        |(-> & Hx & scb & dsent & w0 & HS & Hl & _ & Hd & _)]].
    + exact Hl.
    + now rewrite Hx.
    + rewrite Hx.
      destruct (save_one_request m dsent w0) as (scb' & r & w'' & HS' & Hreq & Hs & _).
      rewrite HS in HS'. injection HS' as _ <-.
      exists r, dsent. rewrite Hreq, Hl. auto.
  - eapply validate_throw_silent; exact HV.
Qed.

(** X7.  What [validate] hands to its callback agrees with the value it
    returns: [(null, false)] when it returns false, and [(null, true,
    session)] when it returns true, unless the update of the store
    failed, in which case the callback receives the error alone although
    [true] was returned.  When the session is held by a store that
    answers, the callback never receives an error. *)
Theorem validate_callback_agrees (self : Config.t)
    (scmp : Value -> Value -> bool) (form : string)
    (session : option Session.t) (body : option Body) (w w' : World)
    (r : bool) (cb : ValidateCb) (m : option Session.t) :
  validate self scmp form session body w = (Ok (r, cb, m), w') ->
  match cb with
  | Validated success sess =>
      success = r /\ (if r then is_Some sess else sess = None)
  | ValidateErr _ =>
      r = true /\ Config.expireAfterUse self = true /\
      exists rq, requests (luno w') = requests (luno w) ++ [rq]
  end /\
  (store_up w ->
   (forall s, session = Some s ->
      truthy (Session.id s) = true /\ is_Some (fetch (luno w) s)) ->
   exists sess, cb = Validated r sess).
Proof.
  intros HV. split.
  - destruct (validate_cases self scmp _ _ _ _ _ _ _ _ HV)
      as [(-> & -> & _)|[(-> & _ & -> & Hm & _)
                        |(-> & Hx & scb & dsent & w0 & HS & Hl & _ & _ & ->)]].
    + auto.
    + auto.
    + destruct (save_one_request m dsent w0) as (scb' & rq & w'' & HS' & Hreq & _).
      rewrite HS in HS'. injection HS' as <- <-.
      destruct scb; [|eauto].
      split; [reflexivity|]. split; [exact Hx|]. exists rq. now rewrite Hreq, Hl.
  - intros Hup Hheld. destruct session as [s|].
    + destruct (Hheld s eq_refl) as [Ht Hf].
      eapply validate_callback_ok; eassumption.
    + injection HV as <- <- _ _. eauto.
Qed.

Lemma validate_callback_agrees_witness :
  exists err rq,
    fst (validate self_scenario scmp_strings "login"
           (Some (session_with [("login", [cred_at 1000 "a" "s"])]))
           (Some [("csrf-a", VString "s")])
           (steady 1000
              (store_down [session_with [("login", [cred_at 1000 "a" "s"])]])))
    = Ok (true, ValidateErr err, Some (session_with [("login", [])])) /\
    requests (luno (snd (validate self_scenario scmp_strings "login"
                           (Some (session_with [("login", [cred_at 1000 "a" "s"])]))
                           (Some [("csrf-a", VString "s")])
                           (steady 1000
                              (store_down
                                 [session_with
                                    [("login", [cred_at 1000 "a" "s"])]])))))
    = [] ++ [rq].
Proof.
  destruct (validate_callback_agrees self_scenario scmp_strings "login"
              (Some (session_with [("login", [cred_at 1000 "a" "s"])]))
              (Some [("csrf-a", VString "s")])
              (steady 1000
                 (store_down [session_with [("login", [cred_at 1000 "a" "s"])]]))
              _ true (ValidateErr "store unavailable")
              (Some (session_with [("login", [])])) (surjective_pairing _))
    as [(_ & _ & rq & Hreq) _].
  exists "store unavailable", rq. split; [reflexivity | exact Hreq].
Defined.

(** ** [validate] under a steady clock *)

Section ValidateSteady.

Variable self : Config.t.
Variable scmp : Value -> Value -> bool.
Variable now : Z.

Lemma first_match_existsb (b : Body) (l : list Credential) :
  forall i,
    match first_match self scmp b i l with Some _ => true | None => false end
    = existsb (matches self scmp b) l.
Proof.
  induction l as [|c l IH]; intros i; simpl; [reflexivity|].
  destruct (matches self scmp b c); [reflexivity | apply IH].
Qed.

Lemma existsb_unexpired (p : Credential -> bool) (l : list Credential) :
  existsb p (unexpired self now l)
  = existsb (fun c => negb (expired_at self now c) && p c) l.
Proof.
  unfold unexpired. induction l as [|c l IH]; simpl; [reflexivity|].
  destruct (negb (expired_at self now c)); simpl; now rewrite IH.
Qed.

(** The scan stops at the first credential, in order, that the body
    matches. *)
Lemma first_match_at (b : Body) (l : list Credential) :
  forall (n i : nat) (c : Credential),
    l !! n = Some c -> matches self scmp b c = true ->
    (forall j c', j < n -> l !! j = Some c' -> matches self scmp b c' = false) ->
    first_match self scmp b i l = Some (i + n).
Proof.
  induction l as [|c0 l IH]; intros n i c Hn Hm Hbefore; [discriminate|].
  destruct n as [|n]; simpl in *.
  - injection Hn as ->. rewrite Hm. f_equal. lia.
  - rewrite (Hbefore 0 c0) by (simpl; auto; lia).
    rewrite (IH n (S i) c Hn Hm); [f_equal; lia|].
    intros j c' Hj Hc'. apply (Hbefore (S j) c'); [lia | exact Hc'].
Qed.

(** [validate] with the clock standing at [now] and a body present, for
    a form whose name [Object.prototype] does not define. *)
Lemma validate_steady (form : string) (s : Session.t) (dt : Details)
    (d : CsrfDetails) (l : list Credential) (b : Body) (w : World) :
  ordinary form ->
  (forall k, clock w k = now) ->
  Session.details s = Some dt -> csrf dt = Some d -> obj_get form d = Some l ->
  exists d' details' n,
    (forall f,
       obj_get f d' = unexpired self now <$> obj_get f d /\
       obj_get f details' = pruning_report self now (obj_get f d)) /\
    validate self scmp form (Some s) (Some b) w
      = match first_match self scmp b 0 (unexpired self now l) with
        | None => ret (false, Validated false None, Some (set_csrf s d'))
        | Some i =>
            validate_matched self form (Some (set_csrf s d')) details'
              (unexpired self now l) i
        end (tick n w).
Proof.
  intros Hord Hclk Hs Hdt Hl.
  destruct (expire_steady self now s dt d w Hclk Hs Hdt)
    as (d' & details' & n & HE & Hall).
  destruct (validate_run self scmp form s dt d l (Some b) w Hord Hs Hdt Hl)
    as (d2 & details2 & n2 & l' & HE2 & _ & _ & Hl' & _ & HV).
  rewrite HE in HE2.
  pose proof (f_equal snd HE2) as Htick. simpl in Htick.
  pose proof (f_equal fst HE2) as Hres. simpl in Hres. clear HE2.
  injection Hres as Hset <-.
  assert (d2 = d') as ->.
  { unfold set_csrf in Hset. rewrite Hs in Hset. now injection Hset as <-. }
  assert (l' = unexpired self now l) as ->.
  { destruct (Hall form) as [Hd' _]. rewrite Hl' , Hl in Hd'.
    now injection Hd' as ->. }
  exists d', details', n. split; [exact Hall|].
  rewrite HV, <- Htick. unfold bind. rewrite validate_for_present. reflexivity.
Qed.

End ValidateSteady.

(** X8.  With the clock standing at [now] and a body present, for a
    form whose name [Object.prototype] does not define, [validate]
    returns true exactly when the session holds, for the form, a
    credential that has not expired ([created >= now - expiry]) and whose
    token [scmp] accepts against the value submitted under that
    credential's field name; an absent session or form gives false. *)
Theorem validate_accepts_live_match (self : Config.t)
    (scmp : Value -> Value -> bool) (now : Z) (form : string)
    (session : option Session.t) (b : Body) (w : World) :
  ordinary form ->
  (forall k, clock w k = now) ->
  exists cb m w',
    validate self scmp form session (Some b) w
    = (Ok (match session_form session form with
           | Some l =>
               existsb (fun c => negb (expired_at self now c)
                                 && matches self scmp b c) l
           | None => false
           end, cb, m), w').
Proof.
  intros Hord Hclk. destruct (session_form session form) as [l|] eqn:Hsf.
  - destruct (session_form_inv _ _ _ Hsf) as (s & dt & d & -> & Hs & Hdt & Hl).
    destruct (validate_steady self scmp now form s dt d l b w Hord Hclk Hs Hdt
                Hl)
      as (d' & details' & n & _ & ->).
    rewrite <- existsb_unexpired, <- (first_match_existsb self scmp b _ 0).
    destruct (first_match self scmp b 0 (unexpired self now l)) as [i|].
    + unfold validate_matched.
      destruct (negb (Config.expireAfterUse self)); [eexists _, _, _; reflexivity|].
      unfold bind.
      match goal with
      | |- context [save ?a ?c ?v] =>
          destruct (save_one_request a c v) as (scb & r & w3 & -> & _)
      end.
      destruct scb; eexists _, _, _; reflexivity.
    + eexists _, _, _; reflexivity.
  - unfold validate. rewrite (session_read_ordinary _ _ Hord), Hsf.
    eexists _, _, _; reflexivity.
Qed.

Lemma validate_accepts_live_match_witness :
  exists cb m w',
    validate self_scenario scmp_strings "login"
      (Some (session_with [("login", [cred_at 0 "a" "s"; cred_at 90000000 "b" "t"])]))
      (Some [("csrf-a", VString "s")])
      (steady 90000000 empty_store)
    = (Ok (false, cb, m), w').
Proof.
  apply (validate_accepts_live_match self_scenario scmp_strings 90000000 "login"
           (Some (session_with
                    [("login", [cred_at 0 "a" "s"; cred_at 90000000 "b" "t"])]))
           [("csrf-a", VString "s")] (steady 90000000 empty_store)).
  - reflexivity.
  - intros k. reflexivity.
Defined.

(** X9.  Single use.  With the clock standing at [now] and
    [expireAfterUse] on, for a form whose name [Object.prototype] does
    not define, let [c] be the first unexpired credential of the form,
    in order, that the body matches.  Then [validate] returns true
    and makes one request to the store; the request carries, for the
    form, the unexpired credentials without [c], and for every other form
    the pruned array exactly when pruning removed something from it; the
    session object is left with every array pruned and [c] taken out. *)
Theorem validate_consumes_first_match (self : Config.t)
    (scmp : Value -> Value -> bool) (now : Z) (form : string) (s : Session.t)
    (dt : Details) (d : CsrfDetails) (l : list Credential) (b : Body)
    (i : nat) (c : Credential) (w : World) :
  ordinary form ->
  (forall k, clock w k = now) ->
  Config.expireAfterUse self = true ->
  Session.details s = Some dt -> csrf dt = Some d -> obj_get form d = Some l ->
  unexpired self now l !! i = Some c ->
  matches self scmp b c = true ->
  (forall j c', j < i -> unexpired self now l !! j = Some c' ->
     matches self scmp b c' = false) ->
  exists cb m w' r dsent,
    validate self scmp form (Some s) (Some b) w = (Ok (true, cb, m), w') /\
    requests (luno w') = requests (luno w) ++ [r] /\
    sent r = Some dsent /\
    (forall g,
       obj_get g dsent
       = if String.eqb form g then Some (delete i (unexpired self now l))
         else pruning_report self now (obj_get g d)) /\
    (forall g,
       session_form m g
       = if String.eqb form g then Some (delete i (unexpired self now l))
         else unexpired self now <$> obj_get g d).
Proof.
  intros Hord Hclk Hx Hs Hdt Hl Hi Hm Hbefore.
  destruct (validate_steady self scmp now form s dt d l b w Hord Hclk Hs Hdt Hl)
    as (d' & details' & n & Hall & ->).
  rewrite (first_match_at self scmp b _ i 0 c Hi Hm Hbefore).
  change (0 + i) with i.
  unfold validate_matched. rewrite Hx. cbn [negb]. unfold bind.
  set (l2 := delete i (unexpired self now l)).
  set (m := write_back (Some (set_csrf s d')) form l2).
  destruct (save_one_request m (obj_set form l2 details') (tick n w))
    as (scb & r & w' & HS & Hreq & Hsent & _).
  rewrite HS.
  exists (match scb with
          | SaveErr err => ValidateErr err
          | Saved sess0 _ => Validated true (Some sess0)
          end), m, w', r, (obj_set form l2 details').
  split; [destruct scb; reflexivity|].
  split; [exact Hreq|]. split; [exact Hsent|]. split.
  - intros g. destruct (String.eqb_spec form g) as [->|Hne].
    + apply obj_get_set_eq.
    + rewrite obj_get_set_ne by assumption. apply Hall.
  - intros g.
    assert (Hsf : forall f, session_form (Some (set_csrf s d')) f
                            = unexpired self now <$> obj_get f d).
    { intros f. unfold set_csrf. rewrite Hs. simpl. apply Hall. }
    subst m.
    destruct (write_back_form (Some (set_csrf s d')) form g
                (unexpired self now l) l2) as (-> & _).
    + rewrite Hsf, Hl. reflexivity.
    + destruct (String.eqb form g); [reflexivity | apply Hsf].
Qed.

Lemma validate_consumes_first_match_witness :
  exists cb m w' r dsent,
    validate self_scenario scmp_strings "login"
      (Some (session_with
               [("login", [cred_at 0 "z" "q"; cred_at 90000000 "a" "s";
                           cred_at 90000000 "b" "t"]);
                ("signup", [cred_at 0 "y" "p"])]))
      (Some [("csrf-b", VString "t")])
      (steady 90000000 empty_store)
    = (Ok (true, cb, m), w') /\
    requests (luno w') = [] ++ [r] /\
    sent r = Some dsent /\
    obj_get "login" dsent = Some [cred_at 90000000 "a" "s"] /\
    obj_get "signup" dsent = Some [].
Proof.
  destruct (validate_consumes_first_match self_scenario scmp_strings 90000000
              "login"
              (session_with
                 [("login", [cred_at 0 "z" "q"; cred_at 90000000 "a" "s";
                             cred_at 90000000 "b" "t"]);
                  ("signup", [cred_at 0 "y" "p"])])
              _ _ _ [("csrf-b", VString "t")] 1 (cred_at 90000000 "b" "t")
              (steady 90000000 empty_store) eq_refl
              (fun _ => eq_refl) eq_refl eq_refl eq_refl eq_refl eq_refl eq_refl)
    as (cb & m & w' & r & dsent & HV & Hreq & Hsent & Hd & _).
  - intros j c' Hj Hc'. destruct j as [|j]; [|lia].
    vm_compute in Hc'. injection Hc' as <-. reflexivity.
  - exists cb, m, w', r, dsent.
    split; [exact HV|]. split; [exact Hreq|]. split; [exact Hsent|].
    split; [exact (Hd "login") | exact (Hd "signup")].
Defined.

(** ** The validating middlewares *)

Section MiddlewareFacts.

Variable self : Config.t.
Variable scmp : Value -> Value -> bool.

(** What the two middlewares make of the outcome of [validateReq]. *)
Lemma validateMiddleware_of (form : string) (req : Req) (w w' : World)
    (r success : bool) (sess m : option Session.t) :
  validate self scmp form (req_session req) (req_body req) w
    = (Ok (r, Validated success sess, m), w') ->
  validateMiddleware self scmp form req w
    = (Ok (if success then Continue else NextError "Invalid CSRF"), w') /\
  validateMiddlewareQuick self scmp form req w
    = (Ok (if r then Continue else NextError "Invalid CSRF"), w').
Proof.
  intros HV. unfold validateMiddleware, validateMiddlewareQuick, validateReq, bind.
  rewrite HV. destruct success, r; split; reflexivity.
Qed.

Lemma validateMiddleware_continue (form : string) (s : Session.t) (b : Body)
    (w w' : World) (cb : ValidateCb) (m : option Session.t) :
  validate self scmp form (Some s) (Some b) w = (Ok (true, cb, m), w') ->
  store_up w -> truthy (Session.id s) = true -> is_Some (fetch (luno w) s) ->
  validateMiddleware self scmp form
    {| req_session := Some s; req_body := Some b |} w = (Ok Continue, w').
Proof.
  intros HV Hup Ht Hf.
  destruct (validate_callback_ok self scmp _ _ _ _ _ _ _ _ Hup Ht Hf HV)
    as [sess ->].
  now destruct (validateMiddleware_of form
                  {| req_session := Some s; req_body := Some b |} _ _ _ _ _ _ HV).
Qed.

End MiddlewareFacts.

(** The two validating middlewares part ways on a store that fails. *)
Example validateMiddlewares_differ :
  let req := {| req_session :=
                  Some (session_with [("login", [cred_at 1000 "a" "s"])]);
                req_body := Some [("csrf-a", VString "s")] |} in
  let w := steady 1000
             (store_down [session_with [("login", [cred_at 1000 "a" "s"])]]) in
  fst (validateMiddleware self_scenario scmp_strings "login" req w)
    = Ok (NextError "Invalid CSRF") /\
  fst (validateMiddlewareQuick self_scenario scmp_strings "login" req w)
    = Ok Continue.
Proof. split; reflexivity. Qed.

(** X10.  [validateMiddleware] and [validateMiddlewareQuick] call [next]
    alike, and throw alike, in every case but one: the credential
    matched, [expireAfterUse] is on and the store failed the update;
    then [validateMiddleware] calls [next] with the error "Invalid CSRF"
    while [validateMiddlewareQuick] lets the request through.  When the
    request's session is held by a store that answers, the two agree. *)
Theorem validateMiddlewareQuick_agrees (self : Config.t)
    (scmp : Value -> Value -> bool) (form : string) (req : Req) (w : World) :
  (validateMiddleware self scmp form req w
     = validateMiddlewareQuick self scmp form req w \/
   (Config.expireAfterUse self = true /\
    exists err m w',
      validateReq self scmp form req w = (Ok (true, ValidateErr err, m), w') /\
      validateMiddleware self scmp form req w
        = (Ok (NextError "Invalid CSRF"), w') /\
      validateMiddlewareQuick self scmp form req w = (Ok Continue, w'))) /\
  (store_up w ->
   (forall s, req_session req = Some s ->
      truthy (Session.id s) = true /\ is_Some (fetch (luno w) s)) ->
   validateMiddleware self scmp form req w
     = validateMiddlewareQuick self scmp form req w).
Proof.
  assert (Hsame : forall w' r sess m,
            validate self scmp form (req_session req) (req_body req) w
              = (Ok (r, Validated r sess, m), w') ->
            validateMiddleware self scmp form req w
              = validateMiddlewareQuick self scmp form req w).
  { intros w' r sess m HV.
    destruct (validateMiddleware_of self scmp form req _ _ _ _ _ _ HV) as [-> ->].
    reflexivity. }
  destruct (validate self scmp form (req_session req) (req_body req) w)
    as [[[[r cb] m]|e] w'] eqn:HV.
  - split.
    + destruct (validate_cases self scmp _ _ _ _ _ _ _ _ HV)
        as [(-> & -> & _)|[(-> & _ & -> & _)
                          |(-> & Hx & scb & dsent & w0 & _ & _ & _ & _ & ->)]].
      * left. eapply Hsame; reflexivity.
      * left. eapply Hsame; reflexivity.
      * destruct scb as [err|sess created].
        -- right. split; [exact Hx|]. exists err, m, w'.
           unfold validateMiddleware, validateMiddlewareQuick, validateReq, bind.
           rewrite HV. auto.
        -- left. eapply Hsame; reflexivity.
    + intros Hup Hheld. destruct (req_session req) as [s|] eqn:Hreq.
      * destruct (Hheld s eq_refl) as [Ht Hf].
        destruct (validate_callback_ok self scmp _ _ _ _ _ _ _ _ Hup Ht Hf HV)
          as [sess ->].
        eapply Hsame; reflexivity.
      * injection HV as <- <- _ _.
        unfold validateMiddleware, validateMiddlewareQuick, validateReq, bind.
        rewrite Hreq. reflexivity.
  - assert (Heq : validateMiddleware self scmp form req w
                  = validateMiddlewareQuick self scmp form req w).
    { unfold validateMiddleware, validateMiddlewareQuick, validateReq, bind.
      rewrite HV. reflexivity. }
    split; [left; exact Heq | intros _ _; exact Heq].
Qed.

Lemma validateMiddlewareQuick_agrees_witness :
  validateMiddleware self_scenario scmp_strings "login"
    {| req_session := Some (session_with [("login", [cred_at 1000 "a" "s"])]);
       req_body := Some [("csrf-a", VString "s")] |}
    (steady 1000 (store_of [session_with [("login", [cred_at 1000 "a" "s"])]]))
  = validateMiddlewareQuick self_scenario scmp_strings "login"
      {| req_session := Some (session_with [("login", [cred_at 1000 "a" "s"])]);
         req_body := Some [("csrf-a", VString "s")] |}
      (steady 1000 (store_of [session_with [("login", [cred_at 1000 "a" "s"])]])).
Proof.
  apply (proj2 (validateMiddlewareQuick_agrees self_scenario scmp_strings "login"
                  {| req_session :=
                       Some (session_with [("login", [cred_at 1000 "a" "s"])]);
                     req_body := Some [("csrf-a", VString "s")] |}
                  (steady 1000
                     (store_of [session_with [("login", [cred_at 1000 "a" "s"])]])))).
  - intros n. reflexivity.
  - intros s [= <-]. split; [reflexivity | vm_compute; eauto].
Defined.

(** X11.  The middlewares end to end.  When [middleware] serves a
    request, the cookie it sets is [(sessionCookieName, sess.key,
    sessionCookieConfig)] and the store holds the served session.  With a
    store that answers, a next request carrying that stored session and
    the token of a credential answered for a form whose name
    [Object.prototype] does not define, under the credential's field
    name and before it expires, passes [validateMiddleware]; repeated,
    it passes
    again when [expireAfterUse] is off, and is refused with "Invalid
    CSRF" when it is on and no older credential of the form matches. *)
Theorem middleware_then_validateMiddleware (self : Config.t)
    (scmp : Value -> Value -> bool) (forms : Forms) (req : Req)
    (w w1 : World) (answered : Obj Credential) (sess : Session.t)
    (jar : SetCookie) (f : string) (cred : Credential) (b : Body) :
  middleware self forms req w = (Ok (Served answered sess jar), w1) ->
  obj_get f answered = Some cred -> ordinary f ->
  store_up w -> accepts_equal scmp -> submitted self b cred ->
  (forall k, expired_at self (clock w k) cred = false) ->
  jar = {| cookie_name := Config.sessionCookieName self;
           cookie_value := Session.key sess;
           cookie_options := Config.sessionCookieConfig self |} /\
  exists stored pre w2,
    fetch (luno w1) sess = Some stored /\
    session_form (Some stored) f = Some (pre ++ [cred]) /\
    validateMiddleware self scmp f
      {| req_session := Some stored; req_body := Some b |} w1
      = (Ok Continue, w2) /\
    (Config.expireAfterUse self = false ->
     exists w3,
       validateMiddleware self scmp f
         {| req_session := fetch (luno w2) sess; req_body := Some b |} w2
       = (Ok Continue, w3)) /\
    (Config.expireAfterUse self = true ->
     (forall c, c ∈ pre -> matches self scmp b c = false) ->
     exists w3,
       validateMiddleware self scmp f
         {| req_session := fetch (luno w2) sess; req_body := Some b |} w2
       = (Ok (NextError "Invalid CSRF"), w3)).
Proof.
  intros HM Hr Hord Hup Hacc Hsub Hlive.
  unfold middleware, bind in HM.
  destruct (generate self (req_session req) forms w)
    as [[[err|resp sess0 created]|e] w0] eqn:HG; try discriminate.
  injection HM as <- <- <- <-. split; [reflexivity|].
  destruct (generate_held self _ _ _ _ _ _ _ f cred HG Hr)
    as (Hev & _ & pre & Hheld).
  destruct (held_form _ _ _ _ Hheld) as (s0 & Hf & Hsf & Ht & Hp).
  pose proof (matches_submitted self scmp b cred Hsub Hacc) as Hm.
  assert (Hclk1 : clock w0 = clock w) by apply Hev.
  assert (Hlive1 : forall k, expired_at self (clock w0 k) cred = false)
    by (intros k; rewrite Hclk1; apply Hlive).
  assert (Hup1 : store_up w0) by (eapply evolves_store_up; eassumption).
  assert (Hf0 : fetch (luno w0) s0 = Some s0)
    by (rewrite <- Hf; now apply fetch_same_path).
  destruct (validate_hit self scmp w0 s0 f pre cred b Hord Hsf Hlive1 Hm)
    as (cb & m & w2 & pre' & HV & Hev2 & Hsub' & Hoff & Hon).
  exists s0, pre, w2. split; [exact Hf|]. split; [exact Hsf|].
  split; [|split].
  - eapply validateMiddleware_continue; eauto.
  - intros Hx. destruct (Hoff Hx) as [Hluno _].
    assert (Hclk2 : clock w2 = clock w0) by apply Hev2.
    assert (Hlive2 : forall k, expired_at self (clock w2 k) cred = false)
      by (intros k; rewrite Hclk2; apply Hlive1).
    destruct (validate_hit self scmp w2 s0 f pre cred b Hord Hsf Hlive2 Hm)
      as (cb3 & m3 & w3 & _ & HV3 & _).
    exists w3. rewrite Hluno, Hf.
    eapply validateMiddleware_continue; eauto.
    + eapply evolves_store_up; eassumption.
    + rewrite Hluno, Hf0. eauto.
  - intros Hx Hno. destruct (Hon Hx Hno) as [_ Hheld2].
    specialize (Hheld2 Hup1 Ht (ex_intro _ s0 Hf0)).
    apply (held_same_path _ _ sess0) in Hheld2; [|exact Hp].
    destruct (held_form _ _ _ _ Hheld2) as (s1 & Hf1 & Hsf1 & _).
    destruct (validate_miss self scmp w2 (Some s1) f pre' b Hord Hsf1)
      as (cb3 & m3 & w3 & HV3).
    { intros c Hc. apply Hno, Hsub', Hc. }
    exists w3. rewrite Hf1.
    destruct (validate_cases self scmp _ _ _ _ _ _ _ _ HV3)
      as [(_ & -> & _)|[(Habs & _)|(Habs & _)]]; try discriminate.
    now destruct (validateMiddleware_of self scmp f
                    {| req_session := Some s1; req_body := Some b |}
                    _ _ _ _ _ _ HV3).
Qed.

Lemma middleware_then_validateMiddleware_witness :
  exists stored w2 w3,
    fetch (luno (snd (middleware self_scenario (OneForm "login")
                        {| req_session := None; req_body := None |}
                        (steady 1000 empty_store))))
      session_bare = Some stored /\
    validateMiddleware self_scenario scmp_strings "login"
      {| req_session := Some stored;
         req_body := Some [("csrf-r0", VString "r1")] |}
      (snd (middleware self_scenario (OneForm "login")
              {| req_session := None; req_body := None |}
              (steady 1000 empty_store)))
    = (Ok Continue, w2) /\
    validateMiddleware self_scenario scmp_strings "login"
      {| req_session := fetch (luno w2) session_bare;
         req_body := Some [("csrf-r0", VString "r1")] |} w2
    = (Ok (NextError "Invalid CSRF"), w3).
Proof.
  destruct (middleware_then_validateMiddleware self_scenario scmp_strings
              (OneForm "login") {| req_session := None; req_body := None |}
              (steady 1000 empty_store) _
              [("login", cred_at 1000 "r0" "r1")]
              (session_with [("login", [cred_at 1000 "r0" "r1"])])
              {| cookie_name := "session"; cookie_value := "key_0";
                 cookie_options :=
                   {| Config.maxAge := 1209600000; Config.httpOnly := true |} |}
              "login" (cred_at 1000 "r0" "r1") [("csrf-r0", VString "r1")]
              (surjective_pairing _) eq_refl eq_refl (fun _ => eq_refl)
              String.eqb_refl eq_refl (fun _ => eq_refl))
    as (_ & stored & pre & w2 & Hf & Hsf & HV & _ & Hon).
  assert (Hpre : pre = []).
  { vm_compute in Hf. injection Hf as <-.
    apply (app_inv_tail [cred_at 1000 "r0" "r1"] pre []).
    simpl in Hsf. injection Hsf as <-. reflexivity. }
  destruct (Hon eq_refl) as [w3 H3].
  { intros c Hc. rewrite Hpre in Hc. inversion Hc. }
  exists stored, w2, w3. split; [exact Hf|]. split; [exact HV | exact H3].
Defined.

(** What [crypto.randomBytes] throws: the range error, or what the
    platform refused the size with. *)
Lemma randomBytes_error (size : Z) (w w' : World) (e : Exn) :
  randomBytes size w = (Throw e, w') ->
  e = RangeError "size" \/ refused (entropy w) size = Some e.
Proof.
  unfold randomBytes.
  destruct ((size <? 0) || (max_size <? size))%Z; [intros [= <- _]; now left|].
  destruct (refused (entropy w) size) as [e0|]; [|discriminate].
  intros [= <- _]. now right.
Qed.

(** X12.  [generateCredentials] returns exactly when the random source
    serves the configured lengths, each between [0] and [2^31 - 1] and
    not refused by the platform ([nameLength] counts only when [useName]
    is set), and otherwise throws the error of the random source before
    the clock is read.  The credential it returns carries a name exactly
    when [useName] is set and the reading of the clock as [created]; the
    name and the token are separate draws; the store is never reached. *)
Theorem generateCredentials_outcome (self : Config.t) (w : World) :
  match generateCredentials self w with
  | (Ok c, w') =>
      lengths_ok self w /\
      (is_Some (name c) <-> Config.useName self = true) /\
      created c = clock w (reads w) /\ reads w' = S (reads w) /\
      draws w' = (if Config.useName self then 2 else 1) + draws w /\
      luno w' = luno w
  | (Throw e, w') =>
      ~ lengths_ok self w /\
      (e = RangeError "size" \/ exists size, refused (entropy w) size = Some e) /\
      reads w' = reads w /\ luno w' = luno w
  end.
Proof.
  pose proof (silent_generateCredentials self w) as Hsilent.
  destruct (generateCredentials self w) as [[c|e] w'] eqn:HG.
  - pose proof (generateCredentials_lengths self _ _ _ HG) as Hl.
    split; [exact Hl|]. destruct Hl as [Ht Hn].
    revert HG Hsilent. unfold generateCredentials, bind, Date_now, ret.
    destruct (Config.useName self) eqn:Hu.
    + rewrite (randomBytes_served _ _ (Hn eq_refl)).
      rewrite randomBytes_served by exact Ht.
      intros [= <- <-] _. simpl. repeat split; eauto.
    + rewrite (randomBytes_served _ _ Ht).
      intros [= <- <-] _. simpl. repeat split; try discriminate.
      intros [x Hx]. discriminate.
  - destruct (generateCredentials_throw self _ _ _ HG) as [Hnl Hreads].
    split; [exact Hnl|]. split; [|split; [exact Hreads | exact Hsilent]].
    revert HG. unfold generateCredentials, bind, Date_now, ret.
    destruct (Config.useName self).
    + destruct (randomBytes (Config.nameLength self) w) as [[nm|e1] wa] eqn:Hn.
      * destruct (randomBytes_ok _ _ _ _ Hn) as [_ Hen].
        destruct (randomBytes (Config.tokenLength self) wa) as [[tk|e2] wb] eqn:Ht;
          [discriminate|].
        intros [= <- _].
        destruct (randomBytes_error _ _ _ _ Ht) as [->|He]; [now left|].
        right. exists (Config.tokenLength self). now rewrite <- Hen.
      * intros [= <- _].
        destruct (randomBytes_error _ _ _ _ Hn) as [->|He]; [now left|].
        right. eauto.
    + destruct (randomBytes (Config.tokenLength self) w) as [[tk|e2] wb] eqn:Ht;
        [discriminate|].
      intros [= <- _].
      destruct (randomBytes_error _ _ _ _ Ht) as [->|He]; [now left|].
      right. eauto.
Qed.

(** X13.  On a session with CSRF data and a body that is present, a
    [validate] that makes no request to the store (it returned false, or
    [expireAfterUse] is off) has nevertheless pruned the session object
    it was given, when that object holds an array for the form and
    [Object.prototype] does not define the form's name: with the clock
    standing at [now], every array of that object is left with its
    unexpired credentials only, while the store is as it was.  When the
    object holds no array for the form, [validate] returns before the
    pruning step and hands the object back as it was. *)
Theorem validate_prunes_session_object (self : Config.t)
    (scmp : Value -> Value -> bool) (now : Z) (form : string) (s : Session.t)
    (dt : Details) (d : CsrfDetails) (b : Body)
    (w w' : World) (r : bool) (cb : ValidateCb) (m : option Session.t) :
  ordinary form ->
  (forall k, clock w k = now) ->
  Session.details s = Some dt -> csrf dt = Some d ->
  validate self scmp form (Some s) (Some b) w = (Ok (r, cb, m), w') ->
  r = false \/ Config.expireAfterUse self = false ->
  luno w' = luno w /\
  (is_Some (obj_get form d) ->
   forall g, session_form m g = unexpired self now <$> obj_get g d) /\
  (obj_get form d = None -> m = Some s).
Proof.
  intros Hord Hclk Hs Hdt HV Hcase.
  destruct (obj_get form d) as [l|] eqn:Hl.
  - assert (Hgoal : luno w' = luno w /\
              forall g, session_form m g = unexpired self now <$> obj_get g d).
    { destruct (validate_steady self scmp now form s dt d l b w Hord Hclk Hs Hdt
                  Hl)
        as (d' & details' & n & Hall & HV').
      rewrite HV' in HV. clear HV'.
      assert (Hsf : forall g, session_form (Some (set_csrf s d')) g
                              = unexpired self now <$> obj_get g d).
      { intros g. unfold set_csrf. rewrite Hs. simpl. apply Hall. }
      destruct (first_match self scmp b 0 (unexpired self now l)) as [i|].
      - unfold validate_matched in HV.
        destruct (Config.expireAfterUse self) eqn:Hx; cbn [negb] in HV.
        + unfold bind in HV.
          match type of HV with
          | context [save ?a ?c ?v] =>
              destruct (save_one_request a c v) as (scb & rq & w3 & HS & _)
          end.
          rewrite HS in HV.
          assert (r = true) as -> by (destruct scb; now injection HV as <- _ _ _).
          destruct Hcase; discriminate.
        + injection HV as _ _ <- <-. split; [reflexivity | exact Hsf].
      - injection HV as _ _ <- <-. split; [reflexivity | exact Hsf]. }
    destruct Hgoal as [Hluno Hsf].
    split; [exact Hluno|]. split; [intros _; exact Hsf | discriminate].
  - unfold validate in HV.
    rewrite (session_read_ordinary _ _ Hord) in HV. simpl in HV.
    rewrite Hs, Hdt, Hl in HV. injection HV as _ _ <- <-.
    split; [reflexivity|]. split; [intros [x Hx]; discriminate | reflexivity].
Qed.

Lemma validate_prunes_session_object_witness :
  session_form
    (Some (session_with [("login", [cred_at 90000000 "b" "t"]);
                         ("signup", [])])) "login"
  = unexpired self_scenario 90000000
      <$> obj_get "login"
            [("login", [cred_at 0 "a" "s"; cred_at 90000000 "b" "t"]);
             ("signup", [cred_at 0 "y" "p"])] /\
  session_form
    (Some (session_with [("login", [cred_at 90000000 "b" "t"]);
                         ("signup", [])])) "signup"
  = unexpired self_scenario 90000000
      <$> obj_get "signup"
            [("login", [cred_at 0 "a" "s"; cred_at 90000000 "b" "t"]);
             ("signup", [cred_at 0 "y" "p"])].
Proof.
  destruct (validate_prunes_session_object self_scenario scmp_strings 90000000
              "login"
              (session_with
                 [("login", [cred_at 0 "a" "s"; cred_at 90000000 "b" "t"]);
                  ("signup", [cred_at 0 "y" "p"])])
              _ _ [("csrf-a", VString "s")]
              (steady 90000000
                 (store_of
                    [session_with
                       [("login", [cred_at 0 "a" "s"; cred_at 90000000 "b" "t"]);
                        ("signup", [cred_at 0 "y" "p"])]]))
              _ false (Validated false None)
              (Some (session_with [("login", [cred_at 90000000 "b" "t"]);
                                   ("signup", [])]))
              eq_refl (fun _ => eq_refl) eq_refl eq_refl
              (surjective_pairing _) (or_introl eq_refl)) as (_ & H & _).
  split; apply H; eexists; reflexivity.
Defined.

(** X17.  The expiry cutoff, for a form whose name [Object.prototype]
    does not define.  With the clock at [now], pruning leaves of the
    form's array exactly the credentials that are not older than
    [now - expiry].  One created at [now - expiry - 1] is removed, and a
    submission that only it could match is not matched; one created at
    [now - expiry + 1], and one created at [now - expiry] itself,
    survives, and its own submission is matched. *)
Theorem expiry_boundary (self : Config.t) (scmp : Value -> Value -> bool)
    (now : Z) (form : string) (s : Session.t)
    (dt : Details) (d : CsrfDetails) (l : list Credential)
    (cred : Credential) (b : Body) (w : World) :
  ordinary form ->
  (forall k, clock w k = now) ->
  Session.details s = Some dt -> csrf dt = Some d ->
  obj_get form d = Some l -> cred ∈ l ->
  let kept := List.filter (fun c => negb (expired_at self now c)) l in
  exists sA dA wA,
    _expire self (Some s) [] w = (Ok (sA, dA), wA) /\
    session_form sA form = Some kept /\
    (created cred = (now - Config.expiry self - 1)%Z ->
     (cred ∉ kept) /\
     ((forall c, c ∈ l -> c <> cred -> matches self scmp b c = false) ->
      exists cb s' w',
        validate self scmp form (Some s) (Some b) w = (Ok (false, cb, s'), w'))) /\
    ((created cred = (now - Config.expiry self + 1)%Z \/
      created cred = (now - Config.expiry self)%Z) ->
     (cred ∈ kept) /\
     (submitted self b cred -> accepts_equal scmp ->
      exists cb s' w',
        validate self scmp form (Some s) (Some b) w = (Ok (true, cb, s'), w'))).
Proof.
  intros Hord Hclk Hs Hdt Hl Hin kept.
  destruct (validate_run self scmp form s dt d l (Some b) w Hord Hs Hdt Hl)
    as (d' & details' & n & l' & HE & _ & _ & Hl' & Hp & HV).
  assert (l' = kept) as -> by (eapply pruned_const; eassumption).
  exists (Some (set_csrf s d')), details', (tick n w).
  split; [exact HE|]. split.
  { unfold set_csrf. rewrite Hs. simpl. exact Hl'. }
  rewrite HV. unfold bind. rewrite validate_for_present. split.
  - intros Hc.
    assert (Hout : cred ∉ kept).
    { intros Hk. apply list_elem_of_In, filter_In in Hk as [_ Hk].
      unfold expired_at in Hk. rewrite Hc in Hk.
      destruct (Z.ltb_spec (now - Config.expiry self - 1)
                  (now - Config.expiry self))%Z; [discriminate | lia]. }
    split; [exact Hout|]. intros Hno.
    rewrite first_match_none; [eexists _, _, _; reflexivity|].
    intros c Hc'. apply Hno.
    + apply list_elem_of_In, filter_In in Hc' as [Hc' _].
      now apply list_elem_of_In.
    + intros ->. contradiction.
  - intros Hc.
    assert (Hk : cred ∈ kept).
    { apply list_elem_of_In, filter_In. split; [now apply list_elem_of_In|].
      unfold expired_at. apply negb_true_iff, Z.ltb_ge. lia. }
    split; [exact Hk|]. intros Hsub Hacc.
    destruct (first_match_some self scmp b kept cred 0 Hk
                (matches_submitted self scmp b cred Hsub Hacc)) as [i ->].
    destruct (validate_matched_true self form (Some (set_csrf s d')) details'
                kept i (tick n w)) as (cb1 & s1 & w1 & -> & _).
    eauto.
Qed.

Lemma expiry_boundary_witness :
  exists sA dA wA,
    _expire Config.defaults
      (Some (session_with
               [("login", [cred_at 13599999 "a" "s"; cred_at 13600001 "b" "t"])]))
      [] (steady 100000000 empty_store) = (Ok (sA, dA), wA) /\
    session_form sA "login" = Some [cred_at 13600001 "b" "t"] /\
    (exists cb s' w',
       validate Config.defaults scmp_strings "login"
         (Some (session_with
                  [("login", [cred_at 13599999 "a" "s"; cred_at 13600001 "b" "t"])]))
         (Some [("csrf-a", VString "s")]) (steady 100000000 empty_store)
       = (Ok (false, cb, s'), w')) /\
    (exists cb s' w',
       validate Config.defaults scmp_strings "login"
         (Some (session_with
                  [("login", [cred_at 13599999 "a" "s"; cred_at 13600001 "b" "t"])]))
         (Some [("csrf-b", VString "t")]) (steady 100000000 empty_store)
       = (Ok (true, cb, s'), w')).
Proof.
  destruct (expiry_boundary Config.defaults scmp_strings 100000000 "login"
              (session_with
                 [("login", [cred_at 13599999 "a" "s"; cred_at 13600001 "b" "t"])])
              {| csrf := Some [("login", [cred_at 13599999 "a" "s";
                                          cred_at 13600001 "b" "t"])] |}
              [("login", [cred_at 13599999 "a" "s"; cred_at 13600001 "b" "t"])]
              [cred_at 13599999 "a" "s"; cred_at 13600001 "b" "t"]
              (cred_at 13599999 "a" "s")
              [("csrf-a", VString "s")]
              (steady 100000000 empty_store))
    as (sA & dA & wA & HE & Hform & Hold & _);
    [reflexivity | intros k; reflexivity | reflexivity | reflexivity
    | reflexivity | left |].
  destruct (expiry_boundary Config.defaults scmp_strings 100000000 "login"
              (session_with
                 [("login", [cred_at 13599999 "a" "s"; cred_at 13600001 "b" "t"])])
              {| csrf := Some [("login", [cred_at 13599999 "a" "s";
                                          cred_at 13600001 "b" "t"])] |}
              [("login", [cred_at 13599999 "a" "s"; cred_at 13600001 "b" "t"])]
              [cred_at 13599999 "a" "s"; cred_at 13600001 "b" "t"]
              (cred_at 13600001 "b" "t")
              [("csrf-b", VString "t")]
              (steady 100000000 empty_store))
    as (_ & _ & _ & _ & _ & _ & Hnew);
    [reflexivity | intros k; reflexivity | reflexivity | reflexivity
    | reflexivity | right; left |].
  exists sA, dA, wA. split; [exact HE|]. split; [exact Hform|]. split.
  - apply Hold; [reflexivity|].
    intros c Hc Hne. apply list_elem_of_In in Hc.
    destruct Hc as [<-|[<-|[]]]; [contradiction | reflexivity].
  - apply Hnew; [left; reflexivity | reflexivity |].
    intros x. apply String.eqb_refl.
Defined.

(** ** When [generate] returns *)

Section GenerateReturns.

Variable self : Config.t.

Lemma served_dec (w : World) (size : Z) : served w size \/ ~ served w size.
Proof.
  unfold served.
  destruct (Z_le_dec 0 size); [|right; intros [[? ?] _]; lia].
  destruct (Z_le_dec size max_size); [|right; intros [[? ?] _]; lia].
  destruct (refused (entropy w) size) eqn:E;
    [right; intros [_ H]; discriminate | left; auto].
Qed.

Lemma lengths_ok_dec (w : World) : lengths_ok self w \/ ~ lengths_ok self w.
Proof.
  unfold lengths_ok.
  destruct (served_dec w (Config.tokenLength self)) as [Ht|Ht];
    [|right; intros [H _]; auto].
  destruct (Config.useName self); [|left; split; [exact Ht | discriminate]].
  destruct (served_dec w (Config.nameLength self)) as [Hn|Hn];
    [left; auto | right; intros [_ H]; auto].
Qed.

Lemma reads_inherited_among (session : option Session.t) (forms : list string) :
  (exists f, f ∈ forms /\ reads_inherited session f) \/
  (forall f, f ∈ forms -> ~ reads_inherited session f).
Proof.
  induction forms as [|f rest IH].
  - right. intros f Hf. inversion Hf.
  - destruct (reads_inherited_dec session f) as [Hin|Hn].
    + left. exists f. split; [left | exact Hin].
    + destruct IH as [(g & Hg & Hin)|Hall].
      * left. exists g. split; [now right | exact Hin].
      * right. intros g Hg. apply elem_of_cons in Hg as [->|Hg]; auto.
Qed.

(** With no form requested, [generate] needs no draw. *)
Lemma generate_no_forms (session : option Session.t) (forms : Forms)
    (w : World) :
  usable session -> forms_array forms = [] ->
  exists cb w', generate self session forms w = (Ok cb, w').
Proof.
  intros Hu Hf.
  destruct (expire_usable self session w Hu) as (sA & dA & n & HA & _).
  unfold generate. unfold bind at 1. rewrite HA, Hf.
  simpl. unfold bind, ret. cbn beta iota.
  destruct (save_one_request sA dA (tick n w)) as (scb & r & w' & -> & _).
  destruct scb; eauto.
Qed.

End GenerateReturns.

(** X14.  [generate] hands a result or an error to its callback exactly
    when the session is absent or has a [details] object and, if any form
    is requested, the random source serves the configured lengths and no
    requested form reads, from the session's CSRF object, as a value
    inherited from [Object.prototype].  Otherwise it throws: the
    [TypeError] of the pruning step on a session without [details]; on
    any other session, because a draw was not served or a requested form
    read as an inherited value. *)
Theorem generate_returns_iff (self : Config.t) (session : option Session.t)
    (forms : Forms) (w : World) :
  match generate self session forms w with
  | (Ok _, _) =>
      usable session /\
      (forms_array forms = [] \/
       (lengths_ok self w /\
        forall f, f ∈ forms_array forms -> ~ reads_inherited session f))
  | (Throw e, _) =>
      (~ usable session /\
       e = TypeError "Cannot read property 'csrf' of undefined") \/
      (usable session /\ forms_array forms <> [] /\
       (~ lengths_ok self w \/
        exists f, f ∈ forms_array forms /\ reads_inherited session f))
  end.
Proof.
  destruct (generate self session forms w) as [[cb|e] w'] eqn:HG.
  - destruct (generate_inv self session forms w w' _ HG)
      as (Hu & sA & dA & n & sB & resp & dB & wB & scb & r & HA & HuA & HB & _).
    split; [exact Hu|].
    destruct (forms_array forms) as [|f rest] eqn:Hf; [now left | right].
    destruct (generate_for_inv self _ _ [] _ _ _ _ _ _ HuA eq_refl HB)
      as (_ & Hreads & Hl & _).
    split.
    + apply (lengths_ok_entropy self (tick n w) w); [reflexivity|].
      apply Hl. discriminate.
    + intros g Hg Hin. apply (Hreads g Hg).
      now apply (expire_reads self _ _ _ _ _ HA).
  - assert (Hdec : usable session \/ ~ usable session).
    { destruct session as [s|]; simpl; [|auto].
      destruct (Session.details s); [left; discriminate | right; auto]. }
    destruct Hdec as [Hu|Hn].
    + right. split; [exact Hu|].
      destruct (forms_array forms) as [|f rest] eqn:Hf.
      * exfalso.
        destruct (generate_no_forms self session forms w Hu Hf) as (cb & w2 & H).
        congruence.
      * split; [discriminate|].
        destruct (lengths_ok_dec self w) as [Hl|Hl]; [|now left].
        destruct (reads_inherited_among session (f :: rest)) as [Hex|Hall];
          [right; exact Hex|].
        exfalso.
        destruct (generate_run self session forms w Hu Hl)
          as (? & ? & ? & ? & ? & ? & ? & ? & ? & _ & _ & _ & _ & _ & _ & _ & H).
        { rewrite Hf. exact Hall. }
        congruence.
    + left. destruct session as [s|]; [|exfalso; apply Hn; exact I].
      simpl in Hn. unfold generate, bind, _expire in HG.
      destruct (Session.details s) eqn:Hs; [exfalso; apply Hn; discriminate|].
      injection HG as <- _. split; [|reflexivity]. simpl. rewrite Hs. auto.
Qed.

(** ** The session [generate] hands back *)

Section HandedBack.

Variable self : Config.t.

Lemma write_back_key (session : option Session.t) (f : string)
    (arr : list Credential) :
  Session.key <$> write_back session f arr = Session.key <$> session.
Proof.
  destruct session as [s|]; [|reflexivity]. simpl.
  destruct (Session.details s) as [dt|] eqn:Hs; [|reflexivity].
  destruct (csrf dt); [|reflexivity].
  unfold set_csrf. now rewrite Hs.
Qed.

Lemma expire_key (session session' : option Session.t)
    (details details' : CsrfDetails) (w w' : World) :
  _expire self session details w = (Ok (session', details'), w') ->
  Session.key <$> session' = Session.key <$> session.
Proof.
  unfold _expire. destruct session as [s|]; [|now intros [= <- _ _]].
  destruct (Session.details s) as [dt|] eqn:Hs; [|discriminate].
  destruct (csrf dt) as [d|]; [|now intros [= <- _ _]].
  unfold bind.
  destruct (expire_for_in self (obj_keys d) d details w) as [[[d' dd]|e] w0];
    [|discriminate].
  intros [= <- _ _]. unfold set_csrf. now rewrite Hs.
Qed.

(** What the loop of [generate] does to the session object: its
    identity and key stay; a form it had no array for is not added to
    it; a requested form it had an array for ends with the credential
    answered for that form. *)
Lemma generate_for_session (forms : list string) :
  forall (session : option Session.t) (resp : Obj Credential)
         (details : CsrfDetails) (w w' : World)
         (session' : option Session.t) (resp' : Obj Credential)
         (details' : CsrfDetails),
    usable session -> obj_get "__proto__" resp = None ->
    generate_for self forms session resp details w
      = (Ok (session', resp', details'), w') ->
    session_id session' = session_id session /\
    Session.key <$> session' = Session.key <$> session /\
    (forall g, g ∉ forms -> session_form session' g = session_form session g) /\
    (forall g, session_form session g = None -> session_form session' g = None) /\
    (forall g c, g ∈ forms -> obj_get g resp' = Some c ->
       is_Some (session_form session g) ->
       exists pre, session_form session' g = Some (pre ++ [c])).
Proof.
  induction forms as [|f rest IH];
    intros session resp details w w' session' resp' details' Hu Hp Hrun.
  - simpl in Hrun. injection Hrun as <- <- <- <-.
    repeat split; auto. intros g c Hg. inversion Hg.
  - destruct (generate_for_turn self f rest session resp details w w' _ Hu Hrun)
      as (_ & c0 & w1 & _ & Hrest).
    set (arr := evict self (default [] (session_form session f)) ++ [c0]) in *.
    destruct (turn_session session f arr Hu) as (Hu1 & _ & Hform1 & _).
    assert (Hp1 : obj_get "__proto__" (obj_assign f c0 resp) = None).
    { destruct (String.eqb_spec f "__proto__") as [->|Hne];
        [now rewrite obj_assign_proto | now rewrite obj_get_assign_ne]. }
    destruct (generate_for_inv self rest _ _ _ _ _ _ _ _ Hu1 Hp1 Hrest)
      as (_ & _ & _ & Hresp & _).
    destruct (IH _ _ _ _ _ _ _ _ Hu1 Hp1 Hrest)
      as (Hid & Hkey & Hout & Hnone & Hlast).
    assert (Hid1 : session_id
                     (match session_form session f with
                      | Some _ => write_back session f arr
                      | None => session
                      end) = session_id session).
    { destruct (session_form session f) as [l0|] eqn:E; [|reflexivity].
      now destruct (write_back_form session f f l0 arr E) as (_ & _ & ->). }
    assert (Hkey1 : Session.key <$>
                      (match session_form session f with
                       | Some _ => write_back session f arr
                       | None => session
                       end) = Session.key <$> session).
    { destruct (session_form session f); [apply write_back_key | reflexivity]. }
    split; [congruence|]. split; [congruence|]. split; [|split].
    + intros g Hg.
      assert (Hne : f <> g) by (intros ->; apply Hg; left).
      rewrite Hout by (intros Hc; apply Hg; now right).
      rewrite Hform1. apply String.eqb_neq in Hne. now rewrite Hne.
    + intros g Hg. apply Hnone. rewrite Hform1.
      destruct (String.eqb_spec f g) as [->|Hne]; [now rewrite Hg | exact Hg].
    + intros g c Hg Hc Hsome.
      destruct (decide (g ∈ rest)) as [Hin|Hout'].
      * apply (Hlast g c Hin Hc). rewrite Hform1.
        destruct (String.eqb_spec f g) as [->|Hne]; [|exact Hsome].
        destruct Hsome as [l0 ->]. eauto.
      * apply elem_of_cons in Hg as [->|Hg]; [|contradiction].
        destruct (Hresp f Hout') as [_ Hr]. rewrite Hr in Hc.
        destruct (String.eqb_spec f "__proto__") as [->|Hne];
          [rewrite obj_assign_proto in Hc by exact Hp; congruence|].
        rewrite obj_get_assign_eq in Hc by exact Hne.
        injection Hc as <-.
        rewrite (Hout f Hout'), Hform1, String.eqb_refl.
        destruct Hsome as [l0 ->]. subst arr. eauto.
Qed.

(** What [save] hands back tells which request it made. *)
Lemma save_saved_inv (session : option Session.t) (details : CsrfDetails)
    (w w' : World) (sess : Session.t) (created : bool) :
  save session details w = (Ok (Saved sess created), w') ->
  created = negb (truthy (session_id session)) /\
  (created = false -> session = Some sess).
Proof.
  unfold save.
  assert (Hpost : forall body,
    (let* r := luno_post "/sessions" body in
     match r with
     | inl err => ret (SaveErr err)
     | inr sess => ret (Saved sess true)
     end) w = (Ok (Saved sess created), w') -> created = true).
  { intros body. unfold bind, luno_post, ret.
    destruct (outage (luno w) (length (requests (luno w)))); simpl;
      [discriminate | now intros [= _ <- _]]. }
  destruct session as [s|]; simpl.
  - destruct (truthy (Session.id s)); simpl.
    + unfold bind.
      destruct (luno_patch _ _ w) as [[[err|]|e] w0]; try discriminate.
      intros [= <- <- _]. auto.
    + intros H. apply Hpost in H. subst. split; [reflexivity | discriminate].
  - intros H. apply Hpost in H. subst. split; [reflexivity | discriminate].
Qed.

End HandedBack.

(** X15.  [generate] reports [created = true] exactly when the session
    it was given is absent or has no (or an empty) [id].  When it
    updates, the session it hands back has the identity and the key of
    the one it was given, and is that object as the loop left it: a form
    the session had an array for ends with the credential answered for
    it, but a form the session had no array for is still absent from the
    object handed back, although a credential was answered for it and
    sent to the store. *)
Theorem generate_hands_back_session (self : Config.t)
    (session : option Session.t) (forms : Forms) (w w1 : World)
    (resp : Obj Credential) (sess : Session.t) (created : bool) :
  generate self session forms w = (Ok (Generated resp sess created), w1) ->
  created = negb (truthy (session_id session)) /\
  (created = false ->
   Session.id sess = session_id session /\
   Some (Session.key sess) = Session.key <$> session /\
   forall f,
     (session_form session f = None -> session_form (Some sess) f = None) /\
     (forall c, obj_get f resp = Some c -> is_Some (session_form session f) ->
        exists pre, session_form (Some sess) f = Some (pre ++ [c]))).
Proof.
  intros HG.
  destruct (generate_inv self session forms w w1 _ HG)
    as (Hu & sA & dA & n & sB & resp' & dB & wB & scb & r & HA & HuA & HB & HS
        & Hcb & _).
  destruct scb as [err|sess' created']; [discriminate|].
  injection Hcb as <- <- <-.
  destruct (expire_usable self session w Hu)
    as (sA' & dA' & n' & HA' & _ & HidA & _ & HformA).
  rewrite HA in HA'. injection HA' as <- <- _.
  pose proof (expire_key self _ _ _ _ _ _ HA) as HkeyA.
  destruct (generate_for_session self (forms_array forms) _ [] _ _ _ _ _ _ HuA
              eq_refl HB)
    as (HidB & HkeyB & _ & HnoneB & HlastB).
  destruct (save_saved_inv _ _ _ _ _ _ HS) as [Hcr Hsame].
  split; [rewrite Hcr; congruence|].
  intros Hfalse. specialize (Hsame Hfalse). subst sB.
  split; [simpl in HidB; congruence|].
  split; [simpl in HkeyB; congruence|].
  intros f. pose proof (HformA f) as Hf. split.
  - intros Hnone. rewrite Hnone in Hf. auto.
  - intros c Hc [l Hl]. rewrite Hl in Hf. destruct Hf as (l' & Hl' & _).
    apply HlastB; [|exact Hc | eauto].
    destruct (generate_for_inv self _ _ [] _ _ _ _ _ _ HuA eq_refl HB)
      as (_ & _ & _ & _ & Hkeys & _).
    destruct (proj1 (Hkeys f)) as [[x Hx]|[Hin _]];
      [eauto | discriminate | exact Hin].
Qed.

Lemma generate_hands_back_session_witness :
  session_form
    (Some (session_with [("login", [cred_at 1000 "a" "s"; cred_at 1000 "r0" "r1"])]))
    "signup" = None /\
  exists pre,
    session_form
      (Some (session_with
               [("login", [cred_at 1000 "a" "s"; cred_at 1000 "r0" "r1"])]))
      "login" = Some (pre ++ [cred_at 1000 "r0" "r1"]).
Proof.
  destruct (generate_hands_back_session self_scenario
              (Some (session_with [("login", [cred_at 1000 "a" "s"])]))
              (FormArray ["login"; "signup"])
              (steady 1000
                 (store_of [session_with [("login", [cred_at 1000 "a" "s"])]]))
              _
              [("login", cred_at 1000 "r0" "r1");
               ("signup", cred_at 1000 "r2" "r3")]
              (session_with
                 [("login", [cred_at 1000 "a" "s"; cred_at 1000 "r0" "r1"])])
              false (surjective_pairing _)) as [_ H].
  destruct (H eq_refl) as (_ & _ & Hf). split.
  - apply (proj1 (Hf "signup")). reflexivity.
  - apply (proj2 (Hf "login") (cred_at 1000 "r0" "r1")); [reflexivity|].
    eexists. reflexivity.
Defined.

(** ** The rendered input *)

Section Rendering.

Variable self : Config.t.

Lemma append_cons (a : Ascii.ascii) (s t : string) :
  String a s +:+ t = String a (s +:+ t).
Proof. reflexivity. Qed.

Lemma append_assoc (a b c : string) : (a +:+ b) +:+ c = a +:+ (b +:+ c).
Proof.
  induction a as [|x a IH]; [reflexivity|].
  rewrite !append_cons. now rewrite IH.
Qed.

Lemma append_length (a b : string) :
  String.length (a +:+ b) = String.length a + String.length b.
Proof.
  induction a as [|x a IH]; [reflexivity|].
  rewrite append_cons. simpl. now rewrite IH.
Qed.

Lemma append_inj_l (p a b : string) : p +:+ a = p +:+ b -> a = b.
Proof.
  induction p as [|x p IH]; [exact (fun H => H)|].
  rewrite !append_cons. intros [= H]. auto.
Qed.

Lemma append_inj_r (s : string) : forall a b, a +:+ s = b +:+ s -> a = b.
Proof.
  induction a as [|x a IH]; intros [|y b] H.
  - reflexivity.
  - apply (f_equal String.length) in H. rewrite !append_length in H.
    simpl in H. lia.
  - apply (f_equal String.length) in H. rewrite !append_length in H.
    simpl in H. lia.
  - rewrite !append_cons in H. injection H as -> H. f_equal. auto.
Qed.

(** Two texts without a quote, each followed by a quote: the first quote
    tells where they end. *)
Lemma quote_free_split (r r' : string) :
  forall a a',
    quote_free a = true -> quote_free a' = true ->
    a +:+ String (Ascii.ascii_of_nat 34) r
      = a' +:+ String (Ascii.ascii_of_nat 34) r' ->
    a = a' /\ r = r'.
Proof.
  induction a as [|x a IH]; intros [|y a'] Ha Ha' H.
  - change (String (Ascii.ascii_of_nat 34) r = String (Ascii.ascii_of_nat 34) r')
      in H.
    injection H as ->. auto.
  - rewrite append_cons in H.
    change (String (Ascii.ascii_of_nat 34) r
            = String y (a' +:+ String (Ascii.ascii_of_nat 34) r')) in H.
    injection H as <- _. simpl in Ha'. try rewrite Ascii.eqb_refl in Ha'. discriminate.
  - rewrite append_cons in H.
    change (String x (a +:+ String (Ascii.ascii_of_nat 34) r)
            = String (Ascii.ascii_of_nat 34) r') in H.
    injection H as -> _. simpl in Ha. try rewrite Ascii.eqb_refl in Ha. discriminate.
  - rewrite !append_cons in H. injection H as -> H.
    simpl in Ha, Ha'. apply andb_true_iff in Ha as [_ Ha].
    apply andb_true_iff in Ha' as [_ Ha'].
    destruct (IH a' Ha Ha' H) as [-> ->]. auto.
Qed.

(** The input as a fixed text around the field name and the token. *)
Lemma inputHTML_shape (c : Credential) :
  inputHTML self c
  = ("<input type=" +:+ quoted "hidden" +:+ " name="
       +:+ String (Ascii.ascii_of_nat 34) EmptyString)
    +:+ (fieldName self c
         +:+ String (Ascii.ascii_of_nat 34)
               ((" value=" +:+ String (Ascii.ascii_of_nat 34) EmptyString)
                +:+ (token c +:+ (String (Ascii.ascii_of_nat 34) EmptyString
                                  +:+ ">")))).
Proof.
  unfold inputHTML, quoted. rewrite !append_assoc, !append_cons, !append_assoc.
  reflexivity.
Qed.

End Rendering.

(** Nothing is escaped: with a quote in the name or the token, two
    credentials with different tokens render the same input. *)
Example inputHTML_escapes_nothing :
  inputHTML self_scenario
    {| name := Some "a";
       token := "b" +:+ String (Ascii.ascii_of_nat 34)
                          (" value=" +:+ String (Ascii.ascii_of_nat 34) "c");
       created := 0 |}
  = inputHTML self_scenario
      {| name := Some ("a" +:+ String (Ascii.ascii_of_nat 34)
                                 (" value=" +:+ String (Ascii.ascii_of_nat 34) "b"));
         token := "c"; created := 0 |}.
Proof. reflexivity. Qed.

(** X16.  [inputHTML] renders the field name [validate] reads and the
    token, each between double quotes and neither escaped: two
    credentials whose field names hold no double quote (base64 text never
    does) render the same input only if they have the same field name and
    the same token. *)
Theorem inputHTML_tells_field_and_token (self : Config.t)
    (c1 c2 : Credential) :
  quote_free (fieldName self c1) = true ->
  quote_free (fieldName self c2) = true ->
  inputHTML self c1 = inputHTML self c2 ->
  fieldName self c1 = fieldName self c2 /\ token c1 = token c2.
Proof.
  intros H1 H2 H. rewrite !inputHTML_shape in H.
  apply append_inj_l in H.
  apply quote_free_split in H as [HF HT]; [|assumption..].
  split; [exact HF|].
  apply append_inj_l in HT. now apply append_inj_r in HT.
Qed.

Lemma inputHTML_tells_field_and_token_witness :
  fieldName self_scenario (cred_at 1 "a" "s")
    = fieldName self_scenario (cred_at 2 "a" "s") /\
  token (cred_at 1 "a" "s") = token (cred_at 2 "a" "s").
Proof.
  apply (inputHTML_tells_field_and_token self_scenario
           (cred_at 1 "a" "s") (cred_at 2 "a" "s"));
    reflexivity.
Defined.
